(** * git-commit-large-files: batch planning and sequential execution

    A shallow embedding of [git-commit-large-files.py] and the proofs of
    the properties its specification states about it.

    Conventions of the embedding:
    - a Python [int] is a [Z];
    - a Python [str] is a [string]; [len] is [String.length];
    - a [dict] / [defaultdict] is an association list kept in insertion
      order, which is the order Python iterates it in;
    - [sorted] and [list.sort] are stable; a stable sort has exactly one
      possible output, computed here by a stable insertion sort;
    - external processes, the file system and [print] are observed
      through an explicit world state and a list of events. *)

From Stdlib Require Import List ZArith Lia Bool String Ascii Permutation Sorted.
From Stdlib Require Import DecimalString.
From Stdlib Require DecimalPos DecimalZ.
Import ListNotations.

Local Open Scope string_scope.
Local Open Scope list_scope.
Local Open Scope Z_scope.

(** ** Data model *)

(** The dictionaries built by [get_git_status_files] and
    [get_files_from_directory]: keys ["path"], ["size"], ["dir"]. *)
Record FileEntry : Type := mkFile {
  path : string;
  size : Z;
  dir : string
}.

Definition Batch : Type := list FileEntry.

(** [sum(f["size"] for f in batch)] *)
Definition total_size (b : list FileEntry) : Z :=
  fold_right (fun f acc => size f + acc) 0 b.

(** ** Python containers *)

Module Py.

(** A [defaultdict] in insertion order. *)
Definition dict (V : Type) : Type := list (string * V).

Definition keys {V} (d : dict V) : list string := map fst d.

(** [d[k]] on a [defaultdict] whose factory gives [dflt]. *)
Fixpoint get {V} (dflt : V) (k : string) (d : dict V) : V :=
  match d with
  | [] => dflt
  | (k', v) :: r => if String.eqb k k' then v else get dflt k r
  end.

(** [d.get(k, dflt)] has the same value as [d[k]] above; it is kept
    apart because the source uses both. *)
Definition get_or {V} (dflt : V) (k : string) (d : dict V) : V :=
  get dflt k d.

(** [d[k] = f(d[k])] on a [defaultdict]: an absent key is created at
    the end, holding [f dflt]. *)
Fixpoint update {V} (dflt : V) (f : V -> V) (k : string) (d : dict V)
  : dict V :=
  match d with
  | [] => [(k, f dflt)]
  | (k', v) :: r =>
      if String.eqb k k' then (k', f v) :: r
      else (k', v) :: update dflt f k r
  end.

(** [list.remove(x)]: drops the first occurrence.  (Python raises
    [ValueError] when there is none; the planner only removes an
    element it is iterating over.) *)
Fixpoint remove (x : string) (l : list string) : list string :=
  match l with
  | [] => []
  | y :: r => if String.eqb x y then r else y :: remove x r
  end.

(** [sorted(l, key=key)]: stable, ascending. *)
Fixpoint insert_asc {A} (key : A -> Z) (x : A) (l : list A) : list A :=
  match l with
  | [] => [x]
  | y :: r => if key x <=? key y then x :: y :: r
              else y :: insert_asc key x r
  end.

Definition sorted {A} (key : A -> Z) (l : list A) : list A :=
  fold_right (insert_asc key) [] l.

(** [sorted(l, key=key, reverse=True)]: descending, and elements with
    equal keys keep their original order. *)
Fixpoint insert_desc {A} (key : A -> Z) (x : A) (l : list A) : list A :=
  match l with
  | [] => [x]
  | y :: r => if key y <=? key x then x :: y :: r
              else y :: insert_desc key x r
  end.

Definition sorted_rev {A} (key : A -> Z) (l : list A) : list A :=
  fold_right (insert_desc key) [] l.

(** Truth value of a list: [if l:] *)
Definition truthy {A} (l : list A) : bool :=
  match l with [] => false | _ => true end.

End Py.

(** ** Directory aggregator: [organize_files_by_directory] *)

Definition organize_step (st : Py.dict (list FileEntry) * Py.dict Z)
  (file_info : FileEntry) : Py.dict (list FileEntry) * Py.dict Z :=
  let '(dir_files, dir_sizes) := st in
  let dir_path := dir file_info in
  (Py.update [] (fun l => l ++ [file_info]) dir_path dir_files,
   Py.update 0 (fun s => s + size file_info) dir_path dir_sizes).

Definition organize_files_by_directory (git_files : list FileEntry)
  : Py.dict (list FileEntry) * Py.dict Z :=
  fold_left organize_step git_files ([], []).

(** ** Batch planner: [create_batches] *)

Definition default_max_batch_size : Z := 100 * 1024 * 1024.

(** Body of the first loop, over the copy [sorted_dirs[:]]; the state is
    [(batches, sorted_dirs)]. *)
Definition phase1_step (max_batch_size : Z)
  (dir_files : Py.dict (list FileEntry)) (dir_sizes : Py.dict Z)
  (st : list Batch * list string) (dir_path : string)
  : list Batch * list string :=
  let '(batches, sorted_dirs) := st in
  if Py.get 0 dir_path dir_sizes <=? max_batch_size
  then (batches ++ [Py.get [] dir_path dir_files],
        Py.remove dir_path sorted_dirs)
  else (batches, sorted_dirs).

(** Body of the innermost loop; the state is
    [(batches, current_batch, current_batch_size)]. *)
Definition fill_step (max_batch_size : Z)
  (st : list Batch * Batch * Z) (file_info : FileEntry)
  : list Batch * Batch * Z :=
  let '(batches, current_batch, current_batch_size) := st in
  if current_batch_size + size file_info <=? max_batch_size
  then (batches, current_batch ++ [file_info],
        current_batch_size + size file_info)
  else ((if Py.truthy current_batch then batches ++ [current_batch]
         else batches),
        [file_info], size file_info).

(** Body of the second loop, for one oversized directory.  The in-place
    [files.sort] also reorders the list held by [dir_files]; that list
    is not read again and is in no batch, so the model keeps only the
    sorted value. *)
Definition phase2_step (max_batch_size : Z)
  (dir_files : Py.dict (list FileEntry))
  (batches : list Batch) (dir_path : string) : list Batch :=
  let files := Py.get [] dir_path dir_files in
  let files := Py.sorted_rev size files in
  let '(batches, current_batch, _) :=
    fold_left (fill_step max_batch_size) files (batches, [], 0) in
  if Py.truthy current_batch then batches ++ [current_batch] else batches.

Definition create_batches (git_files : list FileEntry) (max_batch_size : Z)
  : list Batch :=
  if negb (Py.truthy git_files) then []
  else
    let '(dir_files, dir_sizes) := organize_files_by_directory git_files in
    let batches := [] in
    let sorted_dirs :=
      Py.sorted (fun d => Py.get 0 d dir_sizes) (Py.keys dir_sizes) in
    let '(batches, sorted_dirs) :=
      fold_left (phase1_step max_batch_size dir_files dir_sizes)
                sorted_dirs (batches, sorted_dirs) in
    let sorted_dirs :=
      Py.sorted_rev (fun d => Py.get 0 d dir_sizes) sorted_dirs in
    fold_left (phase2_step max_batch_size dir_files) sorted_dirs batches.

(** ** Batch simplifier: [simplify_batch_files] *)

(** [set(a) == set(b)] on sets built from two lists of strings. *)
Definition set_eqb (a b : list string) : bool :=
  forallb (fun x => existsb (String.eqb x) b) a
  && forallb (fun x => existsb (String.eqb x) a) b.

Definition group_step (dir_files : Py.dict (list FileEntry))
  (file_info : FileEntry) : Py.dict (list FileEntry) :=
  Py.update [] (fun l => l ++ [file_info]) (dir file_info) dir_files.

(** Body of the loop over [dir_files.items()]; the state is
    [(simplified_files, simplified_dirs)]. *)
Definition simplify_step (all_dir_files : Py.dict (list FileEntry))
  (st : list string * list string) (item : string * list FileEntry)
  : list string * list string :=
  let '(simplified_files, simplified_dirs) := st in
  let '(dir_path, files) := item in
  if String.eqb dir_path "." then
    (simplified_files ++ map path files, simplified_dirs)
  else
    let batch_files_in_dir := map path files in
    let all_files_in_dir := map path (Py.get_or [] dir_path all_dir_files) in
    if set_eqb batch_files_in_dir all_files_in_dir
    then (simplified_files, simplified_dirs ++ [dir_path])
    else (simplified_files ++ map path files, simplified_dirs).

(** [repo_path] is a parameter the source never reads. *)
Definition simplify_batch_files (batch_files : list FileEntry)
  (repo_path : string) (all_git_files : list FileEntry)
  : list string * list string :=
  let dir_files := fold_left group_step batch_files [] in
  let '(all_dir_files, _) := organize_files_by_directory all_git_files in
  fold_left (simplify_step all_dir_files) dir_files ([], []).

(** ** Command chunker: the grouping loop of [batch_git_add_files] *)

Definition default_max_command_length : Z := 32000.

(** [len("git add ")] *)
Definition base_command_length : Z := Z.of_nat (String.length "git add ").

Definition file_length (file_path : string) : Z :=
  Z.of_nat (String.length file_path) + 1.

(** Body of the grouping loop; the state is
    [(batches, current_batch, current_length)]. *)
Definition chunk_step (max_command_length : Z)
  (st : list (list string) * list string * Z) (file_path : string)
  : list (list string) * list string * Z :=
  let '(batches, current_batch, current_length) := st in
  if max_command_length
       <? current_length + file_length file_path + base_command_length
  then ((if Py.truthy current_batch then batches ++ [current_batch]
         else batches),
        [file_path], file_length file_path)
  else (batches, current_batch ++ [file_path],
        current_length + file_length file_path).

(** The list [batches] that [batch_git_add_files] goes on to execute.
    For an empty [file_paths] the source returns before building it,
    having run no command: the empty list of chunks. *)
Definition add_chunks (file_paths : list string) (max_command_length : Z)
  : list (list string) :=
  if negb (Py.truthy file_paths) then []
  else
    let '(batches, current_batch, _) :=
      fold_left (chunk_step max_command_length) file_paths ([], [], 0) in
    if Py.truthy current_batch then batches ++ [current_batch] else batches.

(** Sum of [len(token) + 1] over a chunk. *)
Definition tokens_length (chunk : list string) : Z :=
  fold_right (fun t acc => file_length t + acc) 0 chunk.

(** Estimated length of the command staging one chunk. *)
Definition command_length (chunk : list string) : Z :=
  base_command_length + tokens_length chunk.

(** A chunk within the limit, or one token that alone exceeds it. *)
Definition chunk_fits (max_command_length : Z) (chunk : list string) : Prop :=
  command_length chunk <= max_command_length
  \/ exists t, chunk = [t] /\ max_command_length < command_length [t].

(** What the grouping loop maintains, [visited] being the tokens read. *)
Definition chunk_invariant (max_command_length : Z) (visited : list string)
  (st : list (list string) * list string * Z) : Prop :=
  let '(batches, current_batch, current_length) := st in
  List.concat batches ++ current_batch = visited
  /\ current_length = tokens_length current_batch
  /\ Forall (chunk_fits max_command_length) batches
  /\ (current_batch = [] \/ chunk_fits max_command_length current_batch)
  /\ Forall (fun c => c <> []) batches.

(** ** Size filter: the loop of [get_git_files] *)

Definition max_file_size : Z := 50 * 1024 * 1024.

(** The state is [(filtered_files, skipped_files)]. *)
Definition filter_step (st : list FileEntry * list string)
  (file_info : FileEntry) : list FileEntry * list string :=
  let '(filtered_files, skipped_files) := st in
  if max_file_size <? size file_info
  then (filtered_files, skipped_files ++ [path file_info])
  else (filtered_files ++ [file_info], skipped_files).

(** [get_git_files], given what [find_git_repo] returned and the status
    query [get_git_status_files] as a function of the repository path.
    The source returns [[]] in the place of the repository path on its
    two early exits; that is [None] here. *)
Definition get_git_files (found_repo : option string)
  (status_query : string -> list FileEntry)
  : list FileEntry * option string * list string :=
  match found_repo with
  | None => ([], None, [])
  | Some repo_path =>
      let git_files := status_query repo_path in
      if negb (Py.truthy git_files) then ([], None, [])
      else
        let '(filtered_files, skipped_files) :=
          fold_left filter_step git_files ([], []) in
        (filtered_files, Some repo_path, skipped_files)
  end.

(** ** Change set discovery: [get_git_status_files]

    The working tree is a finite tree.  A path that resolves to nothing
    is missing (a deleted file); [Special] is something that exists and
    is neither a regular file nor a directory.  Paths are kept as lists
    of components relative to the repository root; symbolic links and
    [..] are outside the model. *)

#[warnings="-register-all"]
Inductive Node : Type :=
| RegularFile (st_size : Z)
| Directory (entries : list (string * Node))
| Special.

(** [str(p.relative_to(repo_path))] *)
Definition rel_str (comps : list string) : string :=
  match comps with
  | [] => "."
  | _ => String.concat "/" comps
  end.

Fixpoint split_slash (s : string) : list string :=
  match s with
  | EmptyString => [EmptyString]
  | String c r =>
      if Ascii.eqb c "/"%char then EmptyString :: split_slash r
      else match split_slash r with
           | [] => [String c EmptyString]
           | h :: t => String c h :: t
           end
  end.

(** [(repo_path / filename).resolve()], relative to the root. *)
Definition resolve (filename : string) : list string :=
  filter (fun c => negb (String.eqb c "" || String.eqb c "."))
         (split_slash filename).

Fixpoint find_entry (name : string) (entries : list (string * Node))
  : option Node :=
  match entries with
  | [] => None
  | (n, child) :: rest =>
      if String.eqb name n then Some child else find_entry name rest
  end.

Fixpoint lookup (comps : list string) (n : Node) : option Node :=
  match comps with
  | [] => Some n
  | c :: rest =>
      match n with
      | Directory entries =>
          match find_entry c entries with
          | Some child => lookup rest child
          | None => None
          end
      | _ => None
      end
  end.

(** [dir] of an entry whose parent has the relative path [parent]. *)
Definition dir_of_parent (parent : list string) : string :=
  match parent with
  | [] => "."
  | _ => rel_str parent
  end.

(** [get_files_from_directory(directory, repo_path)], where [rel] is the
    relative path of [directory]. *)
Fixpoint get_files_from_directory (rel : list string) (directory : Node)
  : list FileEntry :=
  match directory with
  | Directory entries =>
      (fix iterdir (items : list (string * Node)) : list FileEntry :=
         match items with
         | [] => []
         | (name, item) :: rest =>
             (match item with
              | RegularFile st_size =>
                  [mkFile (rel_str (rel ++ [name])) st_size
                          (dir_of_parent rel)]
              | Directory _ =>
                  if negb (String.eqb name ".git")
                  then get_files_from_directory (rel ++ [name]) item
                  else []
              | Special => []
              end) ++ iterdir rest
         end) entries
  | _ => []
  end.

(** Body of the loop of [get_git_status_files], from the point where
    [filename] has been read off a status line. *)
Definition status_step (repo : Node) (files : list FileEntry)
  (filename : string) : list FileEntry :=
  let file_path := resolve filename in
  match lookup file_path repo with
  | Some (Directory entries) =>
      let dir_files :=
        get_files_from_directory file_path (Directory entries) in
      files ++ dir_files
  | found =>
      files ++
      [mkFile (rel_str file_path)
              (match found with
               | Some (RegularFile st_size) => st_size
               | _ => 0
               end)
              (dir_of_parent (removelast file_path))]
  end.

(** [root] lists the repository root, which is a directory. *)
Definition get_git_status_files (root : list (string * Node))
  (filenames : list string) : list FileEntry :=
  fold_left (status_step (Directory root)) filenames [].

(** ** Python strings used by the message derivation *)

Definition nl : string := String (ascii_of_nat 10) EmptyString.

(** [str.isspace] on the characters of the ASCII range: tab to carriage
    return, the four separators 28 to 31, and the space.  Characters
    beyond ASCII are sequences of bytes above 127 in a [string] and are
    never whitespace here. *)
Definition is_space (c : ascii) : bool :=
  let n := nat_of_ascii c in
  ((9 <=? n) && (n <=? 13) || (28 <=? n) && (n <=? 32))%nat.

Fixpoint lstrip (s : string) : string :=
  match s with
  | EmptyString => EmptyString
  | String c r => if is_space c then lstrip r else s
  end.

Definition rev_string (s : string) : string :=
  string_of_list_ascii (rev (list_ascii_of_string s)).

Definition rstrip (s : string) : string := rev_string (lstrip (rev_string s)).

(** [s.strip()] *)
Definition strip (s : string) : string := rstrip (lstrip s).

(** [s.endswith(suffix)] *)
Definition endswith (s suffix : string) : bool :=
  String.prefix (rev_string suffix) (rev_string s).

(** [str(n)] and the [{n}] of an f-string, for an [int]. *)
Definition str_of_int (n : Z) : string := NilZero.string_of_int (Z.to_int n).

(** ** The world outside the process *)

(** How an external command or a file operation ends: normally, with
    [subprocess.CalledProcessError], or with any other exception. *)
Inductive Outcome : Type := Done | CalledProcessError | OtherError.

(** Reading a text file under one encoding. *)
Inductive ReadResult : Type :=
| ReadOk (text : string)
| UnicodeDecodeError
| ReadError.

(** The operating system as the program uses it.  [W] is the state of
    everything outside the process. *)
Record OS (W : Type) : Type := mkOS {
  read_text : string -> string -> W -> ReadResult;
  write_text : string -> string -> W -> option W;
  path_exists : string -> W -> bool;
  os_remove : string -> W -> W;
  run_git_add : list string -> W -> Outcome * W;
  run_git_commit : string -> W -> Outcome * W;
  run_git_push : W -> Outcome * W
}.

Arguments read_text {W} _ _ _ _.
Arguments write_text {W} _ _ _ _.
Arguments path_exists {W} _ _ _.
Arguments os_remove {W} _ _ _.
Arguments run_git_add {W} _ _ _.
Arguments run_git_commit {W} _ _ _.
Arguments run_git_push {W} _ _.

(** What one call of [execute_git_add_commit] does to the world. *)
Inductive Cmd : Type :=
| NoFiles
| WriteTemp (temp_file_path : string) (new_message : string)
| WriteTempFailed (temp_file_path : string)
| GitAdd (paths : list string) (r : Outcome)
| GitCommit (message_file : string) (r : Outcome)
| RemoveTemp (temp_file_path : string).

(** What a run of [main] does, in order. *)
Inductive Event : Type :=
| BatchStart (i : Z)
| InBatch (i : Z) (c : Cmd)
| BatchOk (i : Z)
| BatchFailed (i : Z)
| Push (r : Outcome)
| Cleanup (temp_file_path : string).

(** A call either returns or lets an exception escape. *)
Inductive Res (A : Type) : Type :=
| Returned (a : A)
| Raised.

Arguments Returned {A} _.
Arguments Raised {A}.

Section Execution.

Context {W : Type} (os : OS W).

(** *** [create_commit_message_file] *)

Definition read_template (original_commit_info_file : string) (w : W)
  : Res string :=
  match read_text os original_commit_info_file "utf-8" w with
  | ReadOk text => Returned (strip text)
  | UnicodeDecodeError =>
      match read_text os original_commit_info_file "gbk" w with
      | ReadOk text => Returned (strip text)
      | _ => Raised
      end
  | ReadError => Raised
  end.

Definition batch_suffix (batch_index total_batches : Z) : string :=
  (" (批次 " ++ str_of_int batch_index ++ "/" ++ str_of_int total_batches
   ++ ")")%string.

Definition temp_path (original_commit_info_file : string) (batch_index : Z)
  : string :=
  (original_commit_info_file ++ ".batch" ++ str_of_int batch_index)%string.

(** Returns [(file, message)], the commands it ran and the new world. *)
Definition create_commit_message_file (original_commit_info_file : string)
  (batch_index total_batches : Z) (w : W)
  : Res (string * string) * list Cmd * W :=
  match read_template original_commit_info_file w with
  | Raised => (Raised, [], w)
  | Returned original_message =>
      if total_batches =? 1
      then (Returned (original_commit_info_file, original_message), [], w)
      else
        let suffix := batch_suffix batch_index total_batches in
        let new_message :=
          if negb (String.eqb original_message "")
             && negb (endswith original_message nl)
          then (original_message ++ nl ++ suffix)%string
          else (original_message ++ suffix)%string in
        let temp_file_path :=
          temp_path original_commit_info_file batch_index in
        match write_text os temp_file_path new_message w with
        | None =>
            (Returned (original_commit_info_file, original_message),
             [WriteTempFailed temp_file_path], w)
        | Some w' =>
            (Returned (temp_file_path, new_message),
             [WriteTemp temp_file_path new_message], w')
        end
  end.

(** *** [batch_git_add_files]: running the chunks *)

(** The loop over [batches]: [Returned true] when every chunk was
    staged, [Returned false] at the first [CalledProcessError], and any
    other exception escapes. *)
Fixpoint run_chunks (batches : list (list string)) (w : W)
  : Res bool * list Cmd * W :=
  match batches with
  | [] => (Returned true, [], w)
  | batch :: rest =>
      match run_git_add os batch w with
      | (Done, w1) =>
          let '(r, evs, w2) := run_chunks rest w1 in
          (r, GitAdd batch Done :: evs, w2)
      | (CalledProcessError, w1) =>
          (Returned false, [GitAdd batch CalledProcessError], w1)
      | (OtherError, w1) => (Raised, [GitAdd batch OtherError], w1)
      end
  end.

Definition batch_git_add_files (file_paths : list string)
  (repo_path : string) (max_command_length : Z) (w : W)
  : Res bool * list Cmd * W :=
  run_chunks (add_chunks file_paths max_command_length) w.

(** *** [execute_git_add_commit] *)

(** The [finally] clause. *)
Definition finally_remove (temp_commit_file commit_info_file : string)
  (w : W) : list Cmd * W :=
  if negb (String.eqb temp_commit_file commit_info_file)
     && path_exists os temp_commit_file w
  then ([RemoveTemp temp_commit_file], os_remove os temp_commit_file w)
  else ([], w).

(** The [try] block with its two [except] clauses: the success flag. *)
Definition try_add_commit (all_paths : list string)
  (temp_commit_file repo_path : string) (w : W) : bool * list Cmd * W :=
  match batch_git_add_files all_paths repo_path
          default_max_command_length w with
  | (Returned false, evs, w1) => (false, evs, w1)
  | (Raised, evs, w1) => (false, evs, w1)
  | (Returned true, evs, w1) =>
      match run_git_commit os temp_commit_file w1 with
      | (Done, w2) => (true, evs ++ [GitCommit temp_commit_file Done], w2)
      | (r, w2) => (false, evs ++ [GitCommit temp_commit_file r], w2)
      end
  end.

Definition execute_git_add_commit (files : list FileEntry)
  (commit_info_file repo_path : string) (all_git_files : list FileEntry)
  (batch_index total_batches : Z) (w : W) : Res bool * list Cmd * W :=
  if negb (Py.truthy files) then (Returned false, [NoFiles], w)
  else
    match create_commit_message_file commit_info_file batch_index
            total_batches w with
    | (Raised, evs0, w0) => (Raised, evs0, w0)
    | (Returned (temp_commit_file, commit_message), evs0, w0) =>
        let '(simplified_files, simplified_dirs) :=
          simplify_batch_files files repo_path all_git_files in
        let all_paths := simplified_files ++ simplified_dirs in
        let '(success, evs1, w1) :=
          try_add_commit all_paths temp_commit_file repo_path w0 in
        let '(evs2, w2) :=
          finally_remove temp_commit_file commit_info_file w1 in
        (Returned success, evs0 ++ evs1 ++ evs2, w2)
    end.

(** *** [execute_git_push] *)

Definition execute_git_push (repo_path : string) (w : W)
  : bool * list Event * W :=
  match run_git_push os w with
  | (Done, w1) => (true, [Push Done], w1)
  | (r, w1) => (false, [Push r], w1)
  end.

(** *** [cleanup_temp_files] *)

Fixpoint cleanup_loop (original_commit_info_file : string) (i : Z)
  (count : nat) (w : W) : list Event * W :=
  match count with
  | O => ([], w)
  | S count' =>
      let temp_file_path := temp_path original_commit_info_file i in
      let '(evs1, w1) :=
        if path_exists os temp_file_path w
        then ([Cleanup temp_file_path], os_remove os temp_file_path w)
        else ([], w) in
      let '(evs2, w2) :=
        cleanup_loop original_commit_info_file (i + 1) count' w1 in
      (evs1 ++ evs2, w2)
  end.

Definition cleanup_temp_files (original_commit_info_file : string)
  (total_batches : Z) (w : W) : list Event * W :=
  cleanup_loop original_commit_info_file 1 (Z.to_nat total_batches) w.

(** *** [main] *)

(** The loop [for i, batch in enumerate(batches, 1)], from index [i]
    on.  It returns [successful_batches] and whether an exception
    escaped it. *)
Fixpoint run_batches (batches : list Batch) (i : Z)
  (commit_info_file repo_path : string) (git_files : list FileEntry)
  (total_batches : Z) (successful_batches : Z) (w : W)
  : Res Z * list Event * W :=
  match batches with
  | [] => (Returned successful_batches, [], w)
  | batch :: rest =>
      match execute_git_add_commit batch commit_info_file repo_path
              git_files i total_batches w with
      | (Raised, cmds, w1) =>
          (Raised, BatchStart i :: map (InBatch i) cmds, w1)
      | (Returned true, cmds, w1) =>
          let '(r, evs, w2) :=
            run_batches rest (i + 1) commit_info_file repo_path git_files
              total_batches (successful_batches + 1) w1 in
          (r, BatchStart i :: map (InBatch i) cmds ++ BatchOk i :: evs, w2)
      | (Returned false, cmds, w1) =>
          (Returned successful_batches,
           BatchStart i :: map (InBatch i) cmds ++ [BatchFailed i], w1)
      end
  end.

(** The pipeline of [main] on a plan: the loop, the push when every
    batch succeeded, and the final clean-up. *)
Definition run_plan (batches : list Batch)
  (commit_info_file repo_path : string) (git_files : list FileEntry)
  (w : W) : list Event * W :=
  let total_batches := Z.of_nat (List.length batches) in
  match run_batches batches 1 commit_info_file repo_path git_files
          total_batches 0 w with
  | (Raised, evs, w1) => (evs, w1)
  | (Returned successful_batches, evs, w1) =>
      let '(evs2, w2) :=
        if successful_batches =? total_batches
        then let '(_, evs_push, w') := execute_git_push repo_path w1 in
             (evs_push, w')
        else ([], w1) in
      let '(evs3, w3) :=
        cleanup_temp_files commit_info_file total_batches w2 in
      (evs ++ evs2 ++ evs3, w3)
  end.

(** [main], from the result of [get_git_files] on. *)
Definition main (commit_info_file : string)
  (discovered : list FileEntry * option string * list string) (w : W)
  : list Event * W :=
  let '(git_files, repo, skipped_files) := discovered in
  let repo_path := match repo with Some p => p | None => "" end in
  if negb (Py.truthy git_files) && negb (Py.truthy skipped_files)
  then ([], w)
  else if negb (Py.truthy git_files) then ([], w)
  else
    let batches := create_batches git_files default_max_batch_size in
    if negb (Py.truthy batches) then ([], w)
    else run_plan batches commit_info_file repo_path git_files w.

End Execution.

(** ** Vocabulary of the specification *)

(** The entries of [git_files] whose parent directory is [d], in the
    order of [git_files]. *)
Definition files_in (git_files : list FileEntry) (d : string)
  : list FileEntry :=
  filter (fun f => String.eqb (dir f) d) git_files.

(** Aggregate size of directory [d]. *)
Definition dir_total (git_files : list FileEntry) (d : string) : Z :=
  total_size (files_in git_files d).

(** The directories of [git_files], each once, in order of first
    appearance. *)
Definition dirs_of (git_files : list FileEntry) : list string :=
  Py.keys (snd (organize_files_by_directory git_files)).

(** Greedy fill, in the words of the specification: keep adding the
    next file to the current batch while that does not exceed the
    budget; when the next file would overflow, close the current batch
    and start a new one with that file; flush what remains. *)
Fixpoint greedy_from (max_batch_size : Z) (current : Batch)
  (current_size : Z) (files : list FileEntry) : list Batch :=
  match files with
  | [] => if Py.truthy current then [current] else []
  | f :: rest =>
      if current_size + size f <=? max_batch_size
      then greedy_from max_batch_size (current ++ [f])
             (current_size + size f) rest
      else (if Py.truthy current then [current] else [])
           ++ greedy_from max_batch_size [f] (size f) rest
  end.

Definition greedy_fill (max_batch_size : Z) (files : list FileEntry)
  : list Batch :=
  greedy_from max_batch_size [] 0 files.

(** The [if current_batch: batches.append(current_batch)] that follows
    the innermost loop. *)
Definition flush (st : list Batch * Batch * Z) : list Batch :=
  let '(batches, current_batch, _) := st in
  if Py.truthy current_batch then batches ++ [current_batch] else batches.

(** A batch within budget, or one file that alone exceeds it. *)
Definition within_budget (max_batch_size : Z) (b : Batch) : Prop :=
  total_size b <= max_batch_size
  \/ exists f, b = [f] /\ max_batch_size < size f.

(** Order of two neighbours in a list sorted by [key]. *)
Definition ascending {A} (key : A -> Z) (a b : A) : Prop := key a <= key b.
Definition descending {A} (key : A -> Z) (a b : A) : Prop := key b <= key a.

(** Phase-1 directories of the plan, in plan order. *)
Definition small_dirs (git_files : list FileEntry) (max_batch_size : Z)
  : list string :=
  filter (fun d => dir_total git_files d <=? max_batch_size)
         (Py.sorted (dir_total git_files) (dirs_of git_files)).

(** Phase-2 directories of the plan, in plan order. *)
Definition big_dirs (git_files : list FileEntry) (max_batch_size : Z)
  : list string :=
  Py.sorted_rev (dir_total git_files)
    (filter (fun d => negb (dir_total git_files d <=? max_batch_size))
            (Py.sorted (dir_total git_files) (dirs_of git_files))).

(** Directory tokens expanded against the full accepted set. *)
Definition expand_dirs (all_git_files : list FileEntry)
  (simplified_dirs : list string) : list string :=
  flat_map (fun d => map path (files_in all_git_files d)) simplified_dirs.

(** What the simplifier's loop maintains, [visited] being the items of
    [dir_files] already read. *)
Definition simplify_invariant (all_git_files : list FileEntry)
  (visited : list (string * list FileEntry))
  (st : list string * list string) : Prop :=
  let '(simplified_files, simplified_dirs) := st in
  (forall p, In p (simplified_files ++ expand_dirs all_git_files simplified_dirs)
             <-> exists it, In it visited /\ In p (map path (snd it)))
  /\ ~ In "." simplified_dirs
  /\ (forall it, In it visited -> fst it = "." ->
                 incl (map path (snd it)) simplified_files).

(** Reading a trace of [main]. *)
Definition is_push (e : Event) : bool :=
  match e with Push _ => true | _ => false end.

(** How many times the push operation was invoked. *)
Definition pushes (evs : list Event) : nat := List.length (filter is_push evs).

(** The batch an event belongs to. *)
Definition batch_of (e : Event) : option Z :=
  match e with
  | BatchStart i | InBatch i _ | BatchOk i | BatchFailed i => Some i
  | Push _ | Cleanup _ => None
  end.

(** Batch [j] was attempted: something of it is in the trace. *)
Definition attempted (j : Z) (evs : list Event) : Prop :=
  exists e, In e evs /\ batch_of e = Some j.

(** A staging or commit command that did not end normally. *)
Definition failed_cmd (c : Cmd) : bool :=
  match c with
  | GitAdd _ Done | GitCommit _ Done => false
  | GitAdd _ _ | GitCommit _ _ => true
  | _ => false
  end.

(** Staging or committing batch [i] failed. *)
Definition stage_or_commit_failed (i : Z) (evs : list Event) : Prop :=
  exists c, In (InBatch i c) evs /\ failed_cmd c = true.

(** ** A world to run the program in

    Files are an association list from path to text; [writable] says
    whether creating a file succeeds; the [n]-th staging command fails
    when [n = fail_add_at] and the [n]-th commit when
    [n = fail_commit_at] (counting from 1; 0 means never). *)
Record TestWorld : Type := mkWorld {
  tw_files : list (string * string);
  tw_writable : bool;
  tw_adds : nat;
  tw_commits : nat;
  fail_add_at : nat;
  fail_commit_at : nat
}.

Fixpoint assoc (p : string) (l : list (string * string)) : option string :=
  match l with
  | [] => None
  | (q, t) :: r => if String.eqb p q then Some t else assoc p r
  end.

Definition test_os : OS TestWorld := {|
  read_text := fun p _ w =>
    match assoc p (tw_files w) with
    | Some t => ReadOk t
    | None => ReadError
    end;
  write_text := fun p t w =>
    if tw_writable w
    then Some (mkWorld ((p, t) :: tw_files w) (tw_writable w) (tw_adds w)
                       (tw_commits w) (fail_add_at w) (fail_commit_at w))
    else None;
  path_exists := fun p w =>
    match assoc p (tw_files w) with Some _ => true | None => false end;
  os_remove := fun p w =>
    mkWorld (filter (fun e => negb (String.eqb p (fst e))) (tw_files w))
            (tw_writable w) (tw_adds w) (tw_commits w)
            (fail_add_at w) (fail_commit_at w);
  run_git_add := fun _ w =>
    let n := S (tw_adds w) in
    ((if Nat.eqb n (fail_add_at w) then CalledProcessError else Done),
     mkWorld (tw_files w) (tw_writable w) n (tw_commits w)
             (fail_add_at w) (fail_commit_at w));
  run_git_commit := fun _ w =>
    let n := S (tw_commits w) in
    ((if Nat.eqb n (fail_commit_at w) then CalledProcessError else Done),
     mkWorld (tw_files w) (tw_writable w) (tw_adds w) n
             (fail_add_at w) (fail_commit_at w));
  run_git_push := fun w => (Done, w)
|}.

(** A template ["commit-info.txt"] holding ["fix"] and a newline. *)
Definition template_world (writable : bool) (fail_add fail_commit : nat)
  : TestWorld :=
  mkWorld [("commit-info.txt", "fix" ++ nl)%string] writable 0 0
          fail_add fail_commit.

(** The entry recorded for a pending path that is not a directory. *)
Definition status_entry (root : list (string * Node)) (filename : string)
  : FileEntry :=
  let file_path := resolve filename in
  mkFile (rel_str file_path)
         (match lookup file_path (Directory root) with
          | Some (RegularFile st_size) => st_size
          | _ => 0
          end)
         (dir_of_parent (removelast file_path)).

(** Whether a pending path is an existing directory. *)
Definition is_dir (root : list (string * Node)) (filename : string) : bool :=
  match lookup (resolve filename) (Directory root) with
  | Some (Directory _) => true
  | _ => false
  end.

(** Whether a pending path is an existing regular file. *)
Definition is_file (root : list (string * Node)) (filename : string) : bool :=
  match lookup (resolve filename) (Directory root) with
  | Some (RegularFile _) => true
  | _ => false
  end.

(** A working tree with an untracked directory holding one file. *)
Definition tree_with_new_dir : list (string * Node) :=
  [("newdir", Directory [("big.bin", RegularFile 7)])].

(** ** Scenarios of the specification *)

Definition MiB : Z := 1024 * 1024.

(** Scenario A: one directory, three files, 10 MiB in all. *)
Definition scenario_A : list FileEntry :=
  [ mkFile "docs/a" (3 * MiB) "docs"; mkFile "docs/b" (3 * MiB) "docs";
    mkFile "docs/c" (4 * MiB) "docs" ].

(** Scenario B: one directory with files of 60, 60, 5, 5 and 5 MiB. *)
Definition scenario_B : list FileEntry :=
  [ mkFile "data/a" (5 * MiB) "data"; mkFile "data/b" (60 * MiB) "data";
    mkFile "data/c" (5 * MiB) "data"; mkFile "data/d" (60 * MiB) "data";
    mkFile "data/e" (5 * MiB) "data" ].

(** Scenario E: three directories, hence three batches. *)
Definition scenario_E : list FileEntry :=
  [ mkFile "a/x" 1 "a"; mkFile "b/y" 2 "b"; mkFile "c/z" 3 "c" ].

(** ** Further vocabulary *)

(** [R] holds between every element of a list and its successor. *)
Fixpoint adjacent {A} (R : A -> A -> Prop) (l : list A) : Prop :=
  match l with
  | a :: t => match t with
              | b :: _ => R a b /\ adjacent R t
              | [] => True
              end
  | [] => True
  end.

(** Batch [b2] could not have been merged into [b1]: the first file of
    [b2] on top of [b1] exceeds the budget. *)
Definition overflows (max_batch_size : Z) (b1 b2 : Batch) : Prop :=
  exists g rest, b2 = g :: rest /\ max_batch_size < total_size b1 + size g.

(** Two batches hold entries of a common directory. *)
Definition share_dir (b1 b2 : Batch) : Prop :=
  exists f g, In f b1 /\ In g b2 /\ dir f = dir g.

(** All the bytes of a plan. *)
Definition plan_size (batches : list Batch) : Z :=
  fold_right (fun b acc => total_size b + acc) 0 batches.

(** Directory [d] of the batch is replaced by its token: it is not the
    root and the batch holds the paths of all its accepted entries. *)
Definition is_token (batch_files all_git_files : list FileEntry)
  (d : string) : bool :=
  negb (String.eqb d ".")
  && set_eqb (map path (files_in batch_files d))
             (map path (files_in all_git_files d)).

(** Chunk [c2] could not have been merged into [c1]: its first token on
    top of the command of [c1] exceeds the limit. *)
Definition chunk_overflows (max_command_length : Z) (c1 c2 : list string)
  : Prop :=
  exists t rest, c2 = t :: rest
                 /\ max_command_length < command_length c1 + file_length t.

(** The chunks once the current one is closed. *)
Definition close_chunk (batches : list (list string))
  (current_batch : list string) : list (list string) :=
  if Py.truthy current_batch then batches ++ [current_batch] else batches.

(** What the grouping loop maintains about neighbouring chunks. *)
Definition chunk_tight_invariant (max_command_length : Z)
  (visited : list string) (st : list (list string) * list string * Z)
  : Prop :=
  let '(batches, current_batch, current_length) := st in
  current_length = tokens_length current_batch
  /\ (current_batch = [] -> batches = [])
  /\ adjacent (chunk_overflows max_command_length)
              (close_chunk batches current_batch).

(** The tokens of the staging commands that ended normally, in order. *)
Definition staged (cmds : list Cmd) : list string :=
  flat_map (fun c => match c with
                     | GitAdd paths Done => paths
                     | _ => []
                     end) cmds.

(** The commit commands that were run, with their outcomes. *)
Definition commits (cmds : list Cmd) : list (string * Outcome) :=
  flat_map (fun c => match c with
                     | GitCommit message_file r => [(message_file, r)]
                     | _ => []
                     end) cmds.

(** The file a command writes, tries to write, or removes. *)
Definition touched (c : Cmd) : option string :=
  match c with
  | WriteTemp p _ | WriteTempFailed p | RemoveTemp p => Some p
  | _ => None
  end.

(** The file an event of a run writes, tries to write, or removes. *)
Definition touched_path (e : Event) : option string :=
  match e with
  | InBatch _ c => touched c
  | Cleanup p => Some p
  | _ => None
  end.

(** The commands of batch [i] in a trace. *)
Definition cmds_of (i : Z) (evs : list Event) : list Cmd :=
  flat_map (fun e => match e with
                     | InBatch j c => if j =? i then [c] else []
                     | _ => []
                     end) evs.

(** The batches started, in order. *)
Definition starts (evs : list Event) : list Z :=
  flat_map (fun e => match e with BatchStart i => [i] | _ => [] end) evs.

(** The batches reported successful, in order. *)
Definition oks (evs : list Event) : list Z :=
  flat_map (fun e => match e with BatchOk i => [i] | _ => [] end) evs.

(** [i, i+1, ..., i+k-1] *)
Fixpoint zseq (i : Z) (k : nat) : list Z :=
  match k with
  | O => []
  | S k' => i :: zseq (i + 1) k'
  end.

(** The tokens [execute_git_add_commit] stages for a batch:
    [simplified_files + simplified_dirs]. *)
Definition all_paths_of (files : list FileEntry) (repo_path : string)
  (all_git_files : list FileEntry) : list string :=
  let '(simplified_files, simplified_dirs) :=
    simplify_batch_files files repo_path all_git_files in
  simplified_files ++ simplified_dirs.

(** ** Locating the repository: [find_git_repo]

    An absolute path is the list of its components below the file
    system root, which is [[]]; the parent of the root is the root.
    [has_git p] is [(p / ".git").exists()].  The walk goes from the
    deepest component upwards, so it recurses on the reversed path. *)

Fixpoint walk_up (has_git : list string -> bool) (rev_current : list string)
  : option (list string) :=
  match rev_current with
  | [] => None
  | _ :: rev_parent =>
      if has_git (rev rev_current) then Some (rev rev_current)
      else walk_up has_git rev_parent
  end.

(** [start] is [Path(".").resolve()]. *)
Definition find_git_repo (has_git : list string -> bool)
  (start : list string) : option (list string) :=
  walk_up has_git (rev start).

(** ** Walking a directory tree *)

(** [reaches d comps st_size]: below directory [d], the components
    [comps] lead to a regular file of size [st_size] without entering a
    directory named [.git]. *)
Inductive reaches : Node -> list string -> Z -> Prop :=
| reach_file (entries : list (string * Node)) (name : string) (st_size : Z) :
    In (name, RegularFile st_size) entries ->
    reaches (Directory entries) [name] st_size
| reach_dir (entries sub : list (string * Node)) (name : string)
    (comps : list string) (st_size : Z) :
    In (name, Directory sub) entries ->
    name <> ".git" ->
    reaches (Directory sub) comps st_size ->
    reaches (Directory entries) (name :: comps) st_size.

(** The entry recorded for the file reached by [comps] below the
    directory of relative path [rel]. *)
Definition entry_at (rel comps : list string) (st_size : Z) : FileEntry :=
  mkFile (rel_str (rel ++ comps)) st_size
         (dir_of_parent (rel ++ removelast comps)).

(** What one item of [iterdir] contributes. *)
Definition item_files (rel : list string) (it : string * Node)
  : list FileEntry :=
  match snd it with
  | RegularFile st_size =>
      [mkFile (rel_str (rel ++ [fst it])) st_size (dir_of_parent rel)]
  | Directory _ =>
      if negb (String.eqb (fst it) ".git")
      then get_files_from_directory (rel ++ [fst it]) (snd it)
      else []
  | Special => []
  end.

(** Induction on trees, with the hypothesis for every child. *)
Fixpoint Node_tree_ind (P : Node -> Prop)
  (Hfile : forall st_size, P (RegularFile st_size))
  (Hdir : forall entries, Forall (fun it => P (snd it)) entries ->
                          P (Directory entries))
  (Hspecial : P Special) (n : Node) : P n :=
  match n with
  | RegularFile st_size => Hfile st_size
  | Directory entries =>
      Hdir entries
        ((fix children (l : list (string * Node))
            : Forall (fun it => P (snd it)) l :=
            match l with
            | [] => Forall_nil _
            | it :: rest =>
                Forall_cons it
                  (Node_tree_ind P Hfile Hdir Hspecial (snd it))
                  (children rest)
            end) entries)
  | Special => Hspecial
  end.

(** ** Reading the status output: the head of the loop of
    [get_git_status_files] *)

(** [s.split(sep)] for a one-character separator. *)
Fixpoint split_char (sep : ascii) (s : string) : list string :=
  match s with
  | EmptyString => [EmptyString]
  | String c r =>
      if Ascii.eqb c sep then EmptyString :: split_char sep r
      else match split_char sep r with
           | [] => [String c EmptyString]
           | h :: t => String c h :: t
           end
  end.

Definition cons_word (w : string) (ws : list string) : list string :=
  match w with
  | EmptyString => ws
  | _ => w :: ws
  end.

(** The word in progress at the head of [s], and the words after it. *)
Fixpoint words (s : string) : string * list string :=
  match s with
  | EmptyString => (EmptyString, [])
  | String c r =>
      let '(w, ws) := words r in
      if is_space c then (EmptyString, cons_word w ws)
      else (String c w, ws)
  end.

(** [s.split()]: the maximal runs of characters that are not
    whitespace. *)
Definition split_ws (s : string) : list string :=
  let '(w, ws) := words s in cons_word w ws.

Fixpoint lstrip_by (p : ascii -> bool) (s : string) : string :=
  match s with
  | EmptyString => EmptyString
  | String c r => if p c then lstrip_by p r else s
  end.

(** [s.strip(chars)], [p] telling the characters of [chars]. *)
Definition strip_by (p : ascii -> bool) (s : string) : string :=
  rev_string (lstrip_by p (rev_string (lstrip_by p s))).

(** The double quote, character 34. *)
Definition is_quote (c : ascii) : bool := Ascii.eqb c (ascii_of_nat 34).

(** What follows the first ["->"] of [s]:
    [s[s.find("->") + 2:]] when ["->" in s]. *)
Fixpoint after_arrow (s : string) : option string :=
  match s with
  | EmptyString => None
  | String c r =>
      match r with
      | EmptyString => None
      | String d r' =>
          if Ascii.eqb c "-"%char && Ascii.eqb d ">"%char then Some r'
          else after_arrow r
      end
  end.

(** The file name read off one line of the status output, or [None]
    where the loop goes on to the next line. *)
Definition parse_status_line (line : string) : option string :=
  if String.eqb (strip line) "" then None
  else
    let parts := split_ws line in
    if (List.length parts <? 2)%nat then None
    else
      let filename := strip_by is_quote (String.concat " " (tl parts)) in
      match after_arrow line with
      | Some rest => Some (strip_by is_quote (strip rest))
      | None => Some filename
      end.

(** The file names read off [result.stdout]. *)
Definition status_filenames (stdout : string) : list string :=
  flat_map (fun line => match parse_status_line line with
                        | Some filename => [filename]
                        | None => []
                        end)
           (split_char (ascii_of_nat 10) (strip stdout)).

(** [get_git_status_files] from the output of the status command. *)
Definition get_git_status_files_of_output (root : list (string * Node))
  (stdout : string) : list FileEntry :=
  get_git_status_files root (status_filenames stdout).

(** The characters of a string. *)
Definition chars (s : string) : list ascii := list_ascii_of_string s.

Definition all_space (s : string) : bool := forallb is_space (chars s).

Definition no_space (s : string) : bool :=
  forallb (fun c => negb (is_space c)) (chars s).

Definition no_quote (s : string) : bool :=
  forallb (fun c => negb (is_quote c)) (chars s).

(** All characters are in the ASCII range, where [is_space] is exactly
    [str.isspace]. *)
Definition ascii_only (s : string) : bool :=
  forallb (fun c => (nat_of_ascii c <? 128)%nat) (chars s).

(** * Properties *)

(** ** Python containers *)

Section DictFacts.

Context {V : Type} (dflt : V).

Lemma get_update (f : V -> V) (k q : string) (d : Py.dict V) :
  Py.get dflt q (Py.update dflt f k d)
  = if String.eqb k q then f (Py.get dflt q d) else Py.get dflt q d.
Proof.
  induction d as [|[k' v] d IH]; simpl.
  - rewrite (String.eqb_sym q k). destruct (String.eqb k q); reflexivity.
  - destruct (String.eqb k k') eqn:Ekk'; simpl.
    + apply String.eqb_eq in Ekk'. subst k'.
      rewrite (String.eqb_sym q k). destruct (String.eqb k q); reflexivity.
    + rewrite IH. destruct (String.eqb q k') eqn:Eqk'.
      * apply String.eqb_eq in Eqk'. subst k'. rewrite Ekk'. reflexivity.
      * reflexivity.
Qed.

Lemma keys_update (f : V -> V) (k : string) (d : Py.dict V) :
  Py.keys (Py.update dflt f k d)
  = if existsb (String.eqb k) (Py.keys d) then Py.keys d
    else Py.keys d ++ [k].
Proof.
  induction d as [|[k' v] d IH]; simpl; [reflexivity|].
  destruct (String.eqb k k') eqn:E; simpl; [reflexivity|].
  fold (Py.keys d). fold (Py.keys (Py.update dflt f k d)). rewrite IH.
  destruct (existsb (String.eqb k) (Py.keys d)); reflexivity.
Qed.

End DictFacts.

Section SortFacts.

Context {A : Type} (key : A -> Z).

Lemma insert_asc_perm (x : A) (l : list A) :
  Permutation (Py.insert_asc key x l) (x :: l).
Proof.
  induction l as [|y l IH]; simpl; [reflexivity|].
  destruct (key x <=? key y); [reflexivity|].
  rewrite IH. apply perm_swap.
Qed.

Lemma sorted_perm (l : list A) : Permutation (Py.sorted key l) l.
Proof.
  induction l as [|x l IH]; simpl; [reflexivity|].
  rewrite insert_asc_perm. now constructor.
Qed.

Lemma insert_desc_perm (x : A) (l : list A) :
  Permutation (Py.insert_desc key x l) (x :: l).
Proof.
  induction l as [|y l IH]; simpl; [reflexivity|].
  destruct (key y <=? key x); [reflexivity|].
  rewrite IH. apply perm_swap.
Qed.

Lemma sorted_rev_perm (l : list A) : Permutation (Py.sorted_rev key l) l.
Proof.
  induction l as [|x l IH]; simpl; [reflexivity|].
  rewrite insert_desc_perm. now constructor.
Qed.

Local Abbreviation asc := (ascending key).
Local Abbreviation desc := (descending key).

Lemma insert_asc_sorted (x : A) (l : list A) :
  StronglySorted asc l -> StronglySorted asc (Py.insert_asc key x l).
Proof.
  induction 1 as [|y l Hs IH Hy]; simpl.
  - repeat constructor.
  - destruct (key x <=? key y) eqn:E.
    + apply Z.leb_le in E. constructor.
      * now constructor.
      * constructor; [exact E|].
        eapply Forall_impl; [|exact Hy]. unfold ascending. intros; lia.
    + apply Z.leb_gt in E. constructor; [exact IH|].
      eapply Permutation_Forall; [symmetry; apply insert_asc_perm|].
      constructor; [unfold ascending; lia | exact Hy].
Qed.

Lemma sorted_sorted (l : list A) : StronglySorted asc (Py.sorted key l).
Proof.
  induction l; simpl; [constructor | now apply insert_asc_sorted].
Qed.

Lemma insert_desc_sorted (x : A) (l : list A) :
  StronglySorted desc l -> StronglySorted desc (Py.insert_desc key x l).
Proof.
  induction 1 as [|y l Hs IH Hy]; simpl.
  - repeat constructor.
  - destruct (key y <=? key x) eqn:E.
    + apply Z.leb_le in E. constructor.
      * now constructor.
      * constructor; [exact E|].
        eapply Forall_impl; [|exact Hy]. unfold descending. intros; lia.
    + apply Z.leb_gt in E. constructor; [exact IH|].
      eapply Permutation_Forall; [symmetry; apply insert_desc_perm|].
      constructor; [unfold descending; lia | exact Hy].
Qed.

Lemma sorted_rev_sorted (l : list A) :
  StronglySorted desc (Py.sorted_rev key l).
Proof.
  induction l; simpl; [constructor | now apply insert_desc_sorted].
Qed.

Lemma filter_sorted (R : A -> A -> Prop) (p : A -> bool) (l : list A) :
  StronglySorted R l -> StronglySorted R (filter p l).
Proof.
  induction 1 as [|y l Hs IH Hy]; simpl; [constructor|].
  destruct (p y); [|exact IH].
  constructor; [exact IH|].
  rewrite Forall_forall in *. intros z Hz.
  apply filter_In in Hz. now apply Hy.
Qed.

End SortFacts.

Lemma sorted_ext {A} (k1 k2 : A -> Z) (l : list A) :
  (forall x, k1 x = k2 x) -> Py.sorted k1 l = Py.sorted k2 l.
Proof.
  intros H. induction l as [|x l IH]; simpl; [reflexivity|].
  rewrite IH. generalize (Py.sorted k2 l). intros m.
  induction m as [|y m IHm]; simpl; [reflexivity|].
  rewrite !H, IHm. reflexivity.
Qed.

Lemma sorted_rev_ext {A} (k1 k2 : A -> Z) (l : list A) :
  (forall x, k1 x = k2 x) -> Py.sorted_rev k1 l = Py.sorted_rev k2 l.
Proof.
  intros H. induction l as [|x l IH]; simpl; [reflexivity|].
  rewrite IH. generalize (Py.sorted_rev k2 l). intros m.
  induction m as [|y m IHm]; simpl; [reflexivity|].
  rewrite !H, IHm. reflexivity.
Qed.

(** ** Directory aggregator *)

Lemma total_size_app (a b : list FileEntry) :
  total_size (a ++ b) = total_size a + total_size b.
Proof.
  unfold total_size. induction a as [|x a IH]; simpl; [reflexivity|].
  rewrite IH. lia.
Qed.

Lemma organize_snoc (git_files : list FileEntry) (f : FileEntry) :
  organize_files_by_directory (git_files ++ [f])
  = organize_step (organize_files_by_directory git_files) f.
Proof.
  unfold organize_files_by_directory. now rewrite fold_left_app.
Qed.

Lemma files_in_snoc (git_files : list FileEntry) (f : FileEntry) (d : string) :
  files_in (git_files ++ [f]) d
  = files_in git_files d ++ (if String.eqb (dir f) d then [f] else []).
Proof.
  unfold files_in. rewrite filter_app. simpl.
  destruct (String.eqb (dir f) d); reflexivity.
Qed.

Lemma organize_files (git_files : list FileEntry) (d : string) :
  Py.get [] d (fst (organize_files_by_directory git_files))
  = files_in git_files d.
Proof.
  induction git_files as [|f l IH] using rev_ind; [reflexivity|].
  rewrite organize_snoc, files_in_snoc.
  destruct (organize_files_by_directory l) as [df ds]. simpl in *.
  rewrite get_update, IH.
  destruct (String.eqb (dir f) d); [reflexivity | now rewrite app_nil_r].
Qed.

Lemma organize_sizes (git_files : list FileEntry) (d : string) :
  Py.get 0 d (snd (organize_files_by_directory git_files))
  = dir_total git_files d.
Proof.
  unfold dir_total.
  induction git_files as [|f l IH] using rev_ind; [reflexivity|].
  rewrite organize_snoc, files_in_snoc.
  destruct (organize_files_by_directory l) as [df ds]. simpl in *.
  rewrite get_update, IH, total_size_app.
  destruct (String.eqb (dir f) d); simpl; lia.
Qed.

Lemma dirs_of_snoc (git_files : list FileEntry) (f : FileEntry) :
  dirs_of (git_files ++ [f])
  = if existsb (String.eqb (dir f)) (dirs_of git_files)
    then dirs_of git_files else dirs_of git_files ++ [dir f].
Proof.
  unfold dirs_of. rewrite organize_snoc.
  destruct (organize_files_by_directory git_files) as [df ds]. simpl.
  apply keys_update.
Qed.

Lemma existsb_eqb_In (k : string) (l : list string) :
  existsb (String.eqb k) l = true <-> In k l.
Proof.
  rewrite existsb_exists. split.
  - intros [x [Hx E]]. apply String.eqb_eq in E. now subst.
  - intros H. exists k. split; [exact H | apply String.eqb_refl].
Qed.

Lemma dirs_of_NoDup (git_files : list FileEntry) : NoDup (dirs_of git_files).
Proof.
  induction git_files as [|f l IH] using rev_ind; [constructor|].
  rewrite dirs_of_snoc.
  destruct (existsb (String.eqb (dir f)) (dirs_of l)) eqn:E; [exact IH|].
  apply NoDup_rev in IH. rewrite <- (rev_involutive (_ ++ _)).
  apply NoDup_rev. rewrite rev_app_distr. simpl. constructor; [|exact IH].
  rewrite <- in_rev. intros H. apply existsb_eqb_In in H. congruence.
Qed.

Lemma dirs_of_In (git_files : list FileEntry) (d : string) :
  In d (dirs_of git_files) <-> exists f, In f git_files /\ dir f = d.
Proof.
  induction git_files as [|f l IH] using rev_ind.
  - simpl. split; [tauto | intros [f [[] _]]].
  - rewrite dirs_of_snoc.
    destruct (existsb (String.eqb (dir f)) (dirs_of l)) eqn:E.
    + rewrite IH. split.
      * intros [g [Hg Hd]]. exists g. split; [apply in_or_app; now left | exact Hd].
      * intros [g [Hg Hd]]. apply in_app_or in Hg. destruct Hg as [Hg|[->|[]]].
        -- now exists g.
        -- apply IH. apply existsb_eqb_In in E. now subst.
    + rewrite in_app_iff, IH. simpl. split.
      * intros [[g [Hg Hd]]|[<-|[]]].
        -- exists g. split; [apply in_or_app; now left | exact Hd].
        -- exists f. split; [apply in_or_app; right; now left | reflexivity].
      * intros [g [Hg Hd]]. apply in_app_or in Hg. destruct Hg as [Hg|[->|[]]].
        -- left. now exists g.
        -- right. now left.
Qed.

(** ** Batch planner *)

Section Planner.

Variable max_batch_size : Z.

Lemma remove_middle (d : string) (a s : list string) :
  ~ In d a -> Py.remove d (a ++ d :: s) = a ++ s.
Proof.
  induction a as [|x a IH]; simpl; intros H.
  - now rewrite String.eqb_refl.
  - destruct (String.eqb d x) eqn:E.
    + apply String.eqb_eq in E. subst. tauto.
    + rewrite IH; [reflexivity | tauto].
Qed.

(** The first loop emits the within-budget directories in iteration
    order and leaves the others, in order, in [sorted_dirs]. *)
Lemma phase1_loop (dir_files : Py.dict (list FileEntry))
  (dir_sizes : Py.dict Z) (s a : list string) (batches : list Batch) :
  let small := fun d => Py.get 0 d dir_sizes <=? max_batch_size in
  Forall (fun d => small d = false) a ->
  fold_left (phase1_step max_batch_size dir_files dir_sizes) s
            (batches, a ++ s)
  = (batches ++ map (fun d => Py.get [] d dir_files) (filter small s),
     a ++ filter (fun d => negb (small d)) s).
Proof.
  intros small. revert a batches.
  induction s as [|d s IH]; intros a batches Ha; simpl.
  - now rewrite !app_nil_r.
  - fold (small d). destruct (small d) eqn:E; simpl.
    + rewrite remove_middle.
      * rewrite IH by exact Ha. now rewrite <- app_assoc.
      * intros Hin. rewrite Forall_forall in Ha. apply Ha in Hin. congruence.
    + replace (a ++ d :: s) with ((a ++ [d]) ++ s) by now rewrite <- app_assoc.
      rewrite IH.
      * now rewrite <- app_assoc.
      * apply Forall_app. split; [exact Ha | now repeat constructor].
Qed.

(** The innermost loop followed by the final flush is greedy fill. *)
Lemma fill_loop (files : list FileEntry) (batches : list Batch)
  (current : Batch) (current_size : Z) :
  flush (fold_left (fill_step max_batch_size) files
           (batches, current, current_size))
  = batches ++ greedy_from max_batch_size current current_size files.
Proof.
  revert batches current current_size.
  induction files as [|f files IH]; intros batches current current_size; simpl.
  - destruct (Py.truthy current); [reflexivity | now rewrite app_nil_r].
  - destruct (current_size + size f <=? max_batch_size).
    + apply IH.
    + rewrite IH. destruct (Py.truthy current); simpl.
      * now rewrite <- app_assoc.
      * reflexivity.
Qed.

Lemma phase2_step_fill (dir_files : Py.dict (list FileEntry))
  (batches : list Batch) (d : string) :
  phase2_step max_batch_size dir_files batches d
  = batches ++ greedy_fill max_batch_size
                 (Py.sorted_rev size (Py.get [] d dir_files)).
Proof.
  unfold phase2_step, greedy_fill. rewrite <- fill_loop.
  destruct (fold_left _ _ _) as [[b c] s]. reflexivity.
Qed.

Lemma phase2_loop (dir_files : Py.dict (list FileEntry))
  (dirs : list string) (batches : list Batch) :
  fold_left (phase2_step max_batch_size dir_files) dirs batches
  = batches ++ flat_map (fun d => greedy_fill max_batch_size
                           (Py.sorted_rev size (Py.get [] d dir_files))) dirs.
Proof.
  revert batches. induction dirs as [|d dirs IH]; intros batches; simpl.
  - now rewrite app_nil_r.
  - rewrite IH, phase2_step_fill. now rewrite <- app_assoc.
Qed.

(** The plan, in closed form. *)
Lemma create_batches_shape (git_files : list FileEntry) :
  create_batches git_files max_batch_size
  = map (files_in git_files) (small_dirs git_files max_batch_size)
    ++ flat_map (fun d => greedy_fill max_batch_size
                            (Py.sorted_rev size (files_in git_files d)))
                (big_dirs git_files max_batch_size).
Proof.
  unfold create_batches, small_dirs, big_dirs, dirs_of.
  destruct git_files as [|f0 l]; [reflexivity|].
  set (fs := f0 :: l). simpl negb. cbv iota.
  pose proof (organize_files fs) as Hf. pose proof (organize_sizes fs) as Hs.
  destruct (organize_files_by_directory fs) as [dir_files dir_sizes].
  simpl in Hf, Hs. simpl snd.
  rewrite (sorted_ext (fun d => Py.get 0 d dir_sizes) (dir_total fs)) by exact Hs.
  set (sd := Py.sorted (dir_total fs) (Py.keys dir_sizes)).
  pose proof (phase1_loop dir_files dir_sizes sd [] []) as H1.
  simpl in H1. rewrite H1 by constructor. clear H1.
  rewrite (sorted_rev_ext (fun d => Py.get 0 d dir_sizes) (dir_total fs))
    by exact Hs.
  rewrite phase2_loop.
  f_equal.
  - rewrite (filter_ext _ (fun d => dir_total fs d <=? max_batch_size))
      by (intros; now rewrite Hs).
    apply map_ext. exact Hf.
  - rewrite (filter_ext (fun d => negb (Py.get 0 d dir_sizes <=? max_batch_size))
                        (fun d => negb (dir_total fs d <=? max_batch_size)))
      by (intros; now rewrite Hs).
    apply flat_map_ext. intros d. now rewrite Hf.
Qed.

End Planner.

Section GreedyFill.

Variable max_batch_size : Z.

Lemma greedy_concat (files : list FileEntry) (current : Batch) (s : Z) :
  List.concat (greedy_from max_batch_size current s files) = current ++ files.
Proof.
  revert current s. induction files as [|f files IH]; intros current s; simpl.
  - destruct current; simpl; [reflexivity | now rewrite !app_nil_r].
  - destruct (s + size f <=? max_batch_size).
    + rewrite IH. now rewrite <- app_assoc.
    + rewrite concat_app, IH.
      destruct current; simpl; [reflexivity | now rewrite app_nil_r].
Qed.

Lemma greedy_nonempty (files : list FileEntry) (current : Batch) (s : Z) :
  Forall (fun b => b <> []) (greedy_from max_batch_size current s files).
Proof.
  revert current s. induction files as [|f files IH]; intros current s; simpl.
  - destruct current; simpl; repeat constructor. discriminate.
  - destruct (s + size f <=? max_batch_size); [apply IH|].
    apply Forall_app. split; [|apply IH].
    destruct current; simpl; repeat constructor. discriminate.
Qed.

Lemma greedy_budget (files : list FileEntry) (current : Batch) (s : Z) :
  s = total_size current ->
  current = [] \/ within_budget max_batch_size current ->
  Forall (within_budget max_batch_size)
         (greedy_from max_batch_size current s files).
Proof.
  revert current s.
  induction files as [|f files IH]; intros current s Hs Hc; simpl.
  - destruct current; simpl; [constructor|].
    constructor; [|constructor].
    destruct Hc as [Hc|Hc]; [discriminate | exact Hc].
  - destruct (s + size f <=? max_batch_size) eqn:E.
    + apply Z.leb_le in E. apply IH.
      * rewrite total_size_app. simpl. lia.
      * right. left. rewrite total_size_app. simpl. lia.
    + apply Forall_app. split.
      * destruct current; simpl; [constructor|].
        constructor; [|constructor].
    destruct Hc as [Hc|Hc]; [discriminate | exact Hc].
      * apply IH; [simpl; lia|]. right.
        destruct (Z_le_gt_dec (size f) max_batch_size) as [Hle|Hgt].
        -- left. simpl. lia.
        -- right. exists f. split; [reflexivity | lia].
Qed.

End GreedyFill.

(** ** Grouping by directory loses and repeats nothing *)

Lemma flat_map_unmarked {A} (k : string) (x : A) (F : string -> list A)
  (ks : list string) :
  ~ In k ks ->
  flat_map (fun d => if String.eqb k d then x :: F d else F d) ks
  = flat_map F ks.
Proof.
  induction ks as [|d ks IH]; intros Hk; simpl; [reflexivity|].
  destruct (String.eqb k d) eqn:E.
  - apply String.eqb_eq in E. subst d. exfalso. apply Hk. now left.
  - rewrite IH; [reflexivity|]. intros H. apply Hk. now right.
Qed.

Lemma flat_map_mark {A} (k : string) (x : A) (F : string -> list A)
  (ks : list string) :
  NoDup ks -> In k ks ->
  Permutation
    (flat_map (fun d => if String.eqb k d then x :: F d else F d) ks)
    (x :: flat_map F ks).
Proof.
  induction ks as [|d ks IH]; intros Hnd Hin; [destruct Hin|].
  inversion Hnd as [|? ? Hd Hks]; subst. simpl.
  destruct (String.eqb k d) eqn:E.
  - apply String.eqb_eq in E. subst d. simpl. constructor.
    apply Permutation_app_head.
    rewrite flat_map_unmarked by exact Hd. reflexivity.
  - destruct Hin as [->|Hin]; [now rewrite String.eqb_refl in E|].
    rewrite IH by assumption. symmetry. apply Permutation_middle.
Qed.

Lemma flat_map_files_in (git_files : list FileEntry) (ks : list string) :
  NoDup ks -> (forall f, In f git_files -> In (dir f) ks) ->
  Permutation (flat_map (files_in git_files) ks) git_files.
Proof.
  intros Hnd. induction git_files as [|x l IH]; intros Hin.
  - clear Hnd Hin. induction ks; simpl; [constructor | assumption].
  - rewrite (flat_map_ext _
      (fun d => if String.eqb (dir x) d then x :: files_in l d
                else files_in l d)).
    + rewrite flat_map_mark; [|exact Hnd | apply Hin; now left].
      constructor. apply IH. intros f Hf. apply Hin. now right.
    + intros d. unfold files_in. simpl.
      destruct (String.eqb (dir x) d); reflexivity.
Qed.

Lemma filter_split_perm {A} (p : A -> bool) (l : list A) :
  Permutation (filter p l ++ filter (fun x => negb (p x)) l) l.
Proof.
  induction l as [|x l IH]; simpl; [constructor|].
  destruct (p x); simpl.
  - now constructor.
  - rewrite <- Permutation_middle. now constructor.
Qed.

Lemma plan_dirs_perm (git_files : list FileEntry) (max_batch_size : Z) :
  Permutation (small_dirs git_files max_batch_size
               ++ big_dirs git_files max_batch_size)
              (dirs_of git_files).
Proof.
  unfold small_dirs, big_dirs.
  rewrite sorted_rev_perm, filter_split_perm. apply sorted_perm.
Qed.

Lemma concat_flat_map {A B} (g : A -> list (list B)) (l : list A) :
  List.concat (flat_map g l) = flat_map (fun a => List.concat (g a)) l.
Proof.
  induction l as [|a l IH]; simpl; [reflexivity|].
  now rewrite concat_app, IH.
Qed.

Lemma flat_map_perm_pointwise {A B} (f g : A -> list B) (l : list A) :
  (forall a, Permutation (f a) (g a)) ->
  Permutation (flat_map f l) (flat_map g l).
Proof.
  intros H. induction l as [|a l IH]; simpl; [constructor|].
  now apply Permutation_app.
Qed.

(** The batches of the plan, concatenated, are the input rearranged. *)
Lemma plan_concat_perm (git_files : list FileEntry) (max_batch_size : Z) :
  Permutation (List.concat (create_batches git_files max_batch_size)) git_files.
Proof.
  rewrite create_batches_shape, concat_app. unfold Batch.
  rewrite concat_flat_map, <- flat_map_concat_map.
  rewrite (flat_map_perm_pointwise _ (files_in git_files)
             (big_dirs git_files max_batch_size)).
  - rewrite <- flat_map_app.
    rewrite (Permutation_flat_map _ (plan_dirs_perm git_files max_batch_size)).
    apply flat_map_files_in; [apply dirs_of_NoDup|].
    intros f Hf. apply dirs_of_In. now exists f.
  - intros d. unfold greedy_fill. rewrite greedy_concat. simpl.
    apply sorted_rev_perm.
Qed.

Lemma plan_member (git_files : list FileEntry) (max_batch_size : Z)
  (f : FileEntry) :
  In f git_files
  <-> exists b, In b (create_batches git_files max_batch_size) /\ In f b.
Proof.
  rewrite <- (Permutation_in' (eq_refl f)
                (plan_concat_perm git_files max_batch_size)).
  rewrite in_concat. split; intros [b Hb]; exists b; tauto.
Qed.

Lemma files_in_total (git_files : list FileEntry) (d : string) :
  total_size (files_in git_files d) = dir_total git_files d.
Proof. reflexivity. Qed.

Lemma small_dirs_spec (git_files : list FileEntry) (max_batch_size : Z)
  (d : string) :
  In d (small_dirs git_files max_batch_size)
  <-> In d (dirs_of git_files) /\ dir_total git_files d <= max_batch_size.
Proof.
  unfold small_dirs. rewrite filter_In, Z.leb_le.
  split; intros [H1 H2]; split; try exact H2.
  - eapply Permutation_in; [apply sorted_perm | exact H1].
  - eapply Permutation_in; [symmetry; apply sorted_perm | exact H1].
Qed.

Lemma big_dirs_spec (git_files : list FileEntry) (max_batch_size : Z)
  (d : string) :
  In d (big_dirs git_files max_batch_size)
  <-> In d (dirs_of git_files) /\ max_batch_size < dir_total git_files d.
Proof.
  unfold big_dirs.
  rewrite (Permutation_in' (eq_refl d) (sorted_rev_perm _ _)).
  rewrite filter_In, negb_true_iff, Z.leb_gt.
  split; intros [H1 H2]; split; try exact H2.
  - eapply Permutation_in; [apply sorted_perm | exact H1].
  - eapply Permutation_in; [symmetry; apply sorted_perm | exact H1].
Qed.

Lemma plan_budget (git_files : list FileEntry) (max_batch_size : Z) :
  Forall (within_budget max_batch_size)
         (create_batches git_files max_batch_size).
Proof.
  rewrite create_batches_shape. apply Forall_app. split.
  - rewrite Forall_forall. intros b Hb. apply in_map_iff in Hb.
    destruct Hb as [d [<- Hd]]. apply small_dirs_spec in Hd.
    left. rewrite files_in_total. tauto.
  - rewrite Forall_forall. intros b Hb. apply in_flat_map in Hb.
    destruct Hb as [d [_ Hb]]. revert b Hb. apply Forall_forall.
    apply greedy_budget; [reflexivity | now left].
Qed.

Lemma plan_nonempty (git_files : list FileEntry) (max_batch_size : Z) :
  Forall (fun b => b <> []) (create_batches git_files max_batch_size).
Proof.
  rewrite create_batches_shape. apply Forall_app. split.
  - rewrite Forall_forall. intros b Hb. apply in_map_iff in Hb.
    destruct Hb as [d [<- Hd]]. apply small_dirs_spec in Hd.
    destruct Hd as [Hd _]. apply dirs_of_In in Hd.
    destruct Hd as [f [Hf Hdir]].
    assert (In f (files_in git_files d)) as Hin.
    { apply filter_In. split; [exact Hf | now apply String.eqb_eq]. }
    intros E. rewrite E in Hin. destruct Hin.
  - rewrite Forall_forall. intros b Hb. apply in_flat_map in Hb.
    destruct Hb as [d [_ Hb]]. revert b Hb. apply Forall_forall.
    apply greedy_nonempty.
Qed.

(** *** What the plan guarantees *)

(** C1.  The batches of the plan partition the input: concatenated, they
    are a rearrangement of [git_files], so that every entry is in the
    plan as many times as it was given; an entry is in some batch
    exactly when it is in the input; and when the input entries are
    distinct no entry is met twice in the plan, neither in two batches
    nor twice in one.  This holds for every [max_batch_size], positive
    or not. *)
Theorem create_batches_partition (git_files : list FileEntry)
  (max_batch_size : Z) :
  Permutation (List.concat (create_batches git_files max_batch_size))
              git_files
  /\ (forall f, In f git_files
        <-> exists b, In b (create_batches git_files max_batch_size)
                      /\ In f b)
  /\ (NoDup git_files ->
      NoDup (List.concat (create_batches git_files max_batch_size))).
Proof.
  split; [apply plan_concat_perm|].
  split; [intros f; apply plan_member|].
  apply Permutation_NoDup. symmetry. apply plan_concat_perm.
Qed.

(** C2.  Every batch of the plan has aggregate size at most
    [max_batch_size], or is exactly one file whose own size exceeds
    it. *)
Theorem create_batches_budget (git_files : list FileEntry)
  (max_batch_size : Z) :
  Forall (fun b => total_size b <= max_batch_size
                   \/ exists f, b = [f] /\ max_batch_size < size f)
         (create_batches git_files max_batch_size).
Proof. exact (plan_budget git_files max_batch_size). Qed.

(** C8.  The plan is the Phase-1 batches followed by the Phase-2
    batches.  Phase 1 is one batch per within-budget directory, holding
    all of that directory's files, the directories in ascending order of
    aggregate size.  Phase 2 takes the over-budget directories in
    descending order of aggregate size and gives each the batches of
    the greedy fill of its files, taken in descending order of size.
    Every directory of the input is in exactly one of the phases. *)
Theorem create_batches_order (git_files : list FileEntry)
  (max_batch_size : Z) :
  exists small big : list string,
    create_batches git_files max_batch_size
    = map (files_in git_files) small
      ++ flat_map (fun d => greedy_fill max_batch_size
                              (Py.sorted_rev size (files_in git_files d)))
                  big
    /\ StronglySorted (ascending (dir_total git_files)) small
    /\ Forall (fun d => dir_total git_files d <= max_batch_size) small
    /\ StronglySorted (descending (dir_total git_files)) big
    /\ Forall (fun d => max_batch_size < dir_total git_files d) big
    /\ (forall d, StronglySorted (descending size)
                    (Py.sorted_rev size (files_in git_files d))
                  /\ Permutation (Py.sorted_rev size (files_in git_files d))
                                 (files_in git_files d))
    /\ Permutation (small ++ big) (dirs_of git_files)
    /\ NoDup (dirs_of git_files)
    /\ (forall d, In d (dirs_of git_files)
                  <-> exists f, In f git_files /\ dir f = d).
Proof.
  exists (small_dirs git_files max_batch_size),
         (big_dirs git_files max_batch_size).
  split; [apply create_batches_shape|].
  split; [apply filter_sorted, sorted_sorted|].
  split; [rewrite Forall_forall; intros d Hd;
          apply small_dirs_spec in Hd; tauto|].
  split; [apply sorted_rev_sorted|].
  split; [rewrite Forall_forall; intros d Hd;
          apply big_dirs_spec in Hd; tauto|].
  split; [intros d; split; [apply sorted_rev_sorted | apply sorted_rev_perm]|].
  split; [apply plan_dirs_perm|].
  split; [apply dirs_of_NoDup | apply dirs_of_In].
Qed.

(** ** Loops as folds *)

(** Induction over a [for] loop: [P] relates the items already visited
    to the loop state. *)
Lemma fold_left_invariant {A S} (step : S -> A -> S)
  (P : list A -> S -> Prop) (l : list A) (s0 : S) :
  P [] s0 ->
  (forall pre x s, P pre s -> P (pre ++ [x]) (step s x)) ->
  P l (fold_left step l s0).
Proof.
  intros H0 Hstep. induction l as [|x l IH] using rev_ind; [exact H0|].
  rewrite fold_left_app. simpl. now apply Hstep.
Qed.

(** ** Command chunker *)

Section Chunker.

Variable max_command_length : Z.

Lemma tokens_length_app (a b : list string) :
  tokens_length (a ++ b) = tokens_length a + tokens_length b.
Proof.
  unfold tokens_length. induction a as [|x a IH]; simpl; [reflexivity|].
  rewrite IH. lia.
Qed.

Lemma tokens_length_one (t : string) : tokens_length [t] = file_length t.
Proof. unfold tokens_length. simpl. lia. Qed.

Lemma chunk_fits_one (t : string) : chunk_fits max_command_length [t].
Proof.
  unfold chunk_fits.
  destruct (Z_le_gt_dec (command_length [t]) max_command_length) as [H|H].
  - now left.
  - right. exists t. split; [reflexivity | lia].
Qed.

Lemma close_chunk_fits (batches : list (list string)) (current : list string) :
  Forall (chunk_fits max_command_length) batches ->
  current = [] \/ chunk_fits max_command_length current ->
  Forall (chunk_fits max_command_length)
         (if Py.truthy current then batches ++ [current] else batches).
Proof.
  intros Hb Hc. destruct current as [|c current]; simpl; [exact Hb|].
  apply Forall_app. split; [exact Hb|]. constructor; [|constructor].
  destruct Hc as [Hc|Hc]; [discriminate | exact Hc].
Qed.

Lemma close_chunk_nonempty (batches : list (list string))
  (current : list string) :
  Forall (fun c => c <> []) batches ->
  Forall (fun c => c <> [])
         (if Py.truthy current then batches ++ [current] else batches).
Proof.
  intros Hb. destruct current as [|c current]; simpl; [exact Hb|].
  apply Forall_app. split; [exact Hb|].
  constructor; [discriminate | constructor].
Qed.

Lemma close_chunk_concat (batches : list (list string))
  (current : list string) :
  List.concat (if Py.truthy current then batches ++ [current] else batches)
  = List.concat batches ++ current.
Proof.
  destruct current as [|c current]; simpl; [now rewrite app_nil_r|].
  rewrite concat_app. simpl. now rewrite app_nil_r.
Qed.

Lemma chunk_step_invariant (visited : list string) (t : string)
  (st : list (list string) * list string * Z) :
  chunk_invariant max_command_length visited st ->
  chunk_invariant max_command_length (visited ++ [t])
                  (chunk_step max_command_length st t).
Proof.
  destruct st as [[batches current] n]. unfold chunk_invariant, chunk_step.
  intros (Hcat & Hn & Hb & Hc & Hne).
  destruct (max_command_length <? n + file_length t + base_command_length)
    eqn:E.
  - split; [now rewrite close_chunk_concat, Hcat|].
    split; [now rewrite tokens_length_one|].
    split; [now apply close_chunk_fits|].
    split; [right; apply chunk_fits_one | now apply close_chunk_nonempty].
  - apply Z.ltb_ge in E.
    split; [now rewrite app_assoc, Hcat|].
    split; [rewrite tokens_length_app, tokens_length_one; lia|].
    split; [exact Hb|].
    split; [|exact Hne].
    right. left. unfold command_length.
    rewrite tokens_length_app, tokens_length_one. lia.
Qed.

Lemma add_chunks_invariant (file_paths : list string) :
  List.concat (add_chunks file_paths max_command_length) = file_paths
  /\ Forall (chunk_fits max_command_length)
            (add_chunks file_paths max_command_length)
  /\ Forall (fun c => c <> []) (add_chunks file_paths max_command_length).
Proof.
  unfold add_chunks. destruct file_paths as [|p0 l]; simpl negb; cbv iota.
  - split; [reflexivity | split; constructor].
  - set (ps := p0 :: l).
    pose proof (fold_left_invariant (chunk_step max_command_length)
                  (chunk_invariant max_command_length) ps ([], [], 0)) as H.
    destruct (fold_left _ ps _) as [[batches current] n].
    destruct H as (Hcat & Hn & Hb & Hc & Hne).
    + simpl. split; [reflexivity|]. split; [reflexivity|].
      split; [constructor|]. split; [now left | constructor].
    + intros pre x s. apply chunk_step_invariant.
    + split; [now rewrite close_chunk_concat|].
      split; [now apply close_chunk_fits | now apply close_chunk_nonempty].
Qed.

End Chunker.

(** C5.  The chunks formed by [batch_git_add_files] concatenate, in
    order, to the input list; and for every chunk the length of the
    command prefix plus the lengths of its tokens, each counted with
    one separator, is at most [max_command_length], unless the chunk is
    a single token that alone exceeds the limit.  This holds for every
    [max_command_length], positive or not. *)
Theorem batch_git_add_files_chunks (file_paths : list string)
  (max_command_length : Z) :
  List.concat (add_chunks file_paths max_command_length) = file_paths
  /\ Forall (fun chunk =>
               command_length chunk <= max_command_length
               \/ exists t, chunk = [t]
                            /\ max_command_length < command_length [t])
            (add_chunks file_paths max_command_length).
Proof.
  destruct (add_chunks_invariant max_command_length file_paths)
    as (H1 & H2 & _).
  split; [exact H1 | exact H2].
Qed.

(** ** Size filter *)

Lemma filter_loop (git_files : list FileEntry) :
  fold_left filter_step git_files ([], [])
  = (filter (fun f => size f <=? max_file_size) git_files,
     map path (filter (fun f => max_file_size <? size f) git_files)).
Proof.
  apply (fold_left_invariant filter_step
           (fun visited st =>
              st = (filter (fun f => size f <=? max_file_size) visited,
                    map path (filter (fun f => max_file_size <? size f)
                                     visited)))).
  - reflexivity.
  - intros pre x st ->. unfold filter_step.
    rewrite !filter_app, map_app. simpl.
    destruct (max_file_size <? size x) eqn:E.
    + apply Z.ltb_lt in E. apply Z.leb_gt in E. rewrite E. simpl.
      now rewrite app_nil_r.
    + apply Z.ltb_ge in E. apply Z.leb_le in E. rewrite E. simpl.
      now rewrite app_nil_r.
Qed.

Lemma get_git_files_filter (repo_path : string) (discovered : list FileEntry) :
  get_git_files (Some repo_path) (fun _ => discovered)
  = (filter (fun f => size f <=? max_file_size) discovered,
     (if Py.truthy discovered then Some repo_path else None),
     map path (filter (fun f => max_file_size <? size f) discovered)).
Proof.
  unfold get_git_files. destruct discovered as [|f l]; [reflexivity|].
  simpl negb. cbv iota. now rewrite filter_loop.
Qed.

(** C6.  Of the discovered entries, exactly those of size at most
    50 MiB are accepted, in their order; the paths reported as skipped
    are exactly those of the entries of size above 50 MiB; and no
    entry above 50 MiB is in any batch planned from the accepted
    entries, whatever the batch budget. *)
Theorem size_filter_partition (repo_path : string)
  (discovered : list FileEntry) :
  let '(accepted, _, skipped) :=
    get_git_files (Some repo_path) (fun _ => discovered) in
  (forall f, In f accepted
             <-> In f discovered /\ size f <= 50 * 1024 * 1024)
  /\ (forall p, In p skipped
                <-> exists f, In f discovered /\ path f = p
                              /\ 50 * 1024 * 1024 < size f)
  /\ accepted = filter (fun f => negb (50 * 1024 * 1024 <? size f)) discovered
  /\ skipped = map path (filter (fun f => 50 * 1024 * 1024 <? size f)
                                discovered)
  /\ (forall f max_batch_size b,
        In f discovered -> 50 * 1024 * 1024 < size f ->
        In b (create_batches accepted max_batch_size) -> ~ In f b).
Proof.
  rewrite get_git_files_filter. fold max_file_size.
  split; [|split; [|split; [|split]]].
  - intros f. rewrite filter_In, Z.leb_le. reflexivity.
  - intros p. rewrite in_map_iff. split.
    + intros [f [Hp Hf]]. apply filter_In in Hf. rewrite Z.ltb_lt in Hf.
      exists f. tauto.
    + intros [f [Hf [Hp Hs]]]. exists f. split; [exact Hp|].
      apply filter_In. rewrite Z.ltb_lt. tauto.
  - apply filter_ext. intros f.
    destruct (Z.leb_spec (size f) max_file_size),
             (Z.ltb_spec max_file_size (size f)); simpl; (reflexivity || lia).
  - reflexivity.
  - intros f max_batch_size b _ Hs Hb Hin.
    assert (In f (filter (fun f => size f <=? max_file_size) discovered)) as H.
    { apply (plan_member _ max_batch_size). now exists b. }
    apply filter_In in H. rewrite Z.leb_le in H. lia.
Qed.

(** ** Batch simplifier *)

Lemma group_is_organize (batch_files : list FileEntry) :
  fold_left group_step batch_files []
  = fst (organize_files_by_directory batch_files).
Proof.
  induction batch_files as [|f l IH] using rev_ind; [reflexivity|].
  rewrite fold_left_app, organize_snoc, IH. simpl.
  destruct (organize_files_by_directory l). reflexivity.
Qed.

Lemma organize_keys (git_files : list FileEntry) :
  Py.keys (fst (organize_files_by_directory git_files)) = dirs_of git_files.
Proof.
  induction git_files as [|f l IH] using rev_ind; [reflexivity|].
  rewrite dirs_of_snoc, <- IH, organize_snoc.
  destruct (organize_files_by_directory l). simpl. apply keys_update.
Qed.

Lemma dict_items {V} (dflt : V) (d : Py.dict V) :
  NoDup (Py.keys d) ->
  d = map (fun k => (k, Py.get dflt k d)) (Py.keys d).
Proof.
  induction d as [|[k v] d IH]; intros Hnd; [reflexivity|].
  simpl in Hnd. inversion Hnd as [|? ? Hk Hd]; subst.
  simpl. rewrite String.eqb_refl. f_equal.
  rewrite IH at 1 by exact Hd. apply map_ext_in. intros q Hq.
  destruct (String.eqb q k) eqn:E; [|reflexivity].
  apply String.eqb_eq in E. subst. contradiction.
Qed.

Lemma organize_items (git_files : list FileEntry) :
  fst (organize_files_by_directory git_files)
  = map (fun d => (d, files_in git_files d)) (dirs_of git_files).
Proof.
  rewrite (dict_items [] (fst (organize_files_by_directory git_files))) at 1.
  - rewrite organize_keys. apply map_ext. intros d.
    now rewrite organize_files.
  - rewrite organize_keys. apply dirs_of_NoDup.
Qed.

Lemma set_eqb_In (a b : list string) :
  set_eqb a b = true -> forall p, In p a <-> In p b.
Proof.
  unfold set_eqb. rewrite andb_true_iff, !forallb_forall.
  intros [Hab Hba] p. split; intros H.
  - apply existsb_eqb_In. now apply Hab.
  - apply existsb_eqb_In. now apply Hba.
Qed.

Section Simplifier.

Variable all_git_files : list FileEntry.

Lemma simplify_step_invariant
  (visited : list (string * list FileEntry))
  (item : string * list FileEntry) (st : list string * list string) :
  simplify_invariant all_git_files visited st ->
  simplify_invariant all_git_files (visited ++ [item])
    (simplify_step (fst (organize_files_by_directory all_git_files)) st item).
Proof.
  destruct st as [sf sd]. destruct item as [d files].
  unfold simplify_invariant, simplify_step, expand_dirs.
  intros (Hiff & Hdot & Hroot).
  assert (forall p, (exists it, In it (visited ++ [(d, files)])
                                /\ In p (map path (snd it)))
                    <-> (exists it, In it visited /\ In p (map path (snd it)))
                        \/ In p (map path files)) as Hsplit.
  { intros p. split.
    - intros [it [Hit Hp]]. apply in_app_or in Hit.
      destruct Hit as [Hit|[<-|[]]]; [left; now exists it | now right].
    - intros [[it [Hit Hp]]|Hp].
      + exists it. split; [apply in_or_app; now left | exact Hp].
      + exists (d, files). split; [apply in_or_app; right; now left | exact Hp]. }
  assert (forall p, In p ((sf ++ map path files)
                          ++ flat_map (fun d => map path (files_in all_git_files d)) sd)
                    <-> (exists it, In it (visited ++ [(d, files)])
                                    /\ In p (map path (snd it)))) as Hlisted.
  { intros p. rewrite Hsplit, <- Hiff, !in_app_iff. tauto. }
  assert (forall it, In it (visited ++ [(d, files)]) -> fst it = "." ->
                     incl (map path (snd it)) (sf ++ map path files))
    as Hroot_listed.
  { intros it Hit Hfst. apply in_app_or in Hit. destruct Hit as [Hit|[<-|[]]].
    - intros p Hp. apply in_or_app. left. now apply (Hroot it).
    - intros p Hp. apply in_or_app. now right. }
  destruct (String.eqb d ".") eqn:Ed.
  - split; [exact Hlisted | split; [exact Hdot | exact Hroot_listed]].
  - unfold Py.get_or. rewrite organize_files.
    destruct (set_eqb (map path files)
                      (map path (files_in all_git_files d))) eqn:Eset.
    + split; [|split].
      * intros p. rewrite Hsplit, <- Hiff, !in_app_iff, flat_map_app, in_app_iff.
        simpl. rewrite app_nil_r, (set_eqb_In _ _ Eset p). tauto.
      * rewrite in_app_iff. intros [H|[H|[]]]; [contradiction|].
        subst d. now rewrite String.eqb_refl in Ed.
      * intros it Hit Hfst. apply in_app_or in Hit.
        destruct Hit as [Hit|[<-|[]]]; [now apply Hroot|].
        simpl in Hfst. subst d. now rewrite String.eqb_refl in Ed.
    + split; [exact Hlisted | split; [exact Hdot | exact Hroot_listed]].
Qed.

Lemma simplify_loop (items : list (string * list FileEntry)) :
  simplify_invariant all_git_files items
    (fold_left (simplify_step (fst (organize_files_by_directory all_git_files)))
               items ([], [])).
Proof.
  apply (fold_left_invariant _ (simplify_invariant all_git_files)).
  - unfold simplify_invariant, expand_dirs. simpl.
    split; [|split; [tauto | intros it []]].
    intros p. split; [intros [] | intros [it [[] _]]].
  - intros pre x s. apply simplify_step_invariant.
Qed.

End Simplifier.

(** C4.  Replacing each emitted directory token by the paths of all of
    that directory's entries in [all_git_files], and joining the result
    with the emitted file paths, gives exactly the set of paths of the
    batch; ["."] is never emitted as a directory token and the path of
    every batch entry whose directory is ["."] is among the emitted
    file paths.  This holds for every batch, in particular for one
    whose entries are among [all_git_files]. *)
Theorem simplify_batch_files_sound (batch_files : list FileEntry)
  (repo_path : string) (all_git_files : list FileEntry) :
  let '(simplified_files, simplified_dirs) :=
    simplify_batch_files batch_files repo_path all_git_files in
  (forall p,
     In p (simplified_files ++ expand_dirs all_git_files simplified_dirs)
     <-> In p (map path batch_files))
  /\ ~ In "." simplified_dirs
  /\ (forall f, In f batch_files -> dir f = "." ->
                In (path f) simplified_files).
Proof.
  unfold simplify_batch_files. rewrite group_is_organize.
  pose proof (simplify_loop all_git_files
                (fst (organize_files_by_directory batch_files))) as H.
  destruct (organize_files_by_directory all_git_files) as [all_dir_files x].
  simpl fst in H.
  destruct (fold_left _ _ _) as [sf sd].
  destruct H as (Hiff & Hdot & Hroot). unfold expand_dirs in Hiff.
  rewrite organize_items in Hiff, Hroot.
  split; [|split; [exact Hdot|]].
  - intros p. rewrite Hiff. split.
    + intros [it [Hit Hp]]. apply in_map_iff in Hit.
      destruct Hit as [d [<- Hd]]. simpl in Hp.
      apply in_map_iff in Hp. destruct Hp as [f [<- Hf]].
      apply in_map. apply filter_In in Hf. tauto.
    + intros Hp. apply in_map_iff in Hp. destruct Hp as [f [<- Hf]].
      exists (dir f, files_in batch_files (dir f)). split.
      * apply in_map_iff. exists (dir f). split; [reflexivity|].
        apply dirs_of_In. now exists f.
      * simpl. apply in_map. apply filter_In.
        split; [exact Hf | apply String.eqb_refl].
  - intros f Hf Hd.
    apply (Hroot (".", files_in batch_files ".")).
    + apply in_map_iff. exists ".". split; [reflexivity|].
      apply dirs_of_In. now exists f.
    + reflexivity.
    + simpl. apply in_map. apply filter_In.
      split; [exact Hf | now apply String.eqb_eq].
Qed.

(** ** Execution pipeline *)

Section Pipeline.

Context {W : Type} (os : OS W).

Lemma message_cmds (commit_info_file : string) (i n : Z) (w : W) :
  Forall (fun c => failed_cmd c = false /\ c <> NoFiles)
         (snd (fst (create_commit_message_file os commit_info_file i n w))).
Proof.
  unfold create_commit_message_file.
  destruct (read_template os commit_info_file w); [|constructor].
  destruct (n =? 1); [constructor|].
  destruct (write_text os _ _ w); simpl;
    (constructor; [split; [reflexivity | discriminate] | constructor]).
Qed.

Lemma run_chunks_cmds (batches : list (list string)) (w : W) :
  Forall (fun c => c <> NoFiles) (snd (fst (run_chunks os batches w)))
  /\ (fst (fst (run_chunks os batches w)) = Returned true ->
      Forall (fun c => failed_cmd c = false)
             (snd (fst (run_chunks os batches w)))).
Proof.
  revert w. induction batches as [|b rest IH]; intros w; simpl.
  - split; constructor.
  - destruct (run_git_add os b w) as [[| |] w1].
    + specialize (IH w1). destruct (run_chunks os rest w1) as [[r evs] w2].
      simpl in *. destruct IH as [IH1 IH2]. split.
      * constructor; [discriminate | exact IH1].
      * intros Hr. constructor; [reflexivity | now apply IH2].
    + simpl. split; [|discriminate].
      constructor; [discriminate | constructor].
    + simpl. split; [|discriminate].
      constructor; [discriminate | constructor].
Qed.

Lemma try_add_commit_cmds (all_paths : list string)
  (temp_commit_file repo_path : string) (w : W) :
  Forall (fun c => c <> NoFiles)
         (snd (fst (try_add_commit os all_paths temp_commit_file repo_path w)))
  /\ (fst (fst (try_add_commit os all_paths temp_commit_file repo_path w))
      = true ->
      Forall (fun c => failed_cmd c = false)
        (snd (fst (try_add_commit os all_paths temp_commit_file repo_path w)))).
Proof.
  unfold try_add_commit, batch_git_add_files.
  pose proof (run_chunks_cmds
                (add_chunks all_paths default_max_command_length) w) as [H1 H2].
  destruct (run_chunks os _ w) as [[[[|]|] evs] w1]; simpl in *.
  - destruct (run_git_commit os temp_commit_file w1) as [[| |] w2]; simpl.
    + split.
      * apply Forall_app. split; [exact H1|].
        constructor; [discriminate | constructor].
      * intros _. apply Forall_app. split; [now apply H2|].
        constructor; [reflexivity | constructor].
    + split; [|discriminate]. apply Forall_app. split; [exact H1|].
      constructor; [discriminate | constructor].
    + split; [|discriminate]. apply Forall_app. split; [exact H1|].
      constructor; [discriminate | constructor].
  - split; [exact H1 | discriminate].
  - split; [exact H1 | discriminate].
Qed.

Lemma finally_cmds (temp_commit_file commit_info_file : string) (w : W) :
  Forall (fun c => failed_cmd c = false /\ c <> NoFiles)
         (fst (finally_remove os temp_commit_file commit_info_file w)).
Proof.
  unfold finally_remove.
  destruct (negb _ && _); simpl; [|constructor].
  constructor; [split; [reflexivity | discriminate] | constructor].
Qed.

(** A batch that reports success ran no failing command; a non-empty
    batch never takes the "no files" exit. *)
Lemma execute_cmds (files : list FileEntry)
  (commit_info_file repo_path : string) (all_git_files : list FileEntry)
  (i n : Z) (w : W) :
  let '(r, cmds, _) :=
    execute_git_add_commit os files commit_info_file repo_path
      all_git_files i n w in
  (r = Returned true -> Forall (fun c => failed_cmd c = false) cmds)
  /\ (files <> [] -> ~ In NoFiles cmds).
Proof.
  unfold execute_git_add_commit.
  destruct files as [|f0 fl]; simpl negb; cbv iota.
  - split; [discriminate | congruence].
  - set (files := f0 :: fl).
    pose proof (message_cmds commit_info_file i n w) as Hm.
    destruct (create_commit_message_file os commit_info_file i n w)
      as [[[[temp msg]|] evs0] w0]; simpl in Hm.
    + destruct (simplify_batch_files files repo_path all_git_files)
        as [sf sd].
      pose proof (try_add_commit_cmds (sf ++ sd) temp repo_path w0) as [Ht1 Ht2].
      destruct (try_add_commit os (sf ++ sd) temp repo_path w0)
        as [[success evs1] w1]; simpl in Ht1, Ht2.
      pose proof (finally_cmds temp commit_info_file w1) as Hf.
      destruct (finally_remove os temp commit_info_file w1) as [evs2 w2].
      simpl in Hf. split.
      * intros Hr. assert (success = true) as Hs by congruence.
        apply Forall_app. split; [|apply Forall_app; split].
        -- eapply Forall_impl; [|exact Hm]. simpl. tauto.
        -- now apply Ht2.
        -- eapply Forall_impl; [|exact Hf]. simpl. tauto.
      * intros _ Hin. rewrite !in_app_iff in Hin.
        rewrite Forall_forall in Hm, Ht1, Hf.
        destruct Hin as [H|[H|H]].
        -- now apply (Hm _ H).
        -- now apply (Ht1 _ H).
        -- now apply (Hf _ H).
    + split; [discriminate|]. intros _ Hin.
      rewrite Forall_forall in Hm. now apply (Hm _ Hin).
Qed.

End Pipeline.

Section PipelineLoop.

Context {W : Type} (os : OS W).

Variables (commit_info_file repo_path : string) (git_files : list FileEntry).
Variable total_batches : Z.

Lemma in_batch_events (i : Z) (cmds : list Cmd) (tail : list Event)
  (e : Event) :
  In e (BatchStart i :: map (InBatch i) cmds ++ tail)
  <-> e = BatchStart i \/ (exists c, In c cmds /\ e = InBatch i c)
      \/ In e tail.
Proof.
  simpl. rewrite in_app_iff, in_map_iff. split.
  - intros [H|[[c [H1 H2]]|H]]; [now left | | now right; right].
    right. left. exists c. now split.
  - intros [H|[[c [H1 H2]]|H]]; [now left | | now right; right].
    right. left. exists c. now split.
Qed.

(** The loop over the plan, started at index [i] with [succ] successes
    so far: the trace holds only events of batches [i .. i+len-1]; a
    staging or commit failure of batch [j] is the last thing attempted
    and leaves the success count short; the count is complete exactly
    when every batch reported success. *)
Lemma run_batches_spec (batches : list Batch) (i succ : Z) (w : W) :
  let '(r, evs, _) :=
    run_batches os batches i commit_info_file repo_path git_files
      total_batches succ w in
  let n := Z.of_nat (List.length batches) in
  (forall e, In e evs -> exists j, batch_of e = Some j /\ i <= j < i + n)
  /\ (forall j, stage_or_commit_failed j evs ->
        (forall k, attempted k evs -> k <= j) /\ r <> Returned (succ + n))
  /\ (r = Returned (succ + n)
      <-> forall j, i <= j < i + n -> In (BatchOk j) evs)
  /\ (Forall (fun b => b <> []) batches ->
      forall j, ~ In (InBatch j NoFiles) evs).
Proof.
  revert i succ w. induction batches as [|b rest IH]; intros i succ w.
  - simpl. split; [intros e []|]. split; [intros j [c [[] _]]|].
    split; [|intros _ j []].
    split; [intros _ j Hj; lia | intros _; f_equal; lia].
  - cbn [run_batches].
    pose proof (execute_cmds os b commit_info_file repo_path git_files
                  i total_batches w) as Hexec.
    destruct (execute_git_add_commit os b commit_info_file repo_path
                git_files i total_batches w) as [[[[|]|] cmds] w1].
    + (* the batch succeeded *)
      destruct Hexec as [Hok Hnf]. specialize (Hok eq_refl).
      rewrite Forall_forall in Hok.
      specialize (IH (i + 1) (succ + 1) w1).
      destruct (run_batches os rest (i + 1) commit_info_file repo_path
                  git_files total_batches (succ + 1) w1) as [[r evs] w2].
      cbv zeta in IH. destruct IH as (IH1 & IH2 & IH3 & IH4).
      cbv zeta. cbn [List.length]. rewrite Nat2Z.inj_succ.
      set (n := Z.of_nat (List.length rest)) in *.
      assert (forall e, In e (BatchStart i :: map (InBatch i) cmds
                                ++ BatchOk i :: evs)
                <-> e = BatchStart i \/ (exists c, In c cmds /\ e = InBatch i c)
                    \/ e = BatchOk i \/ In e evs) as Hin.
      { intros e. rewrite in_batch_events. simpl.
        split; intros [H|[H|[H|H]]]; auto. }
      split; [|split; [|split]].
      * intros e He. apply Hin in He.
        destruct He as [->|[[c [_ ->]]|[->|He]]];
          try (exists i; simpl; split; [reflexivity | lia]).
        destruct (IH1 e He) as [j [Hj Hr]]. exists j. split; [exact Hj | lia].
      * intros j [c [Hc Hfail]]. apply Hin in Hc.
        destruct Hc as [Hc|[[c' [Hc' Hc]]|[Hc|Hc]]]; try discriminate.
        { inversion Hc; subst. rewrite (Hok _ Hc') in Hfail. discriminate. }
        assert (stage_or_commit_failed j evs) as Hj by (now exists c).
        destruct (IH1 _ Hc) as [j' [Hj' Hr]]. simpl in Hj'.
        inversion Hj'; subst j'.
        destruct (IH2 j Hj) as [Hlast Hshort]. split.
        -- intros k [e [He Hk]]. apply Hin in He.
           destruct He as [->|[[c0 [_ ->]]|[->|He]]];
             try (simpl in Hk; inversion Hk; lia).
           apply Hlast. now exists e.
        -- intros Hr'. apply Hshort. rewrite Hr'. f_equal. lia.
      * split.
        -- intros Hr j Hj. apply Hin.
           destruct (Z.eq_dec j i) as [->|Hne]; [now right; right; left|].
           right. right. right. apply IH3; [rewrite Hr; f_equal; lia | lia].
        -- intros Hall.
           assert (r = Returned (succ + 1 + n)) as ->; [|f_equal; lia].
           apply IH3. intros j Hj.
           assert (In (BatchOk j) (BatchStart i :: map (InBatch i) cmds
                                     ++ BatchOk i :: evs)) as H
             by (apply Hall; lia).
           apply Hin in H.
           destruct H as [H|[[c [_ H]]|[H|H]]]; try discriminate; [|exact H].
           inversion H. lia.
      * intros Hne j Hj. inversion Hne as [|? ? Hb Hrest]; subst.
        apply Hin in Hj.
        destruct Hj as [Hj|[[c [Hc Hj]]|[Hj|Hj]]]; try discriminate.
        -- inversion Hj; subst. now apply Hnf.
        -- now apply (IH4 Hrest j).
    + (* the batch failed: the loop breaks *)
      destruct Hexec as [_ Hnf].
      cbv zeta. cbn [List.length]. rewrite Nat2Z.inj_succ.
      set (n := Z.of_nat (List.length rest)).
      assert (0 <= n) as Hn by apply Nat2Z.is_nonneg.
      assert (forall e, In e (BatchStart i :: map (InBatch i) cmds
                                ++ [BatchFailed i])
                -> batch_of e = Some i /\ e <> BatchOk i) as Hin.
      { intros e He. apply in_batch_events in He.
        destruct He as [->|[[c [_ ->]]|[<-|[]]]];
          (split; [reflexivity | discriminate]). }
      split; [|split; [|split]].
      * intros e He. exists i. split; [now apply Hin | lia].
      * intros j [c [Hc _]]. apply Hin in Hc. destruct Hc as [Hc _].
        simpl in Hc. inversion Hc; subst j. split.
        -- intros k [e [He Hk]]. apply Hin in He. destruct He as [He _].
           rewrite He in Hk. inversion Hk. lia.
        -- intros Hr. inversion Hr. lia.
      * split; [intros Hr; inversion Hr; lia|].
        intros Hall. exfalso.
        assert (In (BatchOk i) (BatchStart i :: map (InBatch i) cmds
                                  ++ [BatchFailed i])) as H
          by (apply Hall; lia).
        apply Hin in H. now destruct H as [_ H].
      * intros Hne j Hj. inversion Hne as [|? ? Hb Hrest]; subst.
        apply in_batch_events in Hj.
        destruct Hj as [Hj|[[c [Hc Hj]]|[Hj|[]]]]; try discriminate.
        inversion Hj; subst. now apply Hnf.
    + (* an exception escaped the batch *)
      destruct Hexec as [_ Hnf].
      cbv zeta. cbn [List.length]. rewrite Nat2Z.inj_succ.
      set (n := Z.of_nat (List.length rest)).
      assert (0 <= n) as Hn by apply Nat2Z.is_nonneg.
      assert (forall e, In e (BatchStart i :: map (InBatch i) cmds)
                -> batch_of e = Some i /\ e <> BatchOk i) as Hin.
      { intros e He. rewrite <- (app_nil_r (map _ _)) in He.
        apply in_batch_events in He.
        destruct He as [->|[[c [_ ->]]|[]]];
          (split; [reflexivity | discriminate]). }
      split; [|split; [|split]].
      * intros e He. exists i. split; [now apply Hin | lia].
      * intros j [c [Hc _]]. apply Hin in Hc. destruct Hc as [Hc _].
        simpl in Hc. inversion Hc; subst j. split.
        -- intros k [e [He Hk]]. apply Hin in He. destruct He as [He _].
           rewrite He in Hk. inversion Hk. lia.
        -- discriminate.
      * split; [discriminate|].
        intros Hall. exfalso.
        assert (In (BatchOk i) (BatchStart i :: map (InBatch i) cmds)) as H
          by (apply Hall; lia).
        apply Hin in H. now destruct H as [_ H].
      * intros Hne j Hj. inversion Hne as [|? ? Hb Hrest]; subst.
        rewrite <- (app_nil_r (map _ _)) in Hj.
        apply in_batch_events in Hj.
        destruct Hj as [Hj|[[c [Hc Hj]]|[]]]; try discriminate.
        inversion Hj; subst. now apply Hnf.
Qed.

End PipelineLoop.

Lemma pushes_app (a b : list Event) :
  pushes (a ++ b) = (pushes a + pushes b)%nat.
Proof. unfold pushes. now rewrite filter_app, length_app. Qed.

Lemma pushes_none (evs : list Event) :
  (forall e, In e evs -> is_push e = false) -> pushes evs = 0%nat.
Proof.
  unfold pushes. induction evs as [|e evs IH]; intros H; [reflexivity|].
  simpl. rewrite (H e) by now left. apply IH. intros x Hx. apply H. now right.
Qed.

Section PipelineRun.

Context {W : Type} (os : OS W).

Lemma cleanup_events (commit_info_file : string) (count : nat) (i : Z)
  (w : W) (e : Event) :
  In e (fst (cleanup_loop os commit_info_file i count w)) ->
  exists p, e = Cleanup p.
Proof.
  revert i w. induction count as [|count IH]; intros i w; simpl; [tauto|].
  destruct (path_exists os _ w).
  - specialize (IH (i + 1) (os_remove os (temp_path commit_info_file i) w)).
    destruct (cleanup_loop os commit_info_file (i + 1) count _) as [evs2 w2].
    simpl in *. intros [<-|H]; [now eexists | now apply IH].
  - specialize (IH (i + 1) w).
    destruct (cleanup_loop os commit_info_file (i + 1) count w) as [evs2 w2].
    simpl in *. exact IH.
Qed.

(** Whatever follows the loop in the trace belongs to no batch. *)
Lemma trailer_events (repo_path commit_info_file : string) (n : Z)
  (push : bool) (w : W) (e : Event) :
  In e ((if push then snd (fst (execute_git_push os repo_path w)) else [])
        ++ fst (cleanup_temp_files os commit_info_file n
                  (if push then snd (execute_git_push os repo_path w) else w))) ->
  batch_of e = None.
Proof.
  intros H. apply in_app_or in H. destruct H as [H|H].
  - destruct push; [|destruct H]. unfold execute_git_push in H.
    destruct (run_git_push os w) as [[| |] w1]; simpl in H;
      destruct H as [<-|[]]; reflexivity.
  - apply cleanup_events in H. destruct H as [p ->]. reflexivity.
Qed.

Lemma trailer_pushes (repo_path commit_info_file : string) (n : Z)
  (push : bool) (w : W) :
  pushes ((if push then snd (fst (execute_git_push os repo_path w)) else [])
          ++ fst (cleanup_temp_files os commit_info_file n
                    (if push then snd (execute_git_push os repo_path w)
                     else w)))
  = if push then 1%nat else 0%nat.
Proof.
  rewrite pushes_app.
  rewrite (pushes_none (fst (cleanup_temp_files _ _ _ _))).
  - destruct push; [|reflexivity]. unfold execute_git_push.
    destruct (run_git_push os w) as [[| |] w1]; reflexivity.
  - intros e He. apply cleanup_events in He. destruct He as [p ->].
    reflexivity.
Qed.

(** The trace of [run_plan] is the trace of the loop followed, when the
    loop returned, by a trailer that pushes exactly when every batch was
    counted as successful. *)
Lemma run_plan_trace (batches : list Batch)
  (commit_info_file repo_path : string) (git_files : list FileEntry) (w : W) :
  let n := Z.of_nat (List.length batches) in
  let '(r, evs, w1) :=
    run_batches os batches 1 commit_info_file repo_path git_files n 0 w in
  exists trailer,
    fst (run_plan os batches commit_info_file repo_path git_files w)
    = evs ++ trailer
    /\ (forall e, In e trailer -> batch_of e = None)
    /\ pushes trailer = (if match r with
                            | Returned s => s =? n
                            | Raised => false
                            end then 1%nat else 0%nat).
Proof.
  cbv zeta. unfold run_plan.
  destruct (run_batches os batches 1 commit_info_file repo_path git_files
              (Z.of_nat (List.length batches)) 0 w) as [[[s|] evs] w1].
  - set (n := Z.of_nat (List.length batches)).
    exists ((if s =? n then snd (fst (execute_git_push os repo_path w1)) else [])
            ++ fst (cleanup_temp_files os commit_info_file n
                      (if s =? n then snd (execute_git_push os repo_path w1)
                       else w1))).
    split; [|split].
    + destruct (s =? n).
      * destruct (execute_git_push os repo_path w1) as [[ok evp] w2]. simpl.
        destruct (cleanup_temp_files os commit_info_file n w2). reflexivity.
      * destruct (cleanup_temp_files os commit_info_file n w1). reflexivity.
    + intros e. apply trailer_events.
    + apply trailer_pushes.
  - exists []. split; [now rewrite app_nil_r | split; [intros e [] | reflexivity]].
Qed.

End PipelineRun.

(** C3.  In the trace of a run of the pipeline over a plan: if staging
    or committing batch [i] fails, then no batch after [i] is attempted
    and the push operation is not invoked; the push operation is
    invoked at most once, and exactly once when and only when every
    batch of the plan reported success. *)
Theorem pipeline_failure_is_terminal {W : Type} (os : OS W)
  (batches : list Batch) (commit_info_file repo_path : string)
  (git_files : list FileEntry) (w : W) :
  let evs := fst (run_plan os batches commit_info_file repo_path git_files w) in
  (forall i, stage_or_commit_failed i evs ->
     (forall j, i < j -> ~ attempted j evs) /\ pushes evs = 0%nat)
  /\ (pushes evs <= 1)%nat
  /\ (pushes evs = 1%nat
      <-> forall i, 1 <= i <= Z.of_nat (List.length batches) ->
                    In (BatchOk i) evs).
Proof.
  cbv zeta.
  pose proof (run_plan_trace os batches commit_info_file repo_path
                git_files w) as Ht.
  pose proof (run_batches_spec os commit_info_file repo_path git_files
                (Z.of_nat (List.length batches)) batches 1 0 w) as Hs.
  cbv zeta in Ht.
  destruct (run_batches os batches 1 commit_info_file repo_path git_files
              (Z.of_nat (List.length batches)) 0 w) as [[r evs] w1].
  cbv zeta in Hs. set (n := Z.of_nat (List.length batches)) in *.
  destruct Hs as (Hrange & Hfail & Hall & _).
  destruct Ht as (trailer & -> & Hnone & Hpush).
  assert (pushes evs = 0%nat) as Hevs.
  { apply pushes_none. intros e He. destruct (Hrange e He) as [j [Hj _]].
    destruct e; simpl in *; (reflexivity || discriminate). }
  assert (forall e, batch_of e <> None -> In e (evs ++ trailer) -> In e evs)
    as Hloop.
  { intros e Hb He. apply in_app_or in He. destruct He as [He|He]; [exact He|].
    apply Hnone in He. contradiction. }
  assert ((if match r with Returned s => s =? n | Raised => false end
           then True else False) <-> r = Returned (0 + n)) as Hcount.
  { destruct r as [s|]; [|split; [tauto | discriminate]].
    destruct (Z.eqb_spec s n) as [->|Hne].
    - split; [reflexivity | tauto].
    - split; [tauto|]. intros H. inversion H. lia. }
  rewrite pushes_app, Hevs, Hpush. simpl plus.
  split; [|split].
  - intros i [c [Hc Hf]]. apply Hloop in Hc; [|discriminate].
    assert (stage_or_commit_failed i evs) as Hi by (now exists c).
    destruct (Hfail i Hi) as [Hlast Hshort]. split.
    + intros j Hj [e [He Hb]]. apply Hloop in He; [|congruence].
      assert (j <= i); [|lia]. apply Hlast. now exists e.
    + destruct (match r with Returned s => s =? n | Raised => false end);
        [|reflexivity].
      exfalso. apply Hshort. now apply Hcount.
  - destruct (match r with Returned s => s =? n | Raised => false end); lia.
  - split.
    + intros H1 i Hi. apply in_or_app. left. apply Hall; [|lia].
      apply Hcount.
      destruct (match r with Returned s => s =? n | Raised => false end);
        [exact I | discriminate].
    + intros H.
      assert (r = Returned (0 + n)) as Hr.
      { apply Hall. intros j Hj. apply Hloop; [discriminate|].
        apply H. lia. }
      apply Hcount in Hr.
      destruct (match r with Returned s => s =? n | Raised => false end);
        [reflexivity | destruct Hr].
Qed.

(** C10.  Every batch of the plan holds at least one entry; hence in a
    run of the pipeline over the plan no batch takes the "no files"
    exit of [execute_git_add_commit]. *)
Theorem planned_batches_nonempty {W : Type} (os : OS W)
  (git_files : list FileEntry) (max_batch_size : Z)
  (commit_info_file repo_path : string) (w : W) :
  Forall (fun b => b <> []) (create_batches git_files max_batch_size)
  /\ (forall i files total_batches all_git_files,
        In files (create_batches git_files max_batch_size) ->
        ~ In NoFiles
            (snd (fst (execute_git_add_commit os files commit_info_file
                         repo_path all_git_files i total_batches w))))
  /\ (forall i,
        ~ In (InBatch i NoFiles)
             (fst (run_plan os (create_batches git_files max_batch_size)
                     commit_info_file repo_path git_files w))).
Proof.
  pose proof (plan_nonempty git_files max_batch_size) as Hne.
  split; [exact Hne|]. split.
  - intros i files total_batches all_git_files Hin.
    rewrite Forall_forall in Hne.
    pose proof (execute_cmds os files commit_info_file repo_path
                  all_git_files i total_batches w) as H.
    destruct (execute_git_add_commit os files commit_info_file repo_path
                all_git_files i total_batches w) as [[r cmds] w1].
    simpl. apply H. now apply Hne.
  - intros i.
    set (batches := create_batches git_files max_batch_size) in *.
    pose proof (run_plan_trace os batches commit_info_file repo_path
                  git_files w) as Ht.
    pose proof (run_batches_spec os commit_info_file repo_path git_files
                  (Z.of_nat (List.length batches)) batches 1 0 w) as Hs.
    cbv zeta in Ht.
    destruct (run_batches os batches 1 commit_info_file repo_path git_files
                (Z.of_nat (List.length batches)) 0 w) as [[r evs] w1].
    cbv zeta in Hs. destruct Hs as (_ & _ & _ & Hnf).
    destruct Ht as (trailer & -> & Hnone & _).
    intros Hin. apply in_app_or in Hin. destruct Hin as [Hin|Hin].
    + now apply (Hnf Hne i).
    + apply Hnone in Hin. discriminate.
Qed.

(** ** Commit message derivation *)

Lemma rev_string_involutive (s : string) : rev_string (rev_string s) = s.
Proof.
  unfold rev_string.
  now rewrite list_ascii_of_string_of_list_ascii, rev_involutive,
    string_of_list_ascii_of_string.
Qed.

Lemma lstrip_head (s : string) (c : ascii) (r : string) :
  lstrip s = String c r -> is_space c = false.
Proof.
  induction s as [|a s IH]; simpl; [discriminate|].
  destruct (is_space a) eqn:E; [exact IH|].
  intros H. inversion H; subst. exact E.
Qed.



Lemma string_length_append (a b : string) :
  String.length (a ++ b) = (String.length a + String.length b)%nat.
Proof. induction a as [|c a IH]; simpl; [reflexivity | now rewrite IH]. Qed.

Lemma temp_path_fresh (f : string) (i : Z) : temp_path f i <> f.
Proof.
  unfold temp_path. intros H. apply (f_equal String.length) in H.
  rewrite !string_length_append in H. simpl in H. lia.
Qed.



Example message_for_single_batch :
  create_commit_message_file test_os "commit-info.txt" 1 1
    (template_world true 0 0)
  = (Returned ("commit-info.txt", "fix"), [], template_world true 0 0).
Proof. reflexivity. Qed.

Example message_for_unreadable_template :
  create_commit_message_file test_os "missing.txt" 1 2
    (template_world true 0 0)
  = (Raised, [], template_world true 0 0).
Proof. reflexivity. Qed.


(** ** Change set discovery *)

Lemma status_step_app (repo : Node) (files : list FileEntry)
  (filename : string) :
  status_step repo files filename = files ++ status_step repo [] filename.
Proof.
  unfold status_step.
  destruct (lookup (resolve filename) repo) as [[sz|entries|]|]; reflexivity.
Qed.

Lemma status_loop (repo : Node) (filenames : list string)
  (files : list FileEntry) :
  fold_left (status_step repo) filenames files
  = files ++ flat_map (status_step repo []) filenames.
Proof.
  revert files. induction filenames as [|n l IH]; intros files; simpl.
  - now rewrite app_nil_r.
  - rewrite IH, (status_step_app repo files n). now rewrite <- app_assoc.
Qed.

Lemma status_step_entry (root : list (string * Node)) (filename : string) :
  is_dir root filename = false ->
  status_step (Directory root) [] filename = [status_entry root filename].
Proof.
  unfold is_dir, status_step, status_entry.
  destruct (lookup (resolve filename) (Directory root)) as [[sz|entries|]|];
    (reflexivity || discriminate).
Qed.

Lemma total_size_drop_zero (e : FileEntry) (b1 b2 : list FileEntry) :
  size e = 0 -> total_size (b1 ++ e :: b2) = total_size (b1 ++ b2).
Proof.
  intros H. rewrite !total_size_app. simpl. lia.
Qed.

(** A pending directory is not a regular file, yet no entry of size 0
    is recorded for it: the status query yields the file beneath it. *)
Lemma pending_directory_is_expanded :
  In "newdir/" ["newdir/"]
  /\ is_file tree_with_new_dir "newdir/" = false
  /\ get_git_status_files tree_with_new_dir ["newdir/"]
     = [mkFile "newdir/big.bin" 7 "newdir"]
  /\ ~ (exists e, In e (get_git_status_files tree_with_new_dir ["newdir/"])
                  /\ size e = 0).
Proof.
  split; [now left|]. split; [reflexivity|]. split; [reflexivity|].
  intros [e [[<-|[]] H]]. discriminate H.
Qed.

(** ** The scenarios of the specification, evaluated *)

Example scenario_A_plan :
  create_batches scenario_A default_max_batch_size = [scenario_A]
  /\ simplify_batch_files scenario_A "repo" scenario_A = ([], ["docs"]).
Proof. split; vm_compute; reflexivity. Qed.

Example scenario_B_plan :
  map (map path) (create_batches scenario_B default_max_batch_size)
  = [ ["data/b"]; ["data/d"; "data/a"; "data/c"; "data/e"] ].
Proof. vm_compute. reflexivity. Qed.

Example scenario_C_plan :
  create_batches [mkFile "big.bin" (60 * MiB) "."] default_max_batch_size
  = [[mkFile "big.bin" (60 * MiB) "."]].
Proof. vm_compute. reflexivity. Qed.

Example scenario_D_filter :
  get_git_files (Some "repo")
    (fun _ => [mkFile "huge.bin" (55 * MiB) "."; mkFile "ok.txt" 5 "."])
  = ([mkFile "ok.txt" 5 "."], Some "repo", ["huge.bin"]).
Proof. vm_compute. reflexivity. Qed.

Example scenario_E_trace :
  let evs :=
    fst (main test_os "commit-info.txt"
           (get_git_files (Some "repo") (fun _ => scenario_E))
           (template_world true 2 0)) in
  stage_or_commit_failed 2 evs
  /\ In (BatchOk 1) evs
  /\ ~ attempted 3 evs
  /\ pushes evs = 0%nat.
Proof.
  vm_compute. split; [|split; [|split]].
  - exists (GitAdd ["b"] CalledProcessError). split; [|reflexivity].
    do 8 right. left. reflexivity.
  - do 5 right. left. reflexivity.
  - intros [e [He Hb]].
    repeat (destruct He as [<-|He]; [discriminate Hb|]). destruct He.
  - reflexivity.
Qed.

Example all_batches_pushed :
  pushes (fst (main test_os "commit-info.txt"
                 (get_git_files (Some "repo") (fun _ => scenario_E))
                 (template_world true 0 0))) = 1%nat.
Proof. vm_compute. reflexivity. Qed.

Example chunks_of_four_tokens :
  add_chunks ["aaaa"; "bb"; "cccccccccccccccccccc"; "d"] 16
  = [["aaaa"; "bb"]; ["cccccccccccccccccccc"]; ["d"]].
Proof. vm_compute. reflexivity. Qed.

Example derived_message_batch_2_of_3 :
  fst (create_commit_message_file test_os "commit-info.txt" 2 3
         (template_world true 0 0))
  = (Returned ("commit-info.txt.batch2", ("fix" ++ nl ++ " (批次 2/3)")%string),
     [WriteTemp "commit-info.txt.batch2"
                ("fix" ++ nl ++ " (批次 2/3)")%string]).
Proof. vm_compute. reflexivity. Qed.

(** * Further properties of the code *)

(** ** Directory aggregator *)

(** The keys are the directories of the input in order of first
    appearance: the list of the entries' directories with every later
    repeat removed.  ([nodup] keeps the last of equal elements, hence
    the two reversals.) *)
Lemma dirs_of_first_appearance (git_files : list FileEntry) :
  dirs_of git_files = rev (nodup string_dec (rev (map dir git_files))).
Proof.
  induction git_files as [|f l IH] using rev_ind; [reflexivity|].
  rewrite dirs_of_snoc, map_app, rev_app_distr. simpl.
  destruct (in_dec string_dec (dir f) (rev (map dir l))) as [Hin|Hout].
  - rewrite <- IH.
    assert (existsb (String.eqb (dir f)) (dirs_of l) = true) as ->;
      [|reflexivity].
    apply existsb_eqb_In. rewrite IH. apply -> in_rev.
    now apply nodup_In.
  - simpl. rewrite <- IH.
    destruct (existsb (String.eqb (dir f)) (dirs_of l)) eqn:E; [|reflexivity].
    exfalso. apply Hout. apply existsb_eqb_In in E. rewrite IH in E.
    apply in_rev in E. now apply nodup_In in E.
Qed.

(** The two dictionaries built by [organize_files_by_directory] agree:
    they have the same keys, each directory once, in order of first
    appearance (the directories of the entries, in input order, with
    every later repeat removed); the list of a directory holds exactly
    its entries, in input order; its size is the sum of that list; and
    a directory that is not a key reads as the empty list and as
    zero. *)
Theorem organize_files_by_directory_consistent (git_files : list FileEntry) :
  let '(dir_files, dir_sizes) := organize_files_by_directory git_files in
  Py.keys dir_files = Py.keys dir_sizes
  /\ Py.keys dir_files
     = rev (nodup string_dec (rev (map dir git_files)))
  /\ NoDup (Py.keys dir_files)
  /\ (forall d, In d (Py.keys dir_files)
                <-> exists f, In f git_files /\ dir f = d)
  /\ (forall d, Py.get [] d dir_files
                = filter (fun f => String.eqb (dir f) d) git_files)
  /\ (forall d, Py.get 0 d dir_sizes = total_size (Py.get [] d dir_files))
  /\ (forall d, ~ In d (Py.keys dir_files) ->
                Py.get [] d dir_files = [] /\ Py.get 0 d dir_sizes = 0).
Proof.
  pose proof (organize_keys git_files) as Hk.
  pose proof (organize_files git_files) as Hf.
  pose proof (organize_sizes git_files) as Hs.
  pose proof (dirs_of_NoDup git_files) as Hnd.
  pose proof (dirs_of_In git_files) as Hin.
  pose proof (dirs_of_first_appearance git_files) as Hord.
  unfold dirs_of in *.
  destruct (organize_files_by_directory git_files) as [dir_files dir_sizes].
  simpl in Hk, Hf, Hs, Hnd, Hin, Hord. rewrite Hk.
  split; [reflexivity|]. split; [exact Hord|].
  split; [exact Hnd|]. split; [exact Hin|].
  split; [exact Hf|].
  split; [intros d; now rewrite Hs, Hf|].
  intros d Hd.
  assert (files_in git_files d = []) as He.
  { destruct (files_in git_files d) as [|f l] eqn:E; [reflexivity|].
    exfalso. apply Hd. apply Hin. exists f.
    assert (In f (files_in git_files d)) as H by (rewrite E; now left).
    apply filter_In in H. destruct H as [H1 H2].
    apply String.eqb_eq in H2. tauto. }
  rewrite Hf, Hs. unfold dir_total. fold (files_in git_files d).
  now rewrite He.
Qed.

Example keys_in_order_of_first_appearance :
  Py.keys (fst (organize_files_by_directory
                  [mkFile "b/1" 1 "b"; mkFile "a/1" 2 "a"; mkFile "b/2" 3 "b";
                   mkFile "c/1" 4 "c"; mkFile "a/2" 5 "a"]))
  = ["b"; "a"; "c"].
Proof. reflexivity. Qed.

(** ** Batch planner *)

Lemma files_in_In (git_files : list FileEntry) (d : string) (f : FileEntry) :
  In f (files_in git_files d) <-> In f git_files /\ dir f = d.
Proof. unfold files_in. now rewrite filter_In, String.eqb_eq. Qed.

Lemma in_concat_incl {A} (l : list (list A)) (b : list A) :
  In b l -> incl b (List.concat l).
Proof. intros Hb x Hx. apply in_concat. now exists b. Qed.

Lemma adjacent_impl {A} (R R' : A -> A -> Prop) (l : list A) :
  (forall a b, R a b -> R' a b) -> adjacent R l -> adjacent R' l.
Proof.
  intros H. induction l as [|a [|b t] IH]; simpl; auto.
  intros [H1 H2]. split; [now apply H | now apply IH].
Qed.

Lemma adjacent_app_cross {A} (R : A -> A -> Prop) (l1 l2 : list A) :
  adjacent R l1 -> adjacent R l2 ->
  (forall a b, In a l1 -> In b l2 -> R a b) ->
  adjacent R (l1 ++ l2).
Proof.
  induction l1 as [|a [|b t] IH]; intros H1 H2 Hx.
  - exact H2.
  - destruct l2 as [|c l2]; [exact I|]. simpl. split; [|exact H2].
    apply Hx; now left.
  - destruct H1 as [Hab Ht]. split; [exact Hab|].
    apply IH; [exact Ht | exact H2|].
    intros x y Hin Hy. apply Hx; [now right | exact Hy].
Qed.

Lemma adjacent_flat_map_cross {A K} (R : A -> A -> Prop)
  (G : K -> list A) (ds : list K) :
  NoDup ds ->
  (forall d, In d ds -> adjacent R (G d)) ->
  (forall d d' a b, In d ds -> In d' ds -> d <> d' ->
                    In a (G d) -> In b (G d') -> R a b) ->
  adjacent R (flat_map G ds).
Proof.
  induction ds as [|d ds IH]; intros Hnd Hin Hx; [exact I|].
  inversion Hnd as [|? ? Hd Hds]; subst. simpl.
  apply adjacent_app_cross.
  - apply Hin. now left.
  - apply IH; [exact Hds | |].
    + intros d' Hd'. apply Hin. now right.
    + intros d1 d2 a b H1 H2. apply Hx; now right.
  - intros a b Ha Hb. apply in_flat_map in Hb. destruct Hb as [d' [Hd' Hb]].
    apply (Hx d d'); [now left | now right | | exact Ha | exact Hb].
    intros ->. contradiction.
Qed.

Section GreedyTight.

Variable max_batch_size : Z.

Lemma greedy_head (files : list FileEntry) (current : Batch) (s : Z) :
  current <> [] ->
  exists ext tl,
    greedy_from max_batch_size current s files = (current ++ ext) :: tl.
Proof.
  revert current s. induction files as [|f files IH]; intros current s Hc.
  - simpl. destruct current; [contradiction|]. exists [], [].
    now rewrite app_nil_r.
  - simpl. destruct (s + size f <=? max_batch_size).
    + destruct (IH (current ++ [f]) (s + size f)) as [ext [tl H]].
      { destruct current; discriminate. }
      exists (f :: ext), tl. rewrite H. now rewrite <- app_assoc.
    + destruct current; [contradiction|]. simpl.
      exists [], (greedy_from max_batch_size [f] (size f) files).
      now rewrite app_nil_r.
Qed.

Lemma greedy_adjacent (files : list FileEntry) (current : Batch) (s : Z) :
  s = total_size current ->
  adjacent (overflows max_batch_size)
           (greedy_from max_batch_size current s files).
Proof.
  revert current s. induction files as [|f files IH]; intros current s Hs.
  - simpl. destruct current; exact I.
  - simpl. destruct (s + size f <=? max_batch_size) eqn:E.
    + apply IH. rewrite total_size_app. simpl. lia.
    + apply Z.leb_gt in E.
      assert (adjacent (overflows max_batch_size)
                (greedy_from max_batch_size [f] (size f) files)) as Hrest.
      { apply IH. simpl. lia. }
      destruct current as [|c current]; [exact Hrest|].
      destruct (greedy_head files [f] (size f)) as [ext [tl H]];
        [discriminate|].
      simpl app. rewrite H in *. split; [|exact Hrest].
      exists f, ext. split; [reflexivity | lia].
Qed.

Lemma greedy_fill_nonempty (files : list FileEntry) :
  files <> [] -> greedy_fill max_batch_size files <> [].
Proof.
  intros Hf E. pose proof (greedy_concat max_batch_size files [] 0) as H.
  unfold greedy_fill in E. rewrite E in H. simpl in H. congruence.
Qed.

End GreedyTight.

Lemma files_in_nonempty (git_files : list FileEntry) (d : string) :
  In d (dirs_of git_files) -> files_in git_files d <> [].
Proof.
  intros Hd E. apply dirs_of_In in Hd. destruct Hd as [f [Hf Hdir]].
  assert (In f (files_in git_files d)) as H by (now apply files_in_In).
  rewrite E in H. destruct H.
Qed.

(** Where a batch of the plan comes from. *)
Lemma plan_batch_origin (git_files : list FileEntry) (max_batch_size : Z)
  (b : Batch) :
  In b (create_batches git_files max_batch_size) ->
  exists d, In d (dirs_of git_files) /\ b <> []
            /\ incl b (files_in git_files d)
            /\ (dir_total git_files d <= max_batch_size ->
                b = files_in git_files d).
Proof.
  rewrite create_batches_shape, in_app_iff, in_map_iff, in_flat_map.
  intros [[d [<- Hd]]|[d [Hd Hb]]].
  - apply small_dirs_spec in Hd. destruct Hd as [Hd _]. exists d.
    split; [exact Hd|]. split; [now apply files_in_nonempty|].
    split; [apply incl_refl | reflexivity].
  - apply big_dirs_spec in Hd. destruct Hd as [Hd Hbig]. exists d.
    split; [exact Hd|]. split; [|split; [|lia]].
    + pose proof (greedy_nonempty max_batch_size
                    (Py.sorted_rev size (files_in git_files d)) [] 0) as H.
      rewrite Forall_forall in H. now apply H.
    + intros f Hf.
      apply (Permutation_in f (sorted_rev_perm size (files_in git_files d))).
      pose proof (in_concat_incl _ _ Hb f Hf) as H.
      unfold greedy_fill in H. now rewrite greedy_concat in H.
Qed.

(** Every batch of the plan is taken from a single directory: it is not
    empty and all its entries are input entries of one directory. *)
Theorem create_batches_one_directory (git_files : list FileEntry)
  (max_batch_size : Z) :
  Forall (fun b => b <> []
                   /\ exists d, forall f, In f b ->
                                          dir f = d /\ In f git_files)
         (create_batches git_files max_batch_size).
Proof.
  rewrite Forall_forall. intros b Hb.
  destruct (plan_batch_origin _ _ _ Hb) as [d (Hd & Hne & Hincl & _)].
  split; [exact Hne|]. exists d. intros f Hf.
  apply Hincl, files_in_In in Hf. tauto.
Qed.

(** A directory whose aggregate size is within the budget is never
    split: the batch holding all its entries is in the plan, and every
    batch of the plan holding one of its entries is that batch. *)
Theorem create_batches_keeps_small_directory (git_files : list FileEntry)
  (max_batch_size : Z) (d : string) :
  In d (dirs_of git_files) ->
  dir_total git_files d <= max_batch_size ->
  In (files_in git_files d) (create_batches git_files max_batch_size)
  /\ (forall b f, In b (create_batches git_files max_batch_size) ->
                  In f b -> dir f = d -> b = files_in git_files d).
Proof.
  intros Hd Hsmall. split.
  - rewrite create_batches_shape. apply in_or_app. left.
    apply in_map. apply small_dirs_spec. tauto.
  - intros b f Hb Hf Hdir.
    destruct (plan_batch_origin _ _ _ Hb) as [d' (Hd' & Hne & Hincl & Hwhole)].
    assert (d' = d) as ->.
    { apply Hincl, files_in_In in Hf. destruct Hf as [_ Hf]. congruence. }
    now apply Hwhole.
Qed.

Lemma create_batches_keeps_small_directory_witness :
  In (files_in scenario_A "docs")
     (create_batches scenario_A default_max_batch_size).
Proof.
  apply (create_batches_keeps_small_directory scenario_A
           default_max_batch_size "docs").
  - vm_compute. now left.
  - vm_compute. discriminate.
Defined.

Lemma adjacent_map_distinct {A K} (R : A -> A -> Prop) (f : K -> A)
  (ds : list K) :
  NoDup ds ->
  (forall d d', In d ds -> In d' ds -> d <> d' -> R (f d) (f d')) ->
  adjacent R (map f ds).
Proof.
  intros Hnd H. induction ds as [|d [|d' t] IH]; simpl; auto.
  inversion Hnd as [|? ? Hd Ht]; subst. split.
  - apply H; [now left | right; now left|]. intros ->. apply Hd. now left.
  - apply IH; [exact Ht|]. intros a b Ha Hb. apply H; now right.
Qed.

Lemma plan_dirs_NoDup (git_files : list FileEntry) (max_batch_size : Z) :
  NoDup (small_dirs git_files max_batch_size
         ++ big_dirs git_files max_batch_size).
Proof.
  apply (Permutation_NoDup
           (Permutation_sym (plan_dirs_perm git_files max_batch_size))).
  apply dirs_of_NoDup.
Qed.

(** Neighbouring batches of one directory overflow. *)
Lemma plan_tight (git_files : list FileEntry)
  (max_batch_size : Z) :
  adjacent (fun b1 b2 => share_dir b1 b2 -> overflows max_batch_size b1 b2)
           (create_batches git_files max_batch_size).
Proof.
  rewrite create_batches_shape.
  pose proof (plan_dirs_NoDup git_files max_batch_size) as Hnd.
  set (seg := fun d => greedy_fill max_batch_size
                         (Py.sorted_rev size (files_in git_files d))).
  assert (forall d b f, In b (seg d) -> In f b -> dir f = d) as Hseg.
  { intros d b f Hb Hf. unfold seg, greedy_fill in Hb.
    pose proof (in_concat_incl _ _ Hb f Hf) as H.
    rewrite greedy_concat in H. simpl in H.
    apply (Permutation_in f (sorted_rev_perm size (files_in git_files d))) in H.
    now apply files_in_In in H. }
  apply NoDup_app_remove_l in Hnd as Hbig.
  apply NoDup_app_remove_r in Hnd as Hsmall.
  apply adjacent_app_cross.
  - apply adjacent_map_distinct; [exact Hsmall|].
    intros d d' _ _ Hne (f & g & Hf & Hg & E).
    apply files_in_In in Hf, Hg. exfalso. apply Hne.
    destruct Hf as [_ <-], Hg as [_ <-]. exact E.
  - apply adjacent_flat_map_cross; [exact Hbig | |].
    + intros d _. eapply adjacent_impl; [|apply greedy_adjacent; reflexivity].
      intros a b H _. exact H.
    + intros d d' a b _ _ Hne Ha Hb (f & g & Hf & Hg & E).
      exfalso. apply Hne.
      rewrite <- (Hseg d a f Ha Hf), <- (Hseg d' b g Hb Hg). exact E.
  - intros a b Ha Hb (f & g & Hf & Hg & E). exfalso.
    apply in_map_iff in Ha. destruct Ha as [d [<- Hd]].
    apply in_flat_map in Hb. destruct Hb as [d' [Hd' Hb]].
    apply files_in_In in Hf. destruct Hf as [_ Hf].
    pose proof (Hseg d' b g Hb Hg) as Hg'.
    assert (d = d') as -> by congruence.
    apply small_dirs_spec in Hd. apply big_dirs_spec in Hd'. lia.
Qed.

(** The planner closes a batch only on overflow: whenever two
    consecutive batches of the plan hold entries of a common directory,
    the first file of the second batch on top of the first batch would
    exceed the budget. *)
Theorem create_batches_closes_on_overflow (git_files : list FileEntry)
  (max_batch_size : Z) :
  adjacent (fun b1 b2 => share_dir b1 b2 -> overflows max_batch_size b1 b2)
           (create_batches git_files max_batch_size).
Proof. apply plan_tight. Qed.

Lemma concat_length_nonempty {A} (l : list (list A)) :
  Forall (fun b => b <> []) l ->
  (List.length l <= List.length (List.concat l))%nat.
Proof.
  induction 1 as [|b l Hb Hl IH]; simpl; [lia|].
  rewrite length_app. destruct b; [contradiction|]. simpl. lia.
Qed.

Lemma flat_map_length_nonempty {A K} (G : K -> list A) (ds : list K) :
  (forall d, In d ds -> G d <> []) ->
  (List.length ds <= List.length (flat_map G ds))%nat.
Proof.
  induction ds as [|d ds IH]; intros H; simpl; [lia|].
  rewrite length_app.
  assert (G d <> []) as Hd by (apply H; now left).
  destruct (G d); [contradiction|]. simpl.
  assert (List.length ds <= List.length (flat_map G ds))%nat.
  { apply IH. intros x Hx. apply H. now right. }
  lia.
Qed.

(** The number of batches lies between the number of directories and
    the number of entries of the input; in particular the plan is empty
    exactly when the input is. *)
Theorem create_batches_count (git_files : list FileEntry)
  (max_batch_size : Z) :
  (List.length (dirs_of git_files)
   <= List.length (create_batches git_files max_batch_size))%nat
  /\ (List.length (create_batches git_files max_batch_size)
      <= List.length git_files)%nat
  /\ (create_batches git_files max_batch_size = [] <-> git_files = []).
Proof.
  assert (List.length (create_batches git_files max_batch_size)
          <= List.length git_files)%nat as Hle.
  { rewrite <- (Permutation_length
                  (plan_concat_perm git_files max_batch_size)).
    apply concat_length_nonempty, plan_nonempty. }
  split; [|split; [exact Hle|]].
  - rewrite <- (Permutation_length
                  (plan_dirs_perm git_files max_batch_size)).
    rewrite create_batches_shape, !length_app, length_map.
    apply Nat.add_le_mono_l. apply flat_map_length_nonempty.
    intros d Hd. apply greedy_fill_nonempty.
    apply big_dirs_spec in Hd. destruct Hd as [Hd _].
    apply files_in_nonempty in Hd. intros E. apply Hd.
    apply Permutation_nil.
    rewrite <- E. apply sorted_rev_perm.
  - split.
    + intros E. pose proof (plan_concat_perm git_files max_batch_size) as H.
      rewrite E in H. simpl in H. now apply Permutation_nil in H.
    + intros ->. reflexivity.
Qed.

Lemma total_size_perm (a b : list FileEntry) :
  Permutation a b -> total_size a = total_size b.
Proof.
  induction 1; simpl; try lia.
Qed.

Lemma plan_size_concat (batches : list Batch) :
  plan_size batches = total_size (List.concat batches).
Proof.
  induction batches as [|b l IH]; simpl; [reflexivity|].
  rewrite total_size_app, <- IH. reflexivity.
Qed.

(** No byte is lost or counted twice: the aggregate sizes of the
    batches add up to the aggregate size of the input. *)
Theorem create_batches_preserves_size (git_files : list FileEntry)
  (max_batch_size : Z) :
  plan_size (create_batches git_files max_batch_size) = total_size git_files.
Proof.
  rewrite plan_size_concat. apply total_size_perm, plan_concat_perm.
Qed.

(** ** Batch simplifier *)

Lemma set_eqb_true_iff (a b : list string) :
  set_eqb a b = true <-> (forall p, In p a <-> In p b).
Proof.
  split; [apply set_eqb_In|]. intros H. unfold set_eqb.
  rewrite andb_true_iff, !forallb_forall.
  split; intros p Hp; apply existsb_eqb_In; now apply H.
Qed.

Lemma simplify_fold (batch_files all_git_files : list FileEntry)
  (ds : list string) (sf sd : list string) :
  fold_left (simplify_step (fst (organize_files_by_directory all_git_files)))
            (map (fun d => (d, files_in batch_files d)) ds) (sf, sd)
  = (sf ++ flat_map (fun d => if is_token batch_files all_git_files d
                              then []
                              else map path (files_in batch_files d)) ds,
     sd ++ filter (is_token batch_files all_git_files) ds).
Proof.
  revert sf sd. induction ds as [|d ds IH]; intros sf sd; simpl.
  - now rewrite !app_nil_r.
  - unfold is_token at 1 3. unfold Py.get_or. rewrite organize_files.
    destruct (String.eqb d "."); simpl negb; cbn [andb].
    + rewrite IH. now rewrite <- app_assoc.
    + destruct (set_eqb _ _); rewrite IH; simpl; now rewrite <- !app_assoc.
Qed.

(** The simplifier in closed form. *)
Lemma simplify_closed_form (batch_files : list FileEntry) (repo_path : string)
  (all_git_files : list FileEntry) :
  simplify_batch_files batch_files repo_path all_git_files
  = (flat_map (fun d => if is_token batch_files all_git_files d
                        then []
                        else map path (files_in batch_files d))
              (dirs_of batch_files),
     filter (is_token batch_files all_git_files) (dirs_of batch_files)).
Proof.
  unfold simplify_batch_files.
  rewrite group_is_organize, organize_items.
  pose proof (simplify_fold batch_files all_git_files
                (dirs_of batch_files) [] []) as H.
  destruct (organize_files_by_directory all_git_files) as [adf ads].
  exact H.
Qed.

Lemma token_count (batch_files all_git_files : list FileEntry)
  (ds : list string) :
  (forall d, In d ds -> files_in batch_files d <> []) ->
  (List.length
     (flat_map (fun d => if is_token batch_files all_git_files d
                         then []
                         else map path (files_in batch_files d)) ds)
   + List.length (filter (is_token batch_files all_git_files) ds)
   <= List.length (flat_map (files_in batch_files) ds))%nat.
Proof.
  induction ds as [|d ds IH]; intros H; simpl; [lia|].
  assert (files_in batch_files d <> []) as Hd by (apply H; now left).
  assert (forall x, In x ds -> files_in batch_files x <> []) as Hds
    by (intros x Hx; apply H; now right).
  specialize (IH Hds). rewrite !length_app.
  destruct (is_token batch_files all_git_files d); simpl.
  - destruct (files_in batch_files d); [contradiction|]. simpl. lia.
  - rewrite ?length_app, ?length_map. lia.
Qed.

(** What the simplifier emits, exactly.  A directory token is emitted
    for [d] when and only when [d] is not the root, some entry of the
    batch lies in [d], and the batch holds the same set of paths in [d]
    as the full accepted set; no token is emitted twice; a path is
    listed individually exactly when it belongs to a batch entry whose
    directory got no token; and the tokens and listed paths together
    are never more than the entries of the batch. *)
Theorem simplify_batch_files_tokens (batch_files : list FileEntry)
  (repo_path : string) (all_git_files : list FileEntry) :
  let '(simplified_files, simplified_dirs) :=
    simplify_batch_files batch_files repo_path all_git_files in
  (forall d, In d simplified_dirs
             <-> d <> "."
                 /\ (exists f, In f batch_files /\ dir f = d)
                 /\ (forall p, In p (map path (files_in batch_files d))
                               <-> In p (map path (files_in all_git_files d))))
  /\ NoDup simplified_dirs
  /\ (forall p, In p simplified_files
                <-> exists f, In f batch_files /\ path f = p
                              /\ ~ In (dir f) simplified_dirs)
  /\ (List.length simplified_files + List.length simplified_dirs
      <= List.length batch_files)%nat.
Proof.
  rewrite simplify_closed_form.
  assert (forall d, In d (filter (is_token batch_files all_git_files)
                                 (dirs_of batch_files))
                    <-> In d (dirs_of batch_files)
                        /\ is_token batch_files all_git_files d = true)
    as Hsd by (intros d; apply filter_In).
  split; [|split; [|split]].
  - intros d. rewrite Hsd, dirs_of_In. unfold is_token.
    rewrite andb_true_iff, negb_true_iff, String.eqb_neq, set_eqb_true_iff.
    tauto.
  - apply NoDup_filter, dirs_of_NoDup.
  - intros p. rewrite in_flat_map. split.
    + intros [d [Hd Hp]].
      destruct (is_token batch_files all_git_files d) eqn:E; [destruct Hp|].
      apply in_map_iff in Hp. destruct Hp as [f [<- Hf]].
      apply files_in_In in Hf. destruct Hf as [Hf <-].
      exists f. split; [exact Hf|]. split; [reflexivity|].
      rewrite Hsd. intros [_ H]. congruence.
    + intros [f [Hf [<- Hno]]]. exists (dir f).
      assert (In (dir f) (dirs_of batch_files)) as Hd
        by (apply dirs_of_In; now exists f).
      split; [exact Hd|].
      destruct (is_token batch_files all_git_files (dir f)) eqn:E.
      * exfalso. apply Hno. apply Hsd. tauto.
      * apply in_map. now apply files_in_In.
  - rewrite <- (Permutation_length
                  (flat_map_files_in batch_files (dirs_of batch_files)
                     (dirs_of_NoDup batch_files)
                     (fun f Hf => proj2 (dirs_of_In batch_files (dir f))
                                    (ex_intro _ f (conj Hf eq_refl))))).
    apply token_count. intros d Hd. now apply files_in_nonempty.
Qed.

Lemma NoDup_all_same (d : string) (l : list string) :
  NoDup l -> (forall x, In x l -> x = d) -> l <> [] -> l = [d].
Proof.
  intros Hnd Hall Hne. destruct l as [|a [|b t]]; [contradiction| |].
  - f_equal. apply Hall. now left.
  - exfalso. inversion Hnd as [|? ? Ha _]; subst. apply Ha.
    rewrite (Hall a), (Hall b); [now left | right; now left | now left].
Qed.

Lemma files_in_idem (git_files : list FileEntry) (d : string) :
  files_in (files_in git_files d) d = files_in git_files d.
Proof.
  unfold files_in. induction git_files as [|f l IH]; simpl; [reflexivity|].
  destruct (String.eqb (dir f) d) eqn:E; simpl; rewrite ?E, IH; reflexivity.
Qed.

(** Planner and simplifier together: a batch that is a whole directory
    of the accepted set is staged as that directory alone, unless the
    directory is the root, whose files are listed one by one. *)
Theorem simplify_whole_directory (git_files : list FileEntry)
  (repo_path d : string) :
  In d (dirs_of git_files) ->
  simplify_batch_files (files_in git_files d) repo_path git_files
  = if String.eqb d "." then (map path (files_in git_files d), [])
    else ([], [d]).
Proof.
  intros Hd. rewrite simplify_closed_form.
  assert (dirs_of (files_in git_files d) = [d]) as ->.
  { apply NoDup_all_same; [apply dirs_of_NoDup | |].
    - intros x Hx. apply dirs_of_In in Hx. destruct Hx as [f [Hf <-]].
      apply files_in_In in Hf. tauto.
    - pose proof (files_in_nonempty git_files d Hd) as Hne.
      destruct (files_in git_files d) as [|f l] eqn:E; [contradiction|].
      intros H.
      assert (In (dir f) (dirs_of (f :: l))) as Hin
        by (apply dirs_of_In; exists f; split; [now left | reflexivity]).
      rewrite H in Hin. destruct Hin. }
  simpl. unfold is_token. rewrite files_in_idem.
  assert (set_eqb (map path (files_in git_files d))
                  (map path (files_in git_files d)) = true) as ->
    by (apply set_eqb_true_iff; tauto).
  destruct (String.eqb d "."); simpl; [now rewrite app_nil_r | reflexivity].
Qed.

Lemma simplify_whole_directory_witness :
  simplify_batch_files (files_in scenario_A "docs") "repo" scenario_A
  = ([], ["docs"]).
Proof.
  apply (simplify_whole_directory scenario_A "repo" "docs").
  vm_compute. now left.
Defined.

(** ** Command chunker *)

Lemma adjacent_snoc {A} (R : A -> A -> Prop) (l : list A) (a b : A) :
  adjacent R (l ++ [a]) -> R a b -> adjacent R ((l ++ [a]) ++ [b]).
Proof.
  intros Hl Hab. induction l as [|x [|y t] IH]; simpl in *.
  - tauto.
  - tauto.
  - destruct Hl as [Hxy Hl]. split; [exact Hxy | now apply IH].
Qed.

Lemma adjacent_last_ext {A} (R : A -> A -> Prop) (l : list A) (c c' : A) :
  (forall x, R x c -> R x c') ->
  adjacent R (l ++ [c]) -> adjacent R (l ++ [c']).
Proof.
  intros H Hl. induction l as [|x [|y t] IH]; simpl in *.
  - exact I.
  - destruct Hl as [Hxc _]. split; [now apply H | exact I].
  - destruct Hl as [Hxy Hl]. split; [exact Hxy | now apply IH].
Qed.

Section ChunkerTight.

Variable max_command_length : Z.

Lemma chunk_step_tight (visited : list string) (t : string)
  (st : list (list string) * list string * Z) :
  chunk_tight_invariant max_command_length visited st ->
  chunk_tight_invariant max_command_length (visited ++ [t])
                        (chunk_step max_command_length st t).
Proof.
  destruct st as [[batches current] n].
  unfold chunk_tight_invariant, chunk_step, close_chunk.
  intros (Hn & Hempty & Hadj).
  destruct (max_command_length <? n + file_length t + base_command_length)
    eqn:E.
  - apply Z.ltb_lt in E.
    split; [now rewrite tokens_length_one|]. split; [discriminate|].
    simpl Py.truthy at 1. cbv iota.
    destruct current as [|c current].
    + rewrite Hempty by reflexivity. exact I.
    + simpl Py.truthy in *. cbv iota in *.
      apply adjacent_snoc; [exact Hadj|].
      exists t, []. split; [reflexivity|]. unfold command_length. lia.
  - split; [rewrite tokens_length_app, tokens_length_one; lia|].
    split; [intros H; destruct current; discriminate|].
    destruct current as [|c current].
    + rewrite Hempty by reflexivity. exact I.
    + simpl Py.truthy in *. cbv iota in *.
      eapply adjacent_last_ext; [|exact Hadj].
      intros x (t0 & rest & Hc & Hx). inversion Hc; subst.
      exists t0, (rest ++ [t]). split; [reflexivity | exact Hx].
Qed.

Lemma add_chunks_tight (file_paths : list string) :
  adjacent (chunk_overflows max_command_length)
           (add_chunks file_paths max_command_length).
Proof.
  unfold add_chunks. destruct file_paths as [|p0 l]; [exact I|].
  simpl negb. cbv iota. set (ps := p0 :: l).
  pose proof (fold_left_invariant (chunk_step max_command_length)
                (chunk_tight_invariant max_command_length) ps ([], [], 0))
    as H.
  destruct (fold_left _ ps _) as [[batches current] n].
  apply H.
  - simpl. tauto.
  - intros pre x s. apply chunk_step_tight.
Qed.

Lemma file_length_pos (t : string) : 0 < file_length t.
Proof. unfold file_length. lia. Qed.

Lemma tokens_length_nonneg (c : list string) : 0 <= tokens_length c.
Proof.
  induction c as [|t c IH]; simpl; [lia|].
  pose proof (file_length_pos t). unfold tokens_length in *. simpl. lia.
Qed.

End ChunkerTight.

(** The chunker closes a chunk only on overflow, and wastes none: no
    chunk is empty, so there are at most as many staging commands as
    tokens, and the first token of a chunk on top of the command of the
    chunk before it would exceed the limit. *)
Theorem add_chunks_close_on_overflow (file_paths : list string)
  (max_command_length : Z) :
  Forall (fun c => c <> []) (add_chunks file_paths max_command_length)
  /\ (List.length (add_chunks file_paths max_command_length)
      <= List.length file_paths)%nat
  /\ adjacent (fun c1 c2 =>
                 exists t rest,
                   c2 = t :: rest
                   /\ max_command_length
                      < command_length c1 + file_length t)
              (add_chunks file_paths max_command_length).
Proof.
  destruct (add_chunks_invariant max_command_length file_paths)
    as (Hcat & _ & Hne).
  split; [exact Hne|]. split.
  - rewrite <- Hcat at 2. now apply concat_length_nonempty.
  - apply add_chunks_tight.
Qed.

(** A list of tokens whose whole command is within the limit is staged
    by one command. *)
Theorem add_chunks_single (file_paths : list string)
  (max_command_length : Z) :
  file_paths <> [] ->
  command_length file_paths <= max_command_length ->
  add_chunks file_paths max_command_length = [file_paths].
Proof.
  intros Hne Hfit.
  destruct (add_chunks_invariant max_command_length file_paths)
    as (Hcat & _ & _).
  pose proof (add_chunks_tight max_command_length file_paths) as Ht.
  destruct (add_chunks file_paths max_command_length) as [|c1 [|c2 cs]].
  - simpl in Hcat. congruence.
  - simpl in Hcat. rewrite app_nil_r in Hcat. now subst.
  - exfalso. destruct Ht as [(t & rest & -> & Hover) _].
    rewrite <- Hcat in Hfit. simpl in Hfit. unfold command_length in *.
    rewrite tokens_length_app in Hfit.
    change (tokens_length (t :: rest ++ List.concat cs))
      with (file_length t + tokens_length (rest ++ List.concat cs)) in Hfit.
    pose proof (tokens_length_nonneg (rest ++ List.concat cs)).
    lia.
Qed.

Lemma add_chunks_single_witness :
  add_chunks ["docs"; "src/a.py"] default_max_command_length
  = [["docs"; "src/a.py"]].
Proof.
  apply (add_chunks_single ["docs"; "src/a.py"] default_max_command_length).
  - discriminate.
  - vm_compute. discriminate.
Defined.

(** ** Staging and committing one batch *)

Lemma staged_all_done (chunks : list (list string)) :
  staged (map (fun c => GitAdd c Done) chunks) = List.concat chunks.
Proof.
  unfold staged. induction chunks as [|c l IH]; simpl; [reflexivity|].
  now rewrite IH.
Qed.

Lemma staged_app (a b : list Cmd) : staged (a ++ b) = staged a ++ staged b.
Proof. unfold staged. apply flat_map_app. Qed.

Lemma commits_app (a b : list Cmd) :
  commits (a ++ b) = commits a ++ commits b.
Proof. unfold commits. apply flat_map_app. Qed.

Section Staging.

Context {W : Type} (os : OS W).

(** The chunks are staged in order up to the first one that fails. *)
Lemma run_chunks_prefix (chunks : list (list string)) (w : W) :
  let '(r, cmds, _) := run_chunks os chunks w in
  (r = Returned true /\ cmds = map (fun c => GitAdd c Done) chunks)
  \/ (exists done c o rest,
        chunks = done ++ c :: rest /\ o <> Done
        /\ cmds = map (fun c => GitAdd c Done) done ++ [GitAdd c o]
        /\ r = match o with
               | CalledProcessError => Returned false
               | _ => Raised
               end).
Proof.
  revert w. induction chunks as [|c chunks IH]; intros w; simpl.
  - left. split; reflexivity.
  - destruct (run_git_add os c w) as [[| |] w1].
    + specialize (IH w1). destruct (run_chunks os chunks w1) as [[r cmds] w2].
      destruct IH as [[-> ->]|(done & c' & o & rest & -> & Ho & -> & ->)].
      * left. split; reflexivity.
      * right. exists (c :: done), c', o, rest.
        split; [reflexivity|]. split; [exact Ho|]. split; reflexivity.
    + right. exists [], c, CalledProcessError, chunks.
      split; [reflexivity|]. split; [discriminate|]. split; reflexivity.
    + right. exists [], c, OtherError, chunks.
      split; [reflexivity|]. split; [discriminate|]. split; reflexivity.
Qed.

End Staging.

(** The outcome of [batch_git_add_files], case by case. *)
Lemma batch_add_outcome {W : Type} (os : OS W)
  (file_paths : list string) (repo_path : string) (max_command_length : Z)
  (w : W) :
  let '(r, cmds, _) :=
    batch_git_add_files os file_paths repo_path max_command_length w in
  let chunks := add_chunks file_paths max_command_length in
  (r = Returned true
   /\ cmds = map (fun c => GitAdd c Done) chunks
   /\ staged cmds = file_paths)
  \/ (exists done c o rest,
        chunks = done ++ c :: rest /\ o <> Done
        /\ cmds = map (fun c => GitAdd c Done) done ++ [GitAdd c o]
        /\ staged cmds = List.concat done
        /\ r = match o with
               | CalledProcessError => Returned false
               | _ => Raised
               end).
Proof.
  unfold batch_git_add_files.
  pose proof (run_chunks_prefix os
                (add_chunks file_paths max_command_length) w) as H.
  destruct (run_chunks os _ w) as [[r cmds] w1]. cbv zeta.
  destruct H as [[-> ->]|(done & c & o & rest & Hc & Ho & -> & ->)].
  - left. split; [reflexivity|]. split; [reflexivity|].
    rewrite staged_all_done.
    now destruct (add_chunks_invariant max_command_length file_paths).
  - right. exists done, c, o, rest.
    split; [exact Hc|]. split; [exact Ho|]. split; [reflexivity|].
    split; [|reflexivity].
    rewrite staged_app, staged_all_done. unfold staged. simpl.
    destruct o; [contradiction | |]; now rewrite !app_nil_r.
Qed.

(** [batch_git_add_files] runs the staging commands chunk by chunk and
    stops at the first one that fails: either every chunk was staged, in
    order, and the tokens staged are the whole input list; or the
    commands run are the chunks before the failing one, all successful,
    followed by the failing one, the chunks after it are never run, and
    the call reports failure (or lets the exception through when it is
    not a [CalledProcessError]). *)
Theorem batch_git_add_files_stops_at_failure {W : Type} (os : OS W)
  (file_paths : list string) (repo_path : string) (max_command_length : Z)
  (w : W) :
  let '(r, cmds, _) :=
    batch_git_add_files os file_paths repo_path max_command_length w in
  let chunks := add_chunks file_paths max_command_length in
  (r = Returned true
   /\ cmds = map (fun c => GitAdd c Done) chunks
   /\ staged cmds = file_paths)
  \/ (exists done c o rest,
        chunks = done ++ c :: rest /\ o <> Done
        /\ cmds = map (fun c => GitAdd c Done) done ++ [GitAdd c o]
        /\ staged cmds = List.concat done
        /\ r = match o with
               | CalledProcessError => Returned false
               | _ => Raised
               end).
Proof. apply batch_add_outcome. Qed.

Lemma commits_adds (o : Outcome) (chunks : list (list string)) :
  commits (map (fun c => GitAdd c o) chunks) = [].
Proof. unfold commits. induction chunks; simpl; auto. Qed.

Lemma touched_adds (o : Outcome) (chunks : list (list string)) (c : Cmd) :
  In c (map (fun c => GitAdd c o) chunks) -> touched c = None.
Proof. rewrite in_map_iff. intros [x [<- _]]. reflexivity. Qed.

Lemma staged_failed_add (c : list string) (o : Outcome) :
  o <> Done -> staged [GitAdd c o] = [].
Proof. intros H. destruct o; [contradiction | |]; reflexivity. Qed.

Section ExecuteBatch.

Context {W : Type} (os : OS W).

(** After every chunk was staged, one commit command follows. *)
Lemma staged_then_commit (chunks : list (list string)) (file : string)
  (o : Outcome) :
  let cmds := map (fun c => GitAdd c Done) chunks ++ [GitCommit file o] in
  (forall c, In c cmds -> touched c = None)
  /\ commits cmds = [(file, o)]
  /\ staged cmds = List.concat chunks.
Proof.
  cbv zeta. split; [|split].
  - intros c Hin. apply in_app_or in Hin. destruct Hin as [Hin|[<-|[]]].
    + now apply touched_adds in Hin.
    + reflexivity.
  - now rewrite commits_app, commits_adds.
  - rewrite staged_app, staged_all_done. unfold staged. simpl.
    now rewrite !app_nil_r.
Qed.

(** The [try] block: it commits only after staging every token, at most
    once, and succeeds exactly when that commit does. *)
Lemma try_add_commit_outcome (all_paths : list string)
  (temp_commit_file repo_path : string) (w : W) :
  let '(success, cmds, _) :=
    try_add_commit os all_paths temp_commit_file repo_path w in
  (forall c, In c cmds -> touched c = None)
  /\ ((commits cmds = [] /\ success = false)
      \/ (exists o, commits cmds = [(temp_commit_file, o)]
                    /\ staged cmds = all_paths
                    /\ (success = true <-> o = Done))).
Proof.
  unfold try_add_commit.
  pose proof (batch_add_outcome os all_paths repo_path
                default_max_command_length w) as H.
  destruct (batch_git_add_files os all_paths repo_path
              default_max_command_length w) as [[r cmds] w1].
  cbv zeta in H.
  destruct H as [(-> & -> & Hst)|(done & c & o & rest & Hc & Ho & -> & Hst & ->)].
  - rewrite staged_all_done in Hst.
    assert (forall o,
              let cmds := map (fun c => GitAdd c Done)
                              (add_chunks all_paths default_max_command_length)
                          ++ [GitCommit temp_commit_file o] in
              (forall c, In c cmds -> touched c = None)
              /\ exists o', commits cmds = [(temp_commit_file, o')]
                            /\ staged cmds = all_paths /\ o' = o) as Hc.
    { intros o. cbv zeta.
      destruct (staged_then_commit
                  (add_chunks all_paths default_max_command_length)
                  temp_commit_file o) as (T1 & T2 & T3).
      split; [exact T1|]. exists o. rewrite T3, Hst. tauto. }
    destruct (run_git_commit os temp_commit_file w1) as [[| |] w2].
    + destruct (Hc Done) as (T1 & o' & T2 & T3 & ->).
      split; [exact T1|]. right. exists Done. tauto.
    + destruct (Hc CalledProcessError) as (T1 & o' & T2 & T3 & ->).
      split; [exact T1|]. right. exists CalledProcessError.
      split; [exact T2|]. split; [exact T3|]. split; discriminate.
    + destruct (Hc OtherError) as (T1 & o' & T2 & T3 & ->).
      split; [exact T1|]. right. exists OtherError.
      split; [exact T2|]. split; [exact T3|]. split; discriminate.
  - assert ((forall x, In x (map (fun c => GitAdd c Done) done ++ [GitAdd c o])
                       -> touched x = None)
            /\ commits (map (fun c => GitAdd c Done) done ++ [GitAdd c o]) = [])
      as [T1 T2].
    { split.
      - intros x Hx. apply in_app_or in Hx. destruct Hx as [Hx|[<-|[]]].
        + now apply touched_adds in Hx.
        + reflexivity.
      - now rewrite commits_app, commits_adds. }
    destruct o; [contradiction | |]; (split; [exact T1 | left; tauto]).
Qed.

End ExecuteBatch.

Lemma file_cmds_quiet (cmds : list Cmd) :
  (forall c, In c cmds -> touched c <> None) ->
  staged cmds = [] /\ commits cmds = [].
Proof.
  induction cmds as [|c cmds IH]; intros H; [split; reflexivity|].
  destruct IH as [IH1 IH2]; [intros x Hx; apply H; now right|].
  assert (touched c <> None) as Hc by (apply H; now left).
  unfold staged, commits in *. simpl. rewrite IH1, IH2.
  destruct c; simpl in *; try contradiction; split; reflexivity.
Qed.

Section ExecuteOutcome.

Context {W : Type} (os : OS W).

Variables (commit_info_file repo_path : string).

(** The four ways [create_commit_message_file] can end. *)
Lemma message_cases (i n : Z) (w : W) :
  let '(r, cmds, _) :=
    create_commit_message_file os commit_info_file i n w in
  (r = Raised /\ cmds = [])
  \/ (exists m, r = Returned (commit_info_file, m)
                /\ ((n = 1 /\ cmds = [])
                    \/ (n <> 1
                        /\ cmds = [WriteTempFailed
                                     (temp_path commit_info_file i)])))
  \/ (exists m, n <> 1
                /\ r = Returned (temp_path commit_info_file i, m)
                /\ cmds = [WriteTemp (temp_path commit_info_file i) m]).
Proof.
  unfold create_commit_message_file.
  destruct (read_template os commit_info_file w) as [m|]; [|left; tauto].
  destruct (Z.eqb_spec n 1) as [->|Hn].
  - right. left. exists m. tauto.
  - destruct (write_text os _ _ w).
    + right. right. eexists. split; [exact Hn|]. split; reflexivity.
    + right. left. exists m. tauto.
Qed.

Lemma finally_cases (temp_commit_file : string) (w : W) :
  fst (finally_remove os temp_commit_file commit_info_file w) = []
  \/ (temp_commit_file <> commit_info_file
      /\ fst (finally_remove os temp_commit_file commit_info_file w)
         = [RemoveTemp temp_commit_file]).
Proof.
  unfold finally_remove.
  destruct (String.eqb_spec temp_commit_file commit_info_file) as [->|Hne];
    simpl; [now left|].
  destruct (path_exists os temp_commit_file w); simpl; [right | left]; tauto.
Qed.

(** One call of [execute_git_add_commit], case by case. *)
Lemma execute_outcome (files : list FileEntry)
  (all_git_files : list FileEntry) (i n : Z) (w : W) :
  let '(r, cmds, w') :=
    execute_git_add_commit os files commit_info_file repo_path
      all_git_files i n w in
  (files = [] -> r = Returned false /\ cmds = [NoFiles] /\ w' = w)
  /\ (files <> [] ->
      (forall c p, In c cmds -> touched c = Some p ->
                   p = temp_path commit_info_file i)
      /\ (n = 1 -> forall c, In c cmds -> touched c = None)
      /\ ((commits cmds = [] /\ r <> Returned true)
          \/ (exists file o,
                commits cmds = [(file, o)]
                /\ (file = commit_info_file
                    \/ file = temp_path commit_info_file i)
                /\ (n = 1 -> file = commit_info_file)
                /\ staged cmds = all_paths_of files repo_path all_git_files
                /\ (r = Returned true <-> o = Done)))).
Proof.
  unfold execute_git_add_commit, all_paths_of.
  destruct files as [|f0 fl]; simpl negb; cbv iota.
  { split; [tauto | congruence]. }
  set (files := f0 :: fl).
  pose proof (message_cases i n w) as Hm.
  destruct (create_commit_message_file os commit_info_file i n w)
    as [[[[temp msg]|] evs0] w0].
  2:{ destruct Hm as [[_ ->]|[(m & Hr & _)|(m & _ & Hr & _)]];
        try discriminate.
      split; [discriminate|]. intros _.
      split; [intros c p []|]. split; [intros _ c []|].
      left. split; [reflexivity | discriminate]. }
  destruct (simplify_batch_files files repo_path all_git_files) as [sf sd].
  pose proof (try_add_commit_outcome os (sf ++ sd) temp repo_path w0) as Ht.
  destruct (try_add_commit os (sf ++ sd) temp repo_path w0)
    as [[success evs1] w1].
  destruct Ht as [Hquiet Hcommit].
  pose proof (finally_cases temp w1) as Hf.
  destruct (finally_remove os temp commit_info_file w1) as [evs2 w2].
  simpl fst in Hf. split; [discriminate|]. intros _.
  assert ((temp = commit_info_file
           /\ ((n = 1 /\ evs0 = [])
               \/ (n <> 1
                   /\ evs0 = [WriteTempFailed (temp_path commit_info_file i)])))
          \/ (n <> 1 /\ temp = temp_path commit_info_file i
              /\ evs0 = [WriteTemp (temp_path commit_info_file i) msg]))
    as Hmsg.
  { destruct Hm as [[Hr _]|[(m & Hr & Hc)|(m & Hn & Hr & Hc)]];
      [discriminate | |]; inversion Hr; subst; tauto. }
  assert (forall c, In c evs0 -> touched c
                                 = Some (temp_path commit_info_file i))
    as H0.
  { intros c Hc.
    destruct Hmsg as [[_ [[_ ->]|[_ ->]]]|(_ & _ & ->)];
      try destruct Hc as [<-|[]]; try destruct Hc; reflexivity. }
  assert (forall c, In c evs2 -> touched c
                                 = Some (temp_path commit_info_file i)
                                 /\ n <> 1)
    as H2.
  { intros c Hc. destruct Hf as [->|[Hne ->]]; [destruct Hc|].
    destruct Hc as [<-|[]]. simpl.
    destruct Hmsg as [[-> _]|(Hn & -> & _)]; [contradiction | tauto]. }
  assert (staged (evs0 ++ evs1 ++ evs2) = staged evs1
          /\ commits (evs0 ++ evs1 ++ evs2) = commits evs1) as [Hst Hco].
  { destruct (file_cmds_quiet evs0) as [A1 A2].
    { intros c Hc. rewrite (H0 c Hc). discriminate. }
    destruct (file_cmds_quiet evs2) as [B1 B2].
    { intros c Hc. destruct (H2 c Hc) as [E _]. rewrite E. discriminate. }
    rewrite !staged_app, !commits_app, A1, A2, B1, B2.
    now rewrite !app_nil_r. }
  rewrite Hst, Hco. split; [|split].
  - intros c p Hc Hp. rewrite !in_app_iff in Hc.
    destruct Hc as [Hc|[Hc|Hc]].
    + rewrite (H0 c Hc) in Hp. congruence.
    + rewrite (Hquiet c Hc) in Hp. discriminate.
    + destruct (H2 c Hc) as [E _]. rewrite E in Hp. congruence.
  - intros Hn c Hc. rewrite !in_app_iff in Hc.
    destruct Hc as [Hc|[Hc|Hc]].
    + destruct Hmsg as [[_ [[_ ->]|[Hn' _]]]|(Hn' & _)];
        [destruct Hc | contradiction | contradiction].
    + now apply Hquiet.
    + destruct (H2 c Hc) as [_ Hn']. contradiction.
  - destruct Hcommit as [[Hc Hs]|(o & Hc & Hs & Hiff)].
    + left. split; [exact Hc|]. subst success. discriminate.
    + right. exists temp, o. split; [exact Hc|].
      split; [destruct Hmsg as [[-> _]|(_ & -> & _)]; tauto|].
      split; [intros Hn; destruct Hmsg as [[-> _]|(Hn' & _)];
              [reflexivity | contradiction]|].
      split; [exact Hs|].
      rewrite <- Hiff. split; [congruence | intros ->; reflexivity].
Qed.

End ExecuteOutcome.

Section ExecuteOrder.

Context {W : Type} (os : OS W).

Variables (commit_info_file repo_path : string).



End ExecuteOrder.


Example commands_of_a_batch_in_order :
  snd (fst (execute_git_add_commit test_os [mkFile "b/y" 2 "b"]
              "commit-info.txt" "repo" scenario_E 2 3
              (template_world true 0 0)))
  = [WriteTemp "commit-info.txt.batch2" ("fix" ++ nl ++ " (批次 2/3)")%string;
     GitAdd ["b"] Done;
     GitCommit "commit-info.txt.batch2" Done;
     RemoveTemp "commit-info.txt.batch2"].
Proof. reflexivity. Qed.

(** ** The loop over the plan *)

Section LoopInduction.

Context {W : Type} (os : OS W).

Variables (commit_info_file repo_path : string) (git_files : list FileEntry).
Variable total_batches : Z.

(** Induction over the trace of the loop: each batch contributes a block
    made of its start, its commands and its verdict; the loop goes on
    after a success and stops otherwise. *)
Lemma run_batches_trace_ind (Q : Z -> list Batch -> list Event -> Prop) :
  (forall i, Q i [] []) ->
  (forall i b rest cmds w w',
     execute_git_add_commit os b commit_info_file repo_path git_files i
       total_batches w = (Returned false, cmds, w') ->
     Q i (b :: rest) (BatchStart i :: map (InBatch i) cmds ++ [BatchFailed i]))
  ->
  (forall i b rest cmds w w',
     execute_git_add_commit os b commit_info_file repo_path git_files i
       total_batches w = (Raised, cmds, w') ->
     Q i (b :: rest) (BatchStart i :: map (InBatch i) cmds)) ->
  (forall i b rest cmds w w' evs,
     execute_git_add_commit os b commit_info_file repo_path git_files i
       total_batches w = (Returned true, cmds, w') ->
     Q (i + 1) rest evs ->
     Q i (b :: rest) (BatchStart i :: map (InBatch i) cmds ++ BatchOk i :: evs))
  ->
  forall batches i succ w,
    Q i batches
      (snd (fst (run_batches os batches i commit_info_file repo_path
                   git_files total_batches succ w))).
Proof.
  intros Hnil Hfail Hraise Hok batches.
  induction batches as [|b rest IH]; intros i succ w; [apply Hnil|].
  cbn [run_batches].
  destruct (execute_git_add_commit os b commit_info_file repo_path git_files
              i total_batches w) as [[[[|]|] cmds] w1] eqn:E.
  - specialize (IH (i + 1) (succ + 1) w1).
    destruct (run_batches os rest (i + 1) commit_info_file repo_path
                git_files total_batches (succ + 1) w1) as [[r evs] w2].
    simpl in *. eapply Hok; [exact E | exact IH].
  - simpl. eapply Hfail. exact E.
  - simpl. eapply Hraise. exact E.
Qed.

End LoopInduction.

Lemma zseq_length (i : Z) (k : nat) : List.length (zseq i k) = k.
Proof. revert i. induction k; intros i; simpl; [reflexivity | now rewrite IHk]. Qed.

Lemma zseq_In (i : Z) (k : nat) (j : Z) :
  In j (zseq i k) <-> i <= j < i + Z.of_nat k.
Proof.
  revert i. induction k as [|k IH]; intros i.
  - simpl. lia.
  - cbn [zseq In]. rewrite IH, Nat2Z.inj_succ. lia.
Qed.

Lemma starts_block (i : Z) (cmds : list Cmd) (tail : list Event) :
  starts (BatchStart i :: map (InBatch i) cmds ++ tail) = i :: starts tail.
Proof.
  unfold starts. simpl. f_equal. rewrite flat_map_app.
  assert (flat_map (fun e => match e with BatchStart j => [j] | _ => [] end)
                   (map (InBatch i) cmds) = []) as ->
    by (induction cmds; simpl; auto).
  reflexivity.
Qed.

Lemma oks_block (i : Z) (cmds : list Cmd) (tail : list Event) :
  oks (BatchStart i :: map (InBatch i) cmds ++ tail) = oks tail.
Proof.
  unfold oks. simpl. rewrite flat_map_app.
  assert (flat_map (fun e => match e with BatchOk j => [j] | _ => [] end)
                   (map (InBatch i) cmds) = []) as ->
    by (induction cmds; simpl; auto).
  reflexivity.
Qed.

(** The batches are attempted in plan order without gaps, and every
    batch attempted before the last attempted one succeeded. *)
Lemma run_batches_order {W : Type} (os : OS W)
  (commit_info_file repo_path : string) (git_files : list FileEntry)
  (total_batches : Z) (batches : list Batch) (i succ : Z) (w : W) :
  let evs := snd (fst (run_batches os batches i commit_info_file repo_path
                         git_files total_batches succ w)) in
  exists k k',
    starts evs = zseq i k /\ oks evs = zseq i k'
    /\ (k' <= k <= S k')%nat /\ (k <= List.length batches)%nat.
Proof.
  cbv zeta. revert batches i succ w.
  apply (run_batches_trace_ind os commit_info_file repo_path git_files
           total_batches
           (fun i batches evs =>
              exists k k',
                starts evs = zseq i k /\ oks evs = zseq i k'
                /\ (k' <= k <= S k')%nat /\ (k <= List.length batches)%nat)).
  - intros i. exists 0%nat, 0%nat. simpl. repeat split; lia.
  - intros i b rest cmds w w' _. exists 1%nat, 0%nat.
    rewrite starts_block, oks_block. simpl. repeat split; lia.
  - intros i b rest cmds w w' _. exists 1%nat, 0%nat.
    rewrite <- (app_nil_r (map _ _)), starts_block, oks_block.
    simpl. repeat split; lia.
  - intros i b rest cmds w w' evs _ (k & k' & Hs & Ho & Hk & Hlen).
    exists (S k), (S k').
    rewrite starts_block, oks_block. unfold starts, oks in *. simpl.
    rewrite Hs, Ho. repeat split; lia.
Qed.

Lemma cmds_of_block (j i : Z) (cmds : list Cmd) (tail : list Event) :
  cmds_of j (BatchStart i :: map (InBatch i) cmds ++ tail)
  = (if i =? j then cmds else []) ++ cmds_of j tail.
Proof.
  unfold cmds_of. simpl. rewrite flat_map_app. f_equal.
  induction cmds as [|c cmds IH]; simpl.
  - now destruct (i =? j).
  - rewrite IH. now destruct (i =? j).
Qed.

Lemma cmds_of_app (j : Z) (a b : list Event) :
  cmds_of j (a ++ b) = cmds_of j a ++ cmds_of j b.
Proof. unfold cmds_of. apply flat_map_app. Qed.

Lemma cmds_of_other (j : Z) (evs : list Event) :
  (forall c, ~ In (InBatch j c) evs) -> cmds_of j evs = [].
Proof.
  unfold cmds_of. induction evs as [|e evs IH]; intros H; [reflexivity|].
  simpl. rewrite IH by (intros c Hc; apply (H c); now right).
  destruct e; try reflexivity.
  destruct (Z.eqb_spec i j) as [->|_]; [|reflexivity].
  exfalso. apply (H c). now left.
Qed.

Lemma in_commits (cmds : list Cmd) (file : string) (o : Outcome) :
  In (GitCommit file o) cmds -> In (file, o) (commits cmds).
Proof.
  intros H. unfold commits. apply in_flat_map.
  exists (GitCommit file o). split; [exact H | now left].
Qed.

Section LoopFacts.

Context {W : Type} (os : OS W).

Variables (commit_info_file repo_path : string) (git_files : list FileEntry).
Variable total_batches : Z.

(** Every file written or removed inside the loop is the disposable
    file of the batch at hand. *)
Lemma run_batches_touched (batches : list Batch) (i succ : Z) (w : W) :
  forall e p,
    In e (snd (fst (run_batches os batches i commit_info_file repo_path
                      git_files total_batches succ w))) ->
    touched_path e = Some p ->
    exists j, i <= j < i + Z.of_nat (List.length batches)
              /\ p = temp_path commit_info_file j.
Proof.
  revert batches i succ w.
  assert (forall i b cmds r w w' c p,
            execute_git_add_commit os b commit_info_file repo_path git_files
              i total_batches w = (r, cmds, w') ->
            In c cmds -> touched c = Some p ->
            p = temp_path commit_info_file i) as Hexec.
  { intros i b cmds r w w' c p E Hc Hp.
    pose proof (execute_outcome os commit_info_file repo_path b git_files
                  i total_batches w) as H.
    rewrite E in H. destruct H as [Hnil Hcons].
    destruct b as [|f0 fl].
    - destruct Hnil as (_ & -> & _); [reflexivity|].
      destruct Hc as [<-|[]]. discriminate.
    - destruct Hcons as (H & _); [discriminate|]. now apply (H c). }
  assert (forall i b rest cmds r w w' tail e p,
            execute_git_add_commit os b commit_info_file repo_path git_files
              i total_batches w = (r, cmds, w') ->
            (forall e, In e tail -> touched_path e = Some p ->
               exists j, i + 1 <= j < i + 1 + Z.of_nat (List.length rest)
                         /\ p = temp_path commit_info_file j) ->
            In e (BatchStart i :: map (InBatch i) cmds ++ tail) ->
            touched_path e = Some p ->
            exists j, i <= j < i + Z.of_nat (List.length (b :: rest))
                      /\ p = temp_path commit_info_file j) as Hblock.
  { intros i b rest cmds r w w' tail e p E Htail He Hp.
    cbn [List.length]. rewrite Nat2Z.inj_succ.
    apply in_batch_events in He.
    destruct He as [->|[[c [Hc ->]]|He]]; [discriminate | |].
    - exists i. split; [lia|]. eapply Hexec; eauto.
    - destruct (Htail e He Hp) as [j [Hj ->]]. exists j. split; [lia|].
      reflexivity. }
  apply (run_batches_trace_ind os commit_info_file repo_path git_files
           total_batches
           (fun i batches evs =>
              forall e p, In e evs -> touched_path e = Some p ->
                exists j, i <= j < i + Z.of_nat (List.length batches)
                          /\ p = temp_path commit_info_file j)).
  - intros i e p [].
  - intros i b rest cmds w w' E e p He Hp.
    eapply (Hblock i b rest cmds _ w w' [BatchFailed i]); eauto.
    intros x [<-|[]] Hx. discriminate.
  - intros i b rest cmds w w' E e p He Hp.
    rewrite <- (app_nil_r (map _ _)) in He.
    eapply (Hblock i b rest cmds _ w w' []); eauto.
    intros x [].
  - intros i b rest cmds w w' evs E IH e p He Hp.
    eapply (Hblock i b rest cmds _ w w' (BatchOk i :: evs)); eauto.
    intros x [<-|Hx] Hx'; [discriminate|]. now apply (IH x).
Qed.

(** A batch reported successful staged exactly its tokens and was
    committed once, successfully. *)
Lemma run_batches_staged (batches : list Batch) (i succ : Z) (w : W) :
  let evs := snd (fst (run_batches os batches i commit_info_file repo_path
                         git_files total_batches succ w)) in
  (forall e, In e evs -> exists j, batch_of e = Some j /\ i <= j)
  /\ (forall k b,
        nth_error batches k = Some b ->
        In (BatchOk (i + Z.of_nat k)) evs ->
        staged (cmds_of (i + Z.of_nat k) evs)
        = all_paths_of b repo_path git_files
        /\ exists file,
             commits (cmds_of (i + Z.of_nat k) evs) = [(file, Done)]
             /\ (file = commit_info_file
                 \/ file = temp_path commit_info_file (i + Z.of_nat k))).
Proof.
  cbv zeta. revert batches i succ w.
  assert (forall i cmds tail,
            (forall e, In e tail -> exists j, batch_of e = Some j /\ i <= j) ->
            forall e, In e (BatchStart i :: map (InBatch i) cmds ++ tail) ->
                      exists j, batch_of e = Some j /\ i <= j) as Hrange.
  { intros i cmds tail Ht e He. apply in_batch_events in He.
    destruct He as [->|[[c [_ ->]]|He]];
      [exists i; simpl; split; [reflexivity | lia]
      |exists i; simpl; split; [reflexivity | lia]
      |now apply Ht]. }
  assert (forall i cmds tail j,
            j <> i ->
            In (BatchOk j) (BatchStart i :: map (InBatch i) cmds ++ tail) ->
            In (BatchOk j) tail) as Hlater.
  { intros i cmds tail j Hne He. apply in_batch_events in He.
    destruct He as [He|[[c [_ He]]|He]]; [discriminate | discriminate | exact He]. }
  apply (run_batches_trace_ind os commit_info_file repo_path git_files
           total_batches
           (fun i batches evs =>
              (forall e, In e evs -> exists j, batch_of e = Some j /\ i <= j)
              /\ (forall k b,
                    nth_error batches k = Some b ->
                    In (BatchOk (i + Z.of_nat k)) evs ->
                    staged (cmds_of (i + Z.of_nat k) evs)
                    = all_paths_of b repo_path git_files
                    /\ exists file,
                         commits (cmds_of (i + Z.of_nat k) evs)
                         = [(file, Done)]
                         /\ (file = commit_info_file
                             \/ file = temp_path commit_info_file
                                         (i + Z.of_nat k))))).
  - intros i. split; [intros e [] | intros k b _ []].
  - intros i b rest cmds w w' E. split.
    + apply Hrange. intros e [<-|[]]. exists i. simpl. split; [reflexivity | lia].
    + intros k b' _ Hin. exfalso. apply in_batch_events in Hin.
      destruct Hin as [H|[[c [_ H]]|[H|[]]]]; discriminate.
  - intros i b rest cmds w w' E. split.
    + rewrite <- (app_nil_r (map _ _)). apply Hrange. intros e [].
    + intros k b' _ Hin. exfalso. rewrite <- (app_nil_r (map _ _)) in Hin.
      apply in_batch_events in Hin.
      destruct Hin as [H|[[c [_ H]]|[]]]; discriminate.
  - intros i b rest cmds w w' evs E [IHr IHs]. split.
    + apply Hrange. intros e [<-|He].
      * exists i. simpl. split; [reflexivity | lia].
      * destruct (IHr e He) as [j [Hj Hle]]. exists j. split; [exact Hj | lia].
    + intros k b' Hnth Hin. rewrite cmds_of_block. destruct k as [|k].
      * simpl in Hnth. inversion Hnth; subst b'. clear Hnth.
        rewrite Z.add_0_r in *. rewrite Z.eqb_refl.
        assert (cmds_of i (BatchOk i :: evs) = []) as ->.
        { apply cmds_of_other. intros c [He|He]; [discriminate|].
          destruct (IHr _ He) as [j [Hj Hle]]. simpl in Hj.
          inversion Hj. lia. }
        rewrite app_nil_r.
        pose proof (execute_outcome os commit_info_file repo_path b git_files
                      i total_batches w) as H.
        rewrite E in H. destruct H as [Hnil Hcons].
        destruct b as [|f0 fl].
        { destruct Hnil as (Hr & _); [reflexivity | discriminate]. }
        destruct Hcons as (_ & _ & [[_ Hr]|(file & o & Hc & Hfile & _ & Hst & Hiff)]);
          [discriminate | congruence |].
        assert (o = Done) as -> by (now apply Hiff).
        split; [exact Hst|]. exists file. tauto.
      * simpl in Hnth.
        assert (i + Z.of_nat (S k) = i + 1 + Z.of_nat k) as Hidx
          by (rewrite Nat2Z.inj_succ; lia).
        rewrite Hidx in *.
        destruct (Z.eqb_spec i (i + 1 + Z.of_nat k)) as [Heq|Hne]; [lia|].
        simpl app.
        assert (In (BatchOk (i + 1 + Z.of_nat k)) evs) as Hin'.
        { apply Hlater in Hin; [|lia]. destruct Hin as [H|H]; [|exact H].
          inversion H. lia. }
        now apply IHs.
Qed.

End LoopFacts.

(** ** A whole run *)

Section RunFacts.

Context {W : Type} (os : OS W).

Lemma cleanup_paths (commit_info_file : string) (count : nat) (i : Z)
  (w : W) (e : Event) :
  In e (fst (cleanup_loop os commit_info_file i count w)) ->
  exists j, i <= j < i + Z.of_nat count
            /\ e = Cleanup (temp_path commit_info_file j).
Proof.
  revert i w. induction count as [|count IH]; intros i w; [intros []|].
  cbn [cleanup_loop]. rewrite Nat2Z.inj_succ.
  destruct (path_exists os _ w).
  - specialize (IH (i + 1) (os_remove os (temp_path commit_info_file i) w)).
    destruct (cleanup_loop os commit_info_file (i + 1) count _) as [evs2 w2].
    simpl in *. intros [<-|H].
    + exists i. split; [lia | reflexivity].
    + destruct (IH H) as [j [Hj ->]]. exists j. split; [lia | reflexivity].
  - specialize (IH (i + 1) w).
    destruct (cleanup_loop os commit_info_file (i + 1) count w) as [evs2 w2].
    simpl in *. intros H.
    destruct (IH H) as [j [Hj ->]]. exists j. split; [lia | reflexivity].
Qed.

(** The trace of [run_plan]: the trace of the loop, then pushes and
    clean-ups of disposable files of the plan. *)
Lemma run_plan_trailer (batches : list Batch)
  (commit_info_file repo_path : string) (git_files : list FileEntry) (w : W) :
  let n := Z.of_nat (List.length batches) in
  exists trailer,
    fst (run_plan os batches commit_info_file repo_path git_files w)
    = snd (fst (run_batches os batches 1 commit_info_file repo_path
                  git_files n 0 w)) ++ trailer
    /\ (forall e, In e trailer ->
          (exists o, e = Push o)
          \/ (exists j, 1 <= j <= n
                        /\ e = Cleanup (temp_path commit_info_file j))).
Proof.
  cbv zeta. unfold run_plan.
  destruct (run_batches os batches 1 commit_info_file repo_path git_files
              (Z.of_nat (List.length batches)) 0 w) as [[[s|] evs] w1].
  2:{ exists []. simpl. split; [now rewrite app_nil_r | intros e []]. }
  set (n := Z.of_nat (List.length batches)).
  assert (forall w2 e,
            In e (fst (cleanup_temp_files os commit_info_file n w2)) ->
            exists j, 1 <= j <= n
                      /\ e = Cleanup (temp_path commit_info_file j)) as Hc.
  { intros w2 e He. unfold cleanup_temp_files in He.
    apply cleanup_paths in He. destruct He as [j [Hj ->]].
    exists j. split; [|reflexivity]. unfold n in *.
    rewrite Nat2Z.id in Hj. lia. }
  destruct (s =? n).
  - unfold execute_git_push.
    destruct (run_git_push os w1) as [o w2].
    assert (exists evp, (let '(_, evs_push, w') :=
                           match o with
                           | Done => (true, [Push Done], w2)
                           | _ => (false, [Push o], w2)
                           end in (evs_push, w')) = (evp, w2)
                        /\ evp = [Push o]) as (evp & -> & ->)
      by (destruct o; eexists; split; reflexivity).
    specialize (Hc w2).
    destruct (cleanup_temp_files os commit_info_file n w2) as [evs3 w3].
    simpl in *. exists (Push o :: evs3). split; [reflexivity|].
    intros e [<-|He]; [left; now exists o | right; now apply Hc].
  - specialize (Hc w1).
    destruct (cleanup_temp_files os commit_info_file n w1) as [evs3 w3].
    simpl in *. exists evs3. split; [reflexivity|].
    intros e He. right. now apply Hc.
Qed.

End RunFacts.

Lemma starts_trailer (evs trailer : list Event) :
  (forall e, In e trailer -> batch_of e = None) ->
  starts (evs ++ trailer) = starts evs /\ oks (evs ++ trailer) = oks evs.
Proof.
  intros H. unfold starts, oks. rewrite !flat_map_app.
  assert (forall (g : Event -> list Z),
            (forall e, batch_of e = None -> g e = []) ->
            flat_map g trailer = []) as Hnil.
  { intros g Hg. induction trailer as [|e t IH]; [reflexivity|].
    simpl. rewrite (Hg e) by (apply H; now left).
    apply IH. intros x Hx. apply H. now right. }
  rewrite !Hnil; [now rewrite !app_nil_r | |];
    intros e He; destruct e; (reflexivity || discriminate).
Qed.

(** In a run over a plan the batches are attempted in plan order,
    numbered from 1 without gaps, never more than the plan holds, and
    every attempted batch except possibly the last one attempted was
    reported successful. *)
Theorem run_plan_attempts_in_order {W : Type} (os : OS W)
  (batches : list Batch) (commit_info_file repo_path : string)
  (git_files : list FileEntry) (w : W) :
  let evs := fst (run_plan os batches commit_info_file repo_path git_files w) in
  exists k k',
    starts evs = zseq 1 k /\ oks evs = zseq 1 k'
    /\ (k' <= k <= S k')%nat /\ (k <= List.length batches)%nat.
Proof.
  cbv zeta.
  destruct (run_plan_trailer os batches commit_info_file repo_path
              git_files w) as (trailer & -> & Ht).
  destruct (starts_trailer
              (snd (fst (run_batches os batches 1 commit_info_file repo_path
                           git_files (Z.of_nat (List.length batches)) 0 w)))
              trailer) as [-> ->].
  - intros e He. destruct (Ht e He) as [[o ->]|[j [_ ->]]]; reflexivity.
  - apply run_batches_order.
Qed.

(** A run never writes or removes the template: every file written,
    attempted to be written or removed during a run over a plan of [N]
    batches is a disposable file [<template>.batch<j>] with
    [1 <= j <= N], which is not the template. *)
Theorem run_plan_spares_template {W : Type} (os : OS W)
  (batches : list Batch) (commit_info_file repo_path : string)
  (git_files : list FileEntry) (w : W) :
  forall e p,
    In e (fst (run_plan os batches commit_info_file repo_path git_files w)) ->
    touched_path e = Some p ->
    p <> commit_info_file
    /\ exists j, 1 <= j <= Z.of_nat (List.length batches)
                 /\ p = temp_path commit_info_file j.
Proof.
  intros e p He Hp.
  assert (exists j, 1 <= j <= Z.of_nat (List.length batches)
                    /\ p = temp_path commit_info_file j) as [j [Hj ->]].
  { destruct (run_plan_trailer os batches commit_info_file repo_path
                git_files w) as (trailer & E & Ht).
    rewrite E in He. apply in_app_or in He. destruct He as [He|He].
    - destruct (run_batches_touched os commit_info_file repo_path git_files
                  _ batches 1 0 w e p He Hp) as [j [Hj ->]].
      exists j. split; [lia | reflexivity].
    - destruct (Ht e He) as [[o ->]|[j [Hj ->]]]; [discriminate|].
      simpl in Hp. inversion Hp. now exists j. }
  split; [apply temp_path_fresh | now exists j].
Qed.

Lemma run_plan_spares_template_witness :
  "commit-info.txt.batch2" <> "commit-info.txt".
Proof.
  apply (run_plan_spares_template test_os
           (create_batches scenario_E default_max_batch_size)
           "commit-info.txt" "repo" scenario_E (template_world true 0 0)
           (InBatch 2 (RemoveTemp "commit-info.txt.batch2"))
           "commit-info.txt.batch2").
  - vm_compute. do 10 right. left. reflexivity.
  - reflexivity.
Defined.

(** End to end: in a run over a plan, every batch reported successful
    had exactly the tokens of its simplified form staged, in order, and
    was committed exactly once, successfully, with the template or its
    own disposable file as message file. *)
Theorem run_plan_successful_batch {W : Type} (os : OS W)
  (batches : list Batch) (commit_info_file repo_path : string)
  (git_files : list FileEntry) (w : W) (k : nat) (b : Batch) :
  let evs := fst (run_plan os batches commit_info_file repo_path git_files w) in
  let i := 1 + Z.of_nat k in
  nth_error batches k = Some b ->
  In (BatchOk i) evs ->
  staged (cmds_of i evs) = all_paths_of b repo_path git_files
  /\ exists file,
       commits (cmds_of i evs) = [(file, Done)]
       /\ (file = commit_info_file \/ file = temp_path commit_info_file i).
Proof.
  cbv zeta. intros Hnth Hin.
  destruct (run_plan_trailer os batches commit_info_file repo_path
              git_files w) as (trailer & E & Ht).
  rewrite E in *. clear E.
  assert (cmds_of (1 + Z.of_nat k) trailer = []) as Hnone.
  { apply cmds_of_other. intros c Hc.
    destruct (Ht _ Hc) as [[o H]|[j [_ H]]]; discriminate. }
  rewrite cmds_of_app, Hnone, app_nil_r.
  apply (run_batches_staged os commit_info_file repo_path git_files
           (Z.of_nat (List.length batches)) batches 1 0 w); [exact Hnth|].
  apply in_app_or in Hin. destruct Hin as [Hin|Hin]; [exact Hin|].
  destruct (Ht _ Hin) as [[o H]|[j [_ H]]]; discriminate.
Qed.

Lemma run_plan_successful_batch_witness :
  staged (cmds_of 2
            (fst (run_plan test_os
                    (create_batches scenario_E default_max_batch_size)
                    "commit-info.txt" "repo" scenario_E
                    (template_world true 0 0))))
  = ["b"].
Proof.
  apply (run_plan_successful_batch test_os
           (create_batches scenario_E default_max_batch_size)
           "commit-info.txt" "repo" scenario_E (template_world true 0 0)
           1%nat [mkFile "b/y" 2 "b"]).
  - reflexivity.
  - vm_compute. do 11 right. left. reflexivity.
Defined.

(** A plan of one batch is committed with the template itself: during
    the batch no file is written or removed, and any commit command
    names the template as its message file. *)
Theorem single_batch_uses_template {W : Type} (os : OS W) (b : Batch)
  (commit_info_file repo_path : string) (git_files : list FileEntry) (w : W) :
  let evs := fst (run_plan os [b] commit_info_file repo_path git_files w) in
  (forall i c, In (InBatch i c) evs -> touched c = None)
  /\ (forall i file o, In (InBatch i (GitCommit file o)) evs ->
                       file = commit_info_file).
Proof.
  cbv zeta.
  destruct (run_plan_trailer os [b] commit_info_file repo_path
              git_files w) as (trailer & -> & Ht).
  assert (forall i c,
            In (InBatch i c)
               (snd (fst (run_batches os [b] 1 commit_info_file repo_path
                            git_files (Z.of_nat (List.length [b])) 0 w))
                ++ trailer) ->
            In c (snd (fst (execute_git_add_commit os b commit_info_file
                              repo_path git_files 1 1 w)))) as Hin.
  { intros i c H. apply in_app_or in H. destruct H as [H|H].
    2:{ destruct (Ht _ H) as [[o E]|[j [_ E]]]; discriminate. }
    cbn [run_batches List.length] in H. change (Z.of_nat 1) with 1 in H.
    destruct (execute_git_add_commit os b commit_info_file repo_path
                git_files 1 1 w) as [[[[|]|] cmds] w1]; simpl in *.
    - destruct H as [H|H]; [discriminate|]. apply in_app_or in H.
      destruct H as [H|[H|[]]]; [|discriminate].
      apply in_map_iff in H. destruct H as [x [E Hx]]. now inversion E; subst.
    - destruct H as [H|H]; [discriminate|]. apply in_app_or in H.
      destruct H as [H|[H|[]]]; [|discriminate].
      apply in_map_iff in H. destruct H as [x [E Hx]]. now inversion E; subst.
    - destruct H as [H|H]; [discriminate|].
      apply in_map_iff in H. destruct H as [x [E Hx]]. now inversion E; subst. }
  pose proof (execute_outcome os commit_info_file repo_path b git_files
                1 1 w) as Hex.
  destruct (execute_git_add_commit os b commit_info_file repo_path
              git_files 1 1 w) as [[r cmds] w1]. simpl in Hin.
  destruct Hex as [Hnil Hcons]. split.
  - intros i c H. apply Hin in H. destruct b as [|f0 fl].
    + destruct Hnil as (_ & -> & _); [reflexivity|].
      destruct H as [<-|[]]. reflexivity.
    + destruct Hcons as (_ & Hq & _); [discriminate|]. now apply Hq.
  - intros i file o H. apply Hin in H. destruct b as [|f0 fl].
    + destruct Hnil as (_ & -> & _); [reflexivity|].
      destruct H as [H|[]]. discriminate.
    + apply in_commits in H.
      destruct Hcons as (_ & _ & [[Hc _]|(file' & o' & Hc & _ & Hfile & _)]);
        try discriminate; rewrite Hc in H.
      * destruct H.
      * destruct H as [H|[]]. inversion H; subst. now apply Hfile.
Qed.

(** When no repository is found, or every discovered file exceeds
    50 MiB, [main] stages, commits and pushes nothing and leaves the
    world as it was. *)
Theorem main_nothing_to_commit {W : Type} (os : OS W)
  (commit_info_file : string) (found_repo : option string)
  (discovered : list FileEntry) (w : W) :
  found_repo = None
  \/ (forall f, In f discovered -> 50 * 1024 * 1024 < size f) ->
  main os commit_info_file
    (get_git_files found_repo (fun _ => discovered)) w = ([], w).
Proof.
  intros H. destruct found_repo as [repo_path|]; [|reflexivity].
  destruct H as [H|H]; [discriminate|].
  rewrite get_git_files_filter.
  assert (filter (fun f => size f <=? max_file_size) discovered = []) as ->.
  { induction discovered as [|f l IH]; [reflexivity|]. simpl.
    assert ((size f <=? max_file_size) = false) as ->.
    { apply Z.leb_gt. unfold max_file_size. apply H. now left. }
    apply IH. intros x Hx. apply H. now right. }
  unfold main. simpl.
  destruct (map path (filter _ discovered)); reflexivity.
Qed.

Lemma main_nothing_to_commit_witness :
  main test_os "commit-info.txt"
    (get_git_files (Some "repo")
       (fun _ => [mkFile "huge.bin" (55 * MiB) "."]))
    (template_world true 0 0)
  = ([], template_world true 0 0).
Proof.
  apply (main_nothing_to_commit test_os "commit-info.txt" (Some "repo")
           [mkFile "huge.bin" (55 * MiB) "."] (template_world true 0 0)).
  right. intros f [<-|[]]. vm_compute. reflexivity.
Defined.

(** ** Disposable message files *)

Lemma append_inj_l (a b c : string) : (a ++ b = a ++ c)%string -> b = c.
Proof.
  induction a as [|x a IH]; simpl; intros H; [exact H|].
  inversion H. now apply IH.
Qed.

Lemma to_int_proper (z : Z) :
  Z.to_int z <> Decimal.Pos Decimal.Nil /\ Z.to_int z <> Decimal.Neg Decimal.Nil.
Proof.
  destruct z as [|p|p]; simpl; split; try discriminate;
    intros H; inversion H as [E];
    now apply DecimalPos.Unsigned.to_uint_nonnil in E.
Qed.

Lemma str_of_int_inj (a b : Z) : str_of_int a = str_of_int b -> a = b.
Proof.
  unfold str_of_int. intros H.
  apply DecimalZ.to_int_inj.
  destruct (to_int_proper a) as [A1 A2], (to_int_proper b) as [B1 B2].
  pose proof (NilZero.isi _ A1 A2) as Ea.
  pose proof (NilZero.isi _ B1 B2) as Eb.
  rewrite H in Ea. congruence.
Qed.

(** Two batches share their disposable message file only when they
    have the same number: the files of different batches of a run never
    collide. *)
Theorem temp_path_injective (commit_info_file : string) (i j : Z) :
  temp_path commit_info_file i = temp_path commit_info_file j <-> i = j.
Proof.
  split; [|now intros ->].
  unfold temp_path. intros H.
  apply append_inj_l, append_inj_l in H. now apply str_of_int_inj.
Qed.

(** ** Locating the repository *)

Lemma find_git_repo_snoc (has_git : list string -> bool)
  (parent : list string) (c : string) :
  find_git_repo has_git (parent ++ [c])
  = if has_git (parent ++ [c]) then Some (parent ++ [c])
    else find_git_repo has_git parent.
Proof.
  unfold find_git_repo. rewrite rev_app_distr. simpl.
  now rewrite rev_involutive.
Qed.

Lemma last_case {A} (l : list A) :
  l = [] \/ exists l' x, l = l' ++ [x].
Proof.
  induction l as [|x l' _] using rev_ind; [now left|].
  right. now exists l', x.
Qed.

(** [find_git_repo] returns the nearest directory, from the current one
    upwards, that holds [.git]; the file system root itself is never
    examined, so the answer is never the root, and there is no answer
    exactly when no directory from the current one up to, but not
    including, the root holds [.git]. *)
Theorem find_git_repo_nearest (has_git : list string -> bool)
  (start : list string) :
  match find_git_repo has_git start with
  | Some repo =>
      repo <> [] /\ has_git repo = true
      /\ exists below,
           start = repo ++ below
           /\ forall pre post, below = pre ++ post -> pre <> [] ->
                               has_git (repo ++ pre) = false
  | None =>
      forall a post, start = a ++ post -> a <> [] -> has_git a = false
  end.
Proof.
  induction start as [|c parent IH] using rev_ind.
  - simpl. intros a post H Ha. symmetry in H. apply app_eq_nil in H.
    destruct H. contradiction.
  - rewrite find_git_repo_snoc.
    destruct (has_git (parent ++ [c])) eqn:E.
    + split; [intros H; now apply app_eq_nil in H|]. split; [exact E|].
      exists []. split; [now rewrite app_nil_r|].
      intros pre post H Hpre. symmetry in H. apply app_eq_nil in H.
      destruct H. contradiction.
    + destruct (find_git_repo has_git parent) as [repo|].
      * destruct IH as (Hne & Hgit & below & -> & Hbelow).
        split; [exact Hne|]. split; [exact Hgit|].
        exists (below ++ [c]). split; [now rewrite app_assoc|].
        intros pre post H Hpre.
        destruct (last_case post) as [->|(post' & x & ->)].
        -- rewrite app_nil_r in H. subst pre. now rewrite app_assoc.
        -- rewrite app_assoc in H. apply app_inj_tail in H.
           destruct H as [H _]. now apply (Hbelow pre post').
      * intros a post H Ha.
        destruct (last_case post) as [->|(post' & x & ->)].
        -- rewrite app_nil_r in H. now subst.
        -- rewrite app_assoc in H. apply app_inj_tail in H.
           destruct H as [H _]. now apply (IH a post').
Qed.

(** ** Walking a directory tree *)

Lemma get_files_flat (rel : list string) (entries : list (string * Node)) :
  get_files_from_directory rel (Directory entries)
  = flat_map (item_files rel) entries.
Proof.
  induction entries as [|[name item] entries IH]; [reflexivity|].
  simpl in *. rewrite <- IH. unfold item_files. simpl.
  destruct item; reflexivity.
Qed.

Lemma reaches_nonempty (d : Node) (comps : list string) (sz : Z) :
  reaches d comps sz -> comps <> [].
Proof. intros H. destruct H; discriminate. Qed.

Lemma entry_at_step (rel : list string) (name : string)
  (comps : list string) (sz : Z) :
  comps <> [] ->
  entry_at (rel ++ [name]) comps sz = entry_at rel (name :: comps) sz.
Proof.
  intros H. unfold entry_at.
  replace (removelast (name :: comps)) with (name :: removelast comps)
    by (destruct comps; [contradiction | reflexivity]).
  now rewrite <- !app_assoc.
Qed.

Lemma get_files_reaches (d : Node) :
  forall rel e,
    In e (get_files_from_directory rel d)
    <-> exists comps sz, reaches d comps sz /\ e = entry_at rel comps sz.
Proof.
  induction d as [sz|entries IH|] using Node_tree_ind; intros rel e.
  - simpl. split; [tauto | intros (comps & s & H & _); inversion H].
  - rewrite get_files_flat, in_flat_map. rewrite Forall_forall in IH. split.
    + intros [[name item] [Hit He]]. unfold item_files in He. simpl in He.
      destruct item as [sz|sub|].
      * destruct He as [<-|[]]. exists [name], sz. split.
        -- now apply reach_file.
        -- unfold entry_at. simpl. now rewrite app_nil_r.
      * destruct (String.eqb_spec name ".git") as [->|Hne]; [destruct He|].
        simpl in He. apply (IH _ Hit) in He.
        destruct He as (comps & sz & Hr & ->).
        exists (name :: comps), sz. split.
        -- now apply (reach_dir entries sub).
        -- apply entry_at_step. now apply reaches_nonempty in Hr.
      * destruct He.
    + intros (comps & sz & Hr & ->).
      inversion Hr as [? name ? Hin|? sub name comps' ? Hin Hne Hsub]; subst.
      * exists (name, RegularFile sz). split; [exact Hin|].
        unfold item_files, entry_at. simpl. rewrite app_nil_r. now left.
      * exists (name, Directory sub). split; [exact Hin|].
        unfold item_files. simpl.
        apply String.eqb_neq in Hne. rewrite Hne. simpl.
        apply (IH _ Hin). exists comps', sz. split; [exact Hsub|].
        symmetry. apply entry_at_step. now apply reaches_nonempty in Hsub.
  - simpl. split; [tauto | intros (comps & s & H & _); inversion H].
Qed.

(** What [get_files_from_directory] lists: exactly the regular files
    that can be reached below the directory without entering a
    directory named [.git], each with its own size, its path relative
    to the repository and the relative path of its parent as [dir].
    Nothing inside a [.git] directory is listed, at any depth; a
    regular file that is itself named [.git] is. *)
Theorem get_files_from_directory_lists (rel : list string) (directory : Node)
  (e : FileEntry) :
  In e (get_files_from_directory rel directory)
  <-> exists comps st_size,
        reaches directory comps st_size
        /\ e = mkFile (rel_str (rel ++ comps)) st_size
                      (dir_of_parent (rel ++ removelast comps)).
Proof. apply get_files_reaches. Qed.

Lemma string_app_assoc (a b c : string) :
  ((a ++ b) ++ c = a ++ b ++ c)%string.
Proof. induction a as [|x a IH]; simpl; [reflexivity | now rewrite IH]. Qed.

Lemma concat_snoc (sep : string) (parent : list string) (name : string) :
  parent <> [] ->
  String.concat sep (parent ++ [name])
  = (String.concat sep parent ++ sep ++ name)%string.
Proof.
  induction parent as [|x [|y t] IH]; intros H; [contradiction| |].
  - reflexivity.
  - change (String.concat sep ((x :: y :: t) ++ [name]))
      with (x ++ sep ++ String.concat sep ((y :: t) ++ [name]))%string.
    rewrite IH by discriminate.
    change (String.concat sep (x :: y :: t))
      with (x ++ sep ++ String.concat sep (y :: t))%string.
    now rewrite !string_app_assoc.
Qed.

(** An entry made of a parent path and a name has its [dir] as the
    part of its [path] before the last slash, unless it is in the
    root. *)
Lemma entry_shape (parent : list string) (name : string) (sz : Z) :
  let e := mkFile (rel_str (parent ++ [name])) sz (dir_of_parent parent) in
  (parent = [] /\ dir e = "." /\ path e = name)
  \/ (parent <> [] /\ path e = (dir e ++ "/" ++ name)%string).
Proof.
  cbv zeta. destruct parent as [|x t]; [left; tauto|].
  right. split; [discriminate|]. cbn [path dir].
  change (rel_str ((x :: t) ++ [name]))
    with (String.concat "/" ((x :: t) ++ [name])).
  change (dir_of_parent (x :: t)) with (String.concat "/" (x :: t)).
  apply concat_snoc. discriminate.
Qed.

Lemma entry_at_shape (rel comps : list string) (sz : Z) :
  comps <> [] ->
  exists parent name,
    entry_at rel comps sz
    = mkFile (rel_str (parent ++ [name])) sz (dir_of_parent parent).
Proof.
  intros H. exists (rel ++ removelast comps), (last comps "").
  unfold entry_at. rewrite <- app_assoc.
  now rewrite <- (app_removelast_last "" H).
Qed.

Lemma path_entry_shape (fp : list string) (sz : Z) :
  fp <> [] ->
  exists parent name,
    mkFile (rel_str fp) sz (dir_of_parent (removelast fp))
    = mkFile (rel_str (parent ++ [name])) sz (dir_of_parent parent).
Proof.
  intros H. exists (removelast fp), (last fp "").
  now rewrite <- (app_removelast_last "" H).
Qed.

(** Every discovered entry is filed under its parent directory: it is
    either in the root, with [dir] equal to ["."], or its [path] is its
    [dir], a slash and a name. *)
Theorem discovered_entries_filed_under_parent (root : list (string * Node))
  (filenames : list string) :
  Forall (fun e => dir e = "."
                   \/ exists name, path e = (dir e ++ "/" ++ name)%string)
         (get_git_status_files root filenames).
Proof.
  assert (forall parent name sz,
            let e := mkFile (rel_str (parent ++ [name])) sz
                            (dir_of_parent parent) in
            dir e = "." \/ exists n, path e = (dir e ++ "/" ++ n)%string)
    as Hshape.
  { intros parent name sz.
    destruct (entry_shape parent name sz) as [(_ & H & _)|(_ & H)];
      [now left | right; now exists name]. }
  unfold get_git_status_files. rewrite status_loop. simpl.
  rewrite Forall_forall. intros e He. apply in_flat_map in He.
  destruct He as [filename [_ He]]. unfold status_step in He.
  destruct (lookup (resolve filename) (Directory root))
    as [[sz|entries|]|] eqn:E; rewrite app_nil_l in He.
  - destruct He as [<-|[]].
    destruct (resolve filename) as [|c fp] eqn:R; [discriminate E|].
    destruct (path_entry_shape (c :: fp) sz) as (parent & name & ->);
      [discriminate|].
    apply Hshape.
  - apply get_files_reaches in He. destruct He as (comps & sz & Hr & ->).
    apply reaches_nonempty in Hr.
    destruct (entry_at_shape (resolve filename) comps sz Hr)
      as (parent & name & ->).
    apply Hshape.
  - destruct He as [<-|[]].
    destruct (resolve filename) as [|c fp] eqn:R; [discriminate E|].
    destruct (path_entry_shape (c :: fp) 0) as (parent & name & ->);
      [discriminate|].
    apply Hshape.
  - destruct He as [<-|[]].
    destruct (resolve filename) as [|c fp] eqn:R; [discriminate E|].
    destruct (path_entry_shape (c :: fp) 0) as (parent & name & ->);
      [discriminate|].
    apply Hshape.
Qed.

Lemma status_step_records (root : list (string * Node)) (filename : string)
  (e : FileEntry) :
  In e (status_step (Directory root) [] filename)
  <-> (is_dir root filename = false /\ e = status_entry root filename)
      \/ (exists entries comps st_size,
            lookup (resolve filename) (Directory root)
            = Some (Directory entries)
            /\ reaches (Directory entries) comps st_size
            /\ e = entry_at (resolve filename) comps st_size).
Proof.
  unfold status_step, is_dir, status_entry.
  destruct (lookup (resolve filename) (Directory root))
    as [[sz|entries|]|] eqn:E; rewrite app_nil_l.
  - split.
    + intros [<-|[]]. left. tauto.
    + intros [[_ ->]|(en & comps & s & H & _)]; [now left | discriminate].
  - rewrite get_files_reaches. split.
    + intros (comps & s & Hr & ->). right. now exists entries, comps, s.
    + intros [[H _]|(en & comps & s & H & Hr & ->)]; [discriminate|].
      inversion H; subst. now exists comps, s.
  - split.
    + intros [<-|[]]. left. tauto.
    + intros [[_ ->]|(en & comps & s & H & _)]; [now left | discriminate].
  - split.
    + intros [<-|[]]. left. tauto.
    + intros [[_ ->]|(en & comps & s & H & _)]; [now left | discriminate].
Qed.

(** C9, as the code has it.  The discovered list holds exactly: for
    every pending path that is not an existing directory, one entry,
    with the size of the regular file it names and size 0 when it names
    no regular file; and for every pending path that is an existing
    directory, not the directory itself but the regular files that can
    be reached beneath it without entering a directory named [.git],
    each with its own size.  In particular a pending path that is
    neither an existing directory nor an existing regular file is
    recorded as a FileEntry of size 0; that entry is accepted by the
    50 MiB filter and adds nothing to the aggregate of a batch it is
    in. *)
Theorem pending_paths_recorded (root : list (string * Node))
  (filenames : list string) (repo_path : string) :
  (forall e,
     In e (get_git_status_files root filenames)
     <-> exists filename,
           In filename filenames
           /\ ((is_dir root filename = false
                /\ e = mkFile (rel_str (resolve filename))
                              (match lookup (resolve filename)
                                            (Directory root) with
                               | Some (RegularFile st_size) => st_size
                               | _ => 0
                               end)
                              (dir_of_parent (removelast (resolve filename))))
               \/ (exists entries comps st_size,
                     lookup (resolve filename) (Directory root)
                     = Some (Directory entries)
                     /\ reaches (Directory entries) comps st_size
                     /\ e = mkFile (rel_str (resolve filename ++ comps))
                                   st_size
                                   (dir_of_parent
                                      (resolve filename
                                       ++ removelast comps)))))
  /\ (forall filename,
        In filename filenames ->
        is_dir root filename = false ->
        is_file root filename = false ->
        let e := mkFile (rel_str (resolve filename)) 0
                        (dir_of_parent (removelast (resolve filename))) in
        In e (get_git_status_files root filenames)
        /\ In e (fst (fst (get_git_files (Some repo_path)
                             (fun _ => get_git_status_files root
                                         filenames))))
        /\ (forall b1 b2, total_size (b1 ++ e :: b2) = total_size (b1 ++ b2))).
Proof.
  assert (forall e,
            In e (get_git_status_files root filenames)
            <-> exists filename,
                  In filename filenames
                  /\ ((is_dir root filename = false
                       /\ e = status_entry root filename)
                      \/ (exists entries comps st_size,
                            lookup (resolve filename) (Directory root)
                            = Some (Directory entries)
                            /\ reaches (Directory entries) comps st_size
                            /\ e = entry_at (resolve filename) comps st_size)))
    as Hiff.
  { intros e. unfold get_git_status_files. rewrite status_loop. simpl.
    rewrite in_flat_map. split; intros [filename [Hin H]]; exists filename;
      (split; [exact Hin|]); now apply status_step_records. }
  split; [exact Hiff|].
  intros filename Hin Hdir Hfile e.
  assert (e = status_entry root filename) as He.
  { unfold e, status_entry, is_file in *.
    destruct (lookup (resolve filename) (Directory root)) as [[sz|entries|]|];
      (reflexivity || discriminate). }
  assert (In e (get_git_status_files root filenames)) as Hrec.
  { apply Hiff. exists filename. split; [exact Hin|]. left. tauto. }
  split; [exact Hrec|]. split.
  - rewrite get_git_files_filter. simpl. apply filter_In.
    split; [exact Hrec | reflexivity].
  - intros b1 b2. now apply total_size_drop_zero.
Qed.

Example deleted_file_recorded_with_size_zero :
  get_git_status_files [("kept.txt", RegularFile 3)]
                       ["kept.txt"; "old/gone.txt"]
  = [mkFile "kept.txt" 3 "."; mkFile "old/gone.txt" 0 "old"].
Proof. reflexivity. Qed.

Example nested_directory_expanded_without_git :
  get_git_status_files
    [("new", Directory [("a.txt", RegularFile 1);
                        (".git", Directory [("HEAD", RegularFile 9)]);
                        ("sub", Directory [("b.txt", RegularFile 2)])])]
    ["new/"]
  = [mkFile "new/a.txt" 1 "new"; mkFile "new/sub/b.txt" 2 "new/sub"].
Proof. reflexivity. Qed.

(** ** Reading the status output *)

Lemma chars_app (a b : string) : chars (a ++ b) = chars a ++ chars b.
Proof.
  unfold chars. induction a as [|c a IH]; simpl; [reflexivity | now rewrite IH].
Qed.

Lemma chars_rev_string (s : string) : chars (rev_string s) = rev (chars s).
Proof. unfold chars, rev_string. apply list_ascii_of_string_of_list_ascii. Qed.

Lemma chars_nil (s : string) : chars s = [] -> s = "".
Proof. destruct s; [reflexivity | discriminate]. Qed.

Lemma string_app_nil_r (s : string) : (s ++ "")%string = s.
Proof. induction s as [|c s IH]; simpl; [reflexivity | now rewrite IH]. Qed.

Lemma lstrip_empty_all_space (s : string) :
  lstrip s = "" -> all_space s = true.
Proof.
  unfold all_space, chars. induction s as [|c s IH]; simpl; [reflexivity|].
  destruct (is_space c); [exact IH | discriminate].
Qed.

(** A string that strips to nothing is all whitespace. *)
Lemma strip_empty_all_space (s : string) :
  strip s = "" -> all_space s = true.
Proof.
  unfold strip, rstrip. intros H.
  assert (lstrip (rev_string (lstrip s)) = "") as H1.
  { apply chars_nil. apply (f_equal chars) in H.
    rewrite chars_rev_string in H. simpl in H.
    destruct (chars (lstrip (rev_string (lstrip s)))) as [|c l];
      [reflexivity|].
    simpl in H. symmetry in H. now apply app_cons_not_nil in H. }
  apply lstrip_empty_all_space in H1. unfold all_space in H1.
  rewrite chars_rev_string, forallb_forall in H1.
  destruct (lstrip s) as [|c r] eqn:E; [now apply lstrip_empty_all_space|].
  pose proof (lstrip_head _ _ _ E) as Hc.
  rewrite (H1 c) in Hc; [discriminate|].
  apply -> in_rev. now left.
Qed.

Lemma split_ws_space_prefix (lead s : string) :
  all_space lead = true -> split_ws (lead ++ s) = split_ws s.
Proof.
  unfold all_space, chars, split_ws.
  induction lead as [|c lead IH]; simpl; [reflexivity|].
  rewrite andb_true_iff. intros [Hc Hl]. rewrite Hc.
  specialize (IH Hl). destruct (words (lead ++ s)) as [w ws].
  simpl. exact IH.
Qed.

Lemma words_word_prefix (w s : string) :
  no_space w = true ->
  words (w ++ s) = ((w ++ fst (words s))%string, snd (words s)).
Proof.
  unfold no_space, chars.
  induction w as [|c w IH]; simpl.
  - intros _. now destruct (words s).
  - rewrite andb_true_iff, negb_true_iff. intros [Hc Hw]. rewrite Hc.
    rewrite (IH Hw). reflexivity.
Qed.

Lemma split_ws_word (name : string) :
  no_space name = true -> name <> "" -> split_ws name = [name].
Proof.
  intros Hn Hne. unfold split_ws.
  rewrite <- (string_app_nil_r name) at 1.
  rewrite words_word_prefix by exact Hn. simpl.
  rewrite string_app_nil_r. destruct name; [contradiction | reflexivity].
Qed.

Lemma split_ws_status_name (status sep name : string) :
  no_space status = true -> status <> "" ->
  all_space sep = true -> sep <> "" ->
  no_space name = true -> name <> "" ->
  split_ws (status ++ sep ++ name) = [status; name].
Proof.
  intros Hs Hsne Hsep Hsepne Hn Hnne. unfold split_ws.
  rewrite words_word_prefix by exact Hs.
  destruct sep as [|c sep]; [contradiction|].
  unfold all_space, chars in Hsep. simpl in Hsep.
  apply andb_true_iff in Hsep. destruct Hsep as [Hc Hsep].
  pose proof (split_ws_space_prefix sep name Hsep) as Hrest.
  rewrite (split_ws_word name Hn Hnne) in Hrest. unfold split_ws in Hrest.
  simpl. destruct (words (sep ++ name)) as [w ws]. rewrite Hc. simpl.
  rewrite Hrest, string_app_nil_r.
  destruct status; [contradiction | reflexivity].
Qed.

Lemma lstrip_by_none (p : ascii -> bool) (s : string) :
  forallb (fun c => negb (p c)) (chars s) = true -> lstrip_by p s = s.
Proof.
  destruct s as [|c s]; [reflexivity|]. unfold chars. simpl.
  rewrite andb_true_iff, negb_true_iff. intros [-> _]. reflexivity.
Qed.

Lemma strip_by_none (p : ascii -> bool) (s : string) :
  forallb (fun c => negb (p c)) (chars s) = true -> strip_by p s = s.
Proof.
  intros H. unfold strip_by. rewrite (lstrip_by_none p s H).
  rewrite lstrip_by_none; [apply rev_string_involutive|].
  rewrite chars_rev_string. rewrite forallb_forall in *.
  intros c Hc. apply H. now apply in_rev.
Qed.

Lemma all_space_app (a b : string) :
  all_space (a ++ b) = all_space a && all_space b.
Proof. unfold all_space. now rewrite chars_app, forallb_app. Qed.

Lemma word_not_all_space (w : string) :
  no_space w = true -> w <> "" -> all_space w = false.
Proof.
  destruct w as [|c w]; [contradiction|]. unfold no_space, all_space, chars.
  simpl. rewrite andb_true_iff, negb_true_iff. intros [-> _] _. reflexivity.
Qed.

(** A plain status line reads back as its file name: optional leading
    whitespace, a status field, whitespace, and a name of ASCII
    characters that holds no whitespace and no double quote, in a line
    without an arrow, give exactly that name. *)
Theorem parse_status_line_plain (lead status sep name : string) :
  all_space lead = true ->
  ascii_only status = true -> no_space status = true -> status <> "" ->
  all_space sep = true -> sep <> "" ->
  ascii_only name = true -> no_space name = true ->
  no_quote name = true -> name <> "" ->
  after_arrow (lead ++ status ++ sep ++ name) = None ->
  parse_status_line (lead ++ status ++ sep ++ name) = Some name.
Proof.
  intros Hlead _ Hs Hsne Hsep Hsepne _ Hn Hq Hnne Harrow.
  unfold parse_status_line. rewrite Harrow.
  destruct (String.eqb_spec (strip (lead ++ status ++ sep ++ name)) "")
    as [E|_].
  - apply strip_empty_all_space in E.
    rewrite !all_space_app, (word_not_all_space status Hs Hsne) in E.
    rewrite andb_false_r in E. discriminate.
  - rewrite split_ws_space_prefix by exact Hlead.
    rewrite split_ws_status_name by assumption. simpl.
    now rewrite strip_by_none.
Qed.

Lemma parse_status_line_plain_witness :
  parse_status_line " M src/a.py" = Some "src/a.py".
Proof.
  apply (parse_status_line_plain " " "M" " " "src/a.py");
    (reflexivity || discriminate).
Defined.

(** ** The built-in limits together *)

Lemma adjacent_Forall_impl {A} (P : A -> Prop) (R R' : A -> A -> Prop)
  (l : list A) :
  Forall P l ->
  (forall a b, P a -> P b -> R a b -> R' a b) ->
  adjacent R l -> adjacent R' l.
Proof.
  intros HP H. induction l as [|a [|b t] IH]; simpl; auto.
  intros [H1 H2]. inversion HP as [|? ? Pa Pt]; subst.
  inversion Pt as [|? ? Pb _]; subst.
  split; [now apply H | now apply IH].
Qed.

(** Filter and planner under the built-in limits of 50 MiB per file and
    100 MiB per batch: every batch of the plan of the accepted files is
    within 100 MiB, so the single-oversized-file exception never
    occurs; and a batch that is followed by another batch of the same
    directory carries more than 50 MiB. *)
Theorem default_limits_plan (repo_path : string)
  (discovered : list FileEntry) :
  let accepted :=
    fst (fst (get_git_files (Some repo_path) (fun _ => discovered))) in
  let plan := create_batches accepted default_max_batch_size in
  Forall (fun b => total_size b <= 100 * 1024 * 1024) plan
  /\ adjacent (fun b1 b2 => share_dir b1 b2 ->
                            50 * 1024 * 1024 < total_size b1) plan.
Proof.
  cbv zeta. rewrite get_git_files_filter. simpl fst.
  set (accepted := filter (fun f => size f <=? max_file_size) discovered).
  assert (forall b f, In b (create_batches accepted default_max_batch_size) ->
                      In f b -> size f <= 50 * 1024 * 1024) as Hsmall.
  { intros b f Hb Hf.
    assert (In f accepted) as H
      by (apply (plan_member accepted default_max_batch_size); now exists b).
    apply filter_In in H. destruct H as [_ H]. apply Z.leb_le in H.
    exact H. }
  split.
  - pose proof (plan_budget accepted default_max_batch_size) as H.
    rewrite Forall_forall in *. intros b Hb.
    destruct (H b Hb) as [Hle|(f & -> & Hbig)]; [exact Hle|].
    exfalso. specialize (Hsmall [f] f Hb (or_introl eq_refl)).
    unfold default_max_batch_size in Hbig. lia.
  - pose proof (plan_tight accepted default_max_batch_size) as Hadj.
    eapply (adjacent_Forall_impl
              (fun b => In b (create_batches accepted default_max_batch_size)));
      [apply Forall_forall; tauto | | exact Hadj].
    intros b1 b2 _ Hb2 H Hshare.
    destruct (H Hshare) as (g & rest & -> & Hover).
    specialize (Hsmall (g :: rest) g Hb2 (or_introl eq_refl)).
    unfold default_max_batch_size in Hover. lia.
Qed.
